(** * image-to-body-math: pixel <-> angle conversions under a pinhole model

    The C++ sources ([types.hpp], [math.hpp]) compute with [uint64_t] and
    [double].  The program is embedded once, over an interface of the
    [double] operations it uses, and is then read under two semantics:

    - [Binary64]: [double] is IEEE-754 binary64, given by [SpecFloat] with
      [prec = 53] and [emax = 1024].  This is the arithmetic of the code,
      and the properties of the code are stated and proved for it (or for
      every interpretation of the interface).  [std::tan] and [std::atan]
      stay parameters there, since libm fixes them only up to accuracy; a
      property that depends on them names what it assumes of them (an
      accuracy, or that [atan] is nondecreasing).
    - [Exact]: [double] is the field of real numbers: the mathematical
      function the code approximates.  Its rounding functions also serve
      to say which integer a binary64 computation returns.

    A [uint64_t] is a [Z] in the range [0 <= z < 2^64].  A conversion
    [static_cast<uint64_t>(double)] whose truncated value does not fit is
    undefined in C++; it is modelled by [None].  The properties below that
    speak of a pixel returned show that the value is in range and which
    pixel it is. *)

From Stdlib Require Import ZArith Bool Lia Lra Reals SpecFloat.

(** ** The operations on [double] used by the sources *)

Class Arith (D : Type) := {
  d_zero : D;                     (* the literal 0.0 *)
  d_one : D;                      (* the literal 1.0 *)
  d_two : D;                      (* the literal 2.0 *)
  d_add : D -> D -> D;
  d_sub : D -> D -> D;
  d_mul : D -> D -> D;
  d_div : D -> D -> D;
  d_abs : D -> D;                 (* std::abs *)
  d_ltb : D -> D -> bool;         (* operator< *)
  d_round : D -> D;               (* std::round, halfway cases away from zero *)
  d_of_u64 : Z -> D;              (* static_cast<double>(uint64_t) *)
  d_to_u64 : D -> option Z        (* static_cast<uint64_t>(double) *)
}.

Class Trig (D : Type) := {
  d_tan : D -> D;                 (* std::tan *)
  d_atan : D -> D                 (* std::atan *)
}.

Declare Scope double_scope.
Delimit Scope double_scope with D.
Infix "+" := d_add : double_scope.
Infix "-" := d_sub : double_scope.
Infix "*" := d_mul : double_scope.
Infix "/" := d_div : double_scope.
Infix "<?" := d_ltb : double_scope.

Definition u64_max : Z := 2 ^ 64 - 1.

Definition is_u64 (z : Z) : Prop := (0 <= z <= u64_max)%Z.

(** ** types.hpp *)

Record ImageSize := { width : Z; height : Z }.

Record PixelIndex := { value : Z }.

(** Modelled from the spec: the unit-tagged angle of [linalg3d], which is not
    part of the sources.  The spec (section 6) asks for construction from a raw
    magnitude, division by a scalar and a tangent accessor; [Radians] holds
    its magnitude in radians. *)
Module Angle.

Record t (D : Type) := make { value : D }.

Arguments make {D} _.
Arguments value {D} _.

Definition div {D : Type} {AD : Arith D} (a : t D) (k : D) : t D :=
  make (value a / k)%D.

Definition tan {D : Type} {TD : Trig D} (a : t D) : D := d_tan (value a).

End Angle.

Definition Radians (D : Type) : Type := Angle.t D.

Section Program.

Context {D : Type} {AD : Arith D} {TD : Trig D}.

Local Open Scope double_scope.

Definition half_width (s : ImageSize) : D :=
  d_of_u64 (width s) / d_two.

Definition half_height (s : ImageSize) : D :=
  d_of_u64 (height s) / d_two.

Definition normalized (p : PixelIndex) (size : ImageSize) : D :=
  d_of_u64 (value p) / half_width size - d_one.

(** [PixelIndex(static_cast<uint64_t>(x))] *)
Definition to_pixel (x : D) : option PixelIndex :=
  match d_to_u64 x with
  | Some v => Some {| value := v |}
  | None => None
  end.

(** ** math.hpp *)

Definition pixel_tan_from_fov
    (pixel : PixelIndex) (image_size : ImageSize) (fov : Radians D)
  : Radians D :=
  let norm := normalized pixel image_size in
  let half_fov_tan := Angle.tan (Angle.div fov d_two) in
  let pixel_angle := d_atan (norm * half_fov_tan) in
  Angle.make pixel_angle.

Definition tan_2_pixel_by_fov
    (pixel_tan : D) (image_size : ImageSize) (fov : Radians D)
  : option PixelIndex :=
  let half_fov_tan := Angle.tan (Angle.div fov d_two) in
  let norm := pixel_tan / half_fov_tan in
  to_pixel
    (d_round (norm * half_width image_size + half_width image_size)).

Definition pixel_tan_by_pixel_2_tan
    (pixel : PixelIndex) (image_size : ImageSize) (pixel_2_tan : D) : D :=
  (d_of_u64 (value pixel) - half_width image_size) * pixel_2_tan.

Definition angle_tan_to_pixel
    (angle_tan : Radians D) (image_size : ImageSize) (pixel_2_tan : D)
  : option PixelIndex :=
  to_pixel
    (d_round (Angle.value angle_tan / pixel_2_tan + half_width image_size)).

Definition pixel_tan_by_pixel_2_tan_clipped
    (pixel : PixelIndex) (image_size : ImageSize)
    (pixel_2_tan clipping_threshold : D) : D :=
  let diff := d_abs (d_of_u64 (value pixel) - half_width image_size) in
  if diff <? clipping_threshold * half_width image_size then d_zero
  else (d_of_u64 (value pixel) - half_width image_size) * pixel_2_tan.

Definition tan_2_pixel_by_pixel_2_tan
    (pixel_tan : Radians D) (image_size : ImageSize) (pixel_2_tan : D)
    (round_back : bool) : option PixelIndex :=
  let pixel_v := Angle.value pixel_tan / pixel_2_tan + half_width image_size in
  if round_back then to_pixel (d_round pixel_v) else to_pixel pixel_v.

End Program.

(** ** Exact semantics: [double] as the real numbers *)

Module Exact.

Local Open Scope R_scope.

(** [std::round]: nearest integer, halfway cases away from zero. *)
Definition round_away (x : R) : Z :=
  if Rle_dec 0 x then Zfloor (x + / 2) else Zceil (x - / 2).

(** Truncation toward zero, as the conversion to an integer type does. *)
Definition trunc (x : R) : Z :=
  if Rle_dec 0 x then Zfloor x else Zceil x.

Definition to_u64 (x : R) : option Z :=
  let z := trunc x in
  if ((0 <=? z) && (z <=? u64_max))%Z then Some z else None.

#[export] Instance real_arith : Arith R := {|
  d_zero := 0;
  d_one := 1;
  d_two := 2;
  d_add := Rplus;
  d_sub := Rminus;
  d_mul := Rmult;
  d_div := Rdiv;
  d_abs := Rabs;
  d_ltb := fun x y => if Rlt_dec x y then true else false;
  d_round := fun x => IZR (round_away x);
  d_of_u64 := IZR;
  d_to_u64 := to_u64
|}.

#[export] Instance real_trig : Trig R := {|
  d_tan := Rtrigo1.tan;
  d_atan := Ratan.atan
|}.

(** Modelled from the spec: [Degrees] of [linalg3d], converted to radians
    where a [Radians] is expected. *)
Definition Degrees (d : R) : Radians R := Angle.make (d * PI / 180).

End Exact.

(** ** IEEE-754 binary64 semantics *)

Module Binary64.

Definition prec : Z := 53.
Definition emax : Z := 1024.

Definition of_Z (z : Z) : spec_float := binary_normalize prec emax z 0 false.

(** [std::round] on a binary64 value: a value with a non-negative exponent
    is an integer already; otherwise the mantissa is shifted right with a
    half added, which rounds halfway cases away from zero.  The sign is
    kept, also on a zero result. *)
Definition round_away (x : spec_float) : spec_float :=
  match x with
  | S754_finite s m e =>
      match e with
      | Zneg d =>
          let q := Z.shiftr (Zpos m + Z.shiftl 1 (Zpos d - 1)) (Zpos d) in
          binary_normalize prec emax (cond_Zopp s q) 0 s
      | _ => x
      end
  | _ => x
  end.

(** Magnitude of a finite value, truncated to an integer. *)
Definition trunc_mag (m : positive) (e : Z) : Z :=
  match e with
  | Zneg d => Z.shiftr (Zpos m) (Zpos d)
  | _ => Z.shiftl (Zpos m) e
  end.

Definition to_u64 (x : spec_float) : option Z :=
  match x with
  | S754_zero _ => Some 0%Z
  | S754_finite s m e =>
      let t := trunc_mag m e in
      if (t =? 0)%Z then Some 0%Z
      else if s then None
      else if (t <=? u64_max)%Z then Some t else None
  | _ => None
  end.

#[export] Instance b64_arith : Arith spec_float := {|
  d_zero := S754_zero false;
  d_one := of_Z 1;
  d_two := of_Z 2;
  d_add := SFadd prec emax;
  d_sub := SFsub prec emax;
  d_mul := SFmul prec emax;
  d_div := SFdiv prec emax;
  d_abs := SFabs;
  d_ltb := SFltb;
  d_round := round_away;
  d_of_u64 := of_Z;
  d_to_u64 := to_u64
|}.

(** The binary64 value nearest to [n / d], which is what a decimal literal
    such as [0.05] denotes ([n] and [d] below [2^53]). *)
Definition decimal (n d : Z) : spec_float :=
  SFdiv prec emax (of_Z n) (of_Z d).

(** [has_sign s x]: [x] is a zero, a NaN, or carries the sign bit [s]. *)
Definition has_sign (s : bool) (x : spec_float) : bool :=
  match x with
  | S754_zero _ | S754_nan => true
  | S754_infinity s' | S754_finite s' _ _ => Bool.eqb s s'
  end.

Definition is_finite (x : spec_float) : bool :=
  match x with
  | S754_zero _ | S754_finite _ _ _ => true
  | S754_infinity _ | S754_nan => false
  end.

(** The real number a finite binary64 value stands for. *)
Definition B2R (x : spec_float) : R :=
  match x with
  | S754_finite s m e => IZR (cond_Zopp s (Zpos m)) * powerRZ 2 e
  | _ => 0%R
  end.

(** The mantissa of a finite value fits the 53 bits of the format. *)
Definition bounded_mantissa (x : spec_float) : Prop :=
  match x with
  | S754_finite _ m _ => (Zpos m < 2 ^ 53)%Z
  | _ => True
  end.

(** A number (not a NaN) other than zero. *)
Definition is_nonzero (x : spec_float) : bool :=
  match x with
  | S754_infinity _ | S754_finite _ _ _ => true
  | S754_zero _ | S754_nan => false
  end.

(** libm's [tan] and [atan], as parameters. *)
Definition libm_trig (tan atan : spec_float -> spec_float)
  : Trig spec_float := {| d_tan := tan; d_atan := atan |}.

(** *** Rounding to nearest, as a specification *)

(** Where the real number [x] lies between the integers [m] and [m + 1], as
    a [location] of [SpecFloat] tells it: at [m], below the middle, at the
    middle, or above it. *)
Definition inbetween (m : Z) (l : location) (x : R) : Prop :=
  match l with
  | loc_Exact => x = IZR m
  | loc_Inexact Lt => (IZR m < x < IZR m + / 2)%R
  | loc_Inexact Eq => x = (IZR m + / 2)%R
  | loc_Inexact Gt => (IZR m + / 2 < x < IZR m + 1)%R
  end.

(** [r] is an integer nearest to [x]. *)
Definition nearest_integer (r : Z) (x : R) : Prop :=
  forall z : Z, (Rabs (IZR r - x) <= Rabs (IZR z - x))%R.

(** [y] is a binary64 number nearest to the real number [x]: it is finite
    and in canonical form, no number [m * 2^e] with [|m| < 2^53] and
    [-1074 <= e] (every binary64 number is one) lies closer to [x], and the
    error is at most [|x| * 2^-53 + 2^-1075]. *)
Definition rounds_to (x : R) (y : spec_float) : Prop :=
  is_finite y = true
  /\ valid_binary prec emax y = true
  /\ (forall m e : Z,
         (Z.abs m < 2 ^ 53)%Z -> (-1074 <= e)%Z ->
         (Rabs (B2R y - x) <= Rabs (IZR m * powerRZ 2 e - x))%R)
  /\ (Rabs (B2R y - x) <= Rabs x * powerRZ 2 (-53) + powerRZ 2 (-1075))%R.

(** [y] is a binary64 number within the relative error [eps] of [x]: what
    an accurate libm returns where the exact value is [x]. *)
Definition close_to (eps : R) (x y : spec_float) : Prop :=
  is_finite y = true
  /\ valid_binary prec emax y = true
  /\ (Rabs (B2R y - B2R x) <= eps * Rabs (B2R x))%R.

End Binary64.

(** ** Sample values of [std::tan] and [std::atan]

    The values of the two functions at the arguments the examples below
    need: the binary64 numbers nearest to the real tangent and arctangent,
    which are the values the GNU C library returns.  Elsewhere the sample
    says nothing (NaN). *)

Module LibmSample.

Import Binary64.

(** 32 and 30 degrees in radians: [32 * M_PI / 180] and [30 * M_PI / 180]. *)
Definition fov_32 : spec_float := S754_finite false 5030569068109113 (-53).
Definition fov_30 : spec_float := S754_finite false 4716158501352293 (-53).

Definition tan (x : spec_float) : spec_float :=
  (* tan 0.2792526803190927 = 0.2867453857588079 *)
  if SFeqb x (S754_finite false 5030569068109113 (-54))
  then S754_finite false 5165545649814306 (-54)
  (* tan -0.27427764101684654 = -0.28136890977583023 *)
  else if SFeqb x (S754_finite true 4940946727518115 (-54))
  then S754_finite true 5068691668880287 (-54)
  (* tan 0.2617993877991494 = 0.2679491924311227 *)
  else if SFeqb x (S754_finite false 4716158501352293 (-54))
  then S754_finite false 4826943532748118 (-54)
  (* tan -0.2366361025639922 = -0.24115427318801044 *)
  else if SFeqb x (S754_finite true 8525714106636814 (-55))
  then S754_finite true 8688498358946613 (-55)
  (* tan 0.23663610256399217 = 0.24115427318801042 *)
  else if SFeqb x (S754_finite false 8525714106636813 (-55))
  then S754_finite false 8688498358946612 (-55)
  else S754_nan.

Definition atan (x : spec_float) : spec_float :=
  (* atan -0.2813689097758303 = -0.27427764101684654 *)
  if SFeqb x (S754_finite true 5068691668880288 (-54))
  then S754_finite true 4940946727518115 (-54)
  (* atan -0.24115427318801044 = -0.2366361025639922 *)
  else if SFeqb x (S754_finite true 8688498358946613 (-55))
  then S754_finite true 8525714106636814 (-55)
  (* atan 0.24115427318801042 = 0.23663610256399217 *)
  else if SFeqb x (S754_finite false 8688498358946612 (-55))
  then S754_finite false 8525714106636813 (-55)
  else S754_nan.

Definition libm : Trig spec_float := libm_trig tan atan.

End LibmSample.

(** ** The test drivers: assertions and legacy helpers *)

(** What the test files use beyond [Arith]. *)
Class Harness (D : Type) := {
  d_leb : D -> D -> bool;         (* operator<= *)
  d_of_int : Z -> D;              (* static_cast<double>(int) *)
  d_to_int : D -> option Z;       (* conversion of a double to int *)
  d_pi : D                        (* M_PI *)
}.

Infix "<=?" := d_leb : double_scope.

Definition int_min : Z := - 2 ^ 31.
Definition int_max : Z := 2 ^ 31 - 1.

Definition is_int (z : Z) : Prop := (int_min <= z <= int_max)%Z.

Section TestDrivers.

Context {D : Type} {AD : Arith D} {TD : Trig D} {HD : Harness D}.

Local Open Scope double_scope.

(** [assert_near] of the tests of [math.hpp]: the run is aborted when
    [fabs (actual - expected) >= tolerance]; [true] stands for a check that
    lets the run go on. *)
Definition assert_near (actual expected tolerance : D) : bool :=
  if tolerance <=? d_abs (actual - expected) then false else true.

(** [assert_near] of the tests of [types.hpp]:
    [assert (fabs (actual - expected) < tolerance)]. *)
Definition assert_near_strict (actual expected tolerance : D) : bool :=
  d_abs (actual - expected) <? tolerance.

Definition tan_2_pixel_by_fov_old
    (pixel_tan : D) (image_size : Z) (image_fov : D) : option Z :=
  let half_image_size := d_of_int image_size / d_two in
  d_to_int
    (d_round
       ((pixel_tan / d_tan (image_fov * d_pi / d_of_int 360) + d_one)
        * half_image_size)).

Definition pixel_tan_by_pixel_2_tan_old
    (pixel_i : D) (half_image_size : Z) (pixel_2_tan : D) : D :=
  (pixel_i - d_of_int half_image_size) * pixel_2_tan.

Definition angle_tan_to_pixel_old
    (angle_tan : D) (half_image_size : Z) (pixel_2_tan : D) : D :=
  angle_tan / pixel_2_tan + d_of_int half_image_size.

Definition pixel_tan_by_pixel_2_tan_clipped_old
    (pixel_i : D) (half_image_size : Z) (pixel_2_tan clipping_threshold : D)
  : D :=
  let diff := d_abs (pixel_i - d_of_int half_image_size) in
  if diff <? clipping_threshold * d_of_int half_image_size then d_zero
  else (pixel_i - d_of_int half_image_size) * pixel_2_tan.

Definition tan_2_pixel_by_pixel_2_tan_old
    (pixel_tan : D) (half_image_size : Z) (pixel_2_tan : D)
    (round_back : bool) : D :=
  let pixel_v := pixel_tan / pixel_2_tan + d_of_int half_image_size in
  if round_back then d_round pixel_v else pixel_v.

End TestDrivers.

Module Binary64Harness.

Import Binary64.

Definition to_int (x : spec_float) : option Z :=
  match x with
  | S754_zero _ => Some 0%Z
  | S754_finite s m e =>
      let z := cond_Zopp s (trunc_mag m e) in
      if ((int_min <=? z) && (z <=? int_max))%Z then Some z else None
  | _ => None
  end.

(** [M_PI], the binary64 value nearest to pi. *)
Definition M_PI : spec_float := S754_finite false 7074237752028440 (-51).

#[export] Instance b64_harness : Harness spec_float := {|
  d_leb := SFleb;
  d_of_int := of_Z;
  d_to_int := to_int;
  d_pi := M_PI
|}.

Definition is_nan (x : spec_float) : bool :=
  match x with
  | S754_nan => true
  | _ => false
  end.


End Binary64Harness.

(** * Properties *)

(** ** Properties that hold for every arithmetic *)

Section AnyArithmetic.

Context {D : Type} {AD : Arith D}.

Local Open Scope double_scope.

(** C3: the clipped conversion returns exactly [0.0] when
    [|pixel.value - half_width| < threshold * half_width], and otherwise
    exactly what [pixel_tan_by_pixel_2_tan] returns, the linear value
    [(pixel.value - half_width) * pixel_2_tan]. *)
Theorem clipped_dead_zone
    (pixel : PixelIndex) (image_size : ImageSize)
    (pixel_2_tan threshold : D) :
  let hw := half_width image_size in
  let diff := d_abs (d_of_u64 (value pixel) - hw) in
  ((diff <? threshold * hw) = true ->
   pixel_tan_by_pixel_2_tan_clipped pixel image_size pixel_2_tan threshold
   = d_zero)
  /\ ((diff <? threshold * hw) = false ->
      pixel_tan_by_pixel_2_tan_clipped pixel image_size pixel_2_tan threshold
      = (d_of_u64 (value pixel) - hw) * pixel_2_tan
      /\ pixel_tan_by_pixel_2_tan_clipped pixel image_size pixel_2_tan
           threshold
         = pixel_tan_by_pixel_2_tan pixel image_size pixel_2_tan).
Proof.
  intros hw diff. subst hw diff.
  unfold pixel_tan_by_pixel_2_tan_clipped, pixel_tan_by_pixel_2_tan.
  split; intros ->; [reflexivity | split; reflexivity].
Qed.

(** C9: with [round_back] set, [tan_2_pixel_by_pixel_2_tan] returns what
    [angle_tan_to_pixel] returns, for every scale. *)
Theorem round_back_is_angle_tan_to_pixel
    (t : Radians D) (size : ImageSize) (pixel_2_tan : D) :
  tan_2_pixel_by_pixel_2_tan t size pixel_2_tan true
  = angle_tan_to_pixel t size pixel_2_tan.
Proof.
  unfold tan_2_pixel_by_pixel_2_tan, angle_tan_to_pixel. reflexivity.
Qed.

(** The angle [pixel_tan_from_fov] returns, in any arithmetic and for any
    [tan] and [atan]. *)
Lemma pixel_tan_from_fov_angle
    {TD : Trig D} (pixel : PixelIndex) (image_size : ImageSize)
    (fov : Radians D) :
  Angle.value (pixel_tan_from_fov pixel image_size fov)
  = d_atan (normalized pixel image_size * d_tan (Angle.value fov / d_two)).
Proof. reflexivity. Qed.

(** Without [round_back] the value is converted as it is. *)
Lemma no_round_back_converts
    (t : Radians D) (size : ImageSize) (pixel_2_tan : D) :
  tan_2_pixel_by_pixel_2_tan t size pixel_2_tan false
  = to_pixel (Angle.value t / pixel_2_tan + half_width size).
Proof. reflexivity. Qed.

End AnyArithmetic.

(** ** Rounding and truncation of real numbers *)

Section RealRounding.

Import Exact.
Local Open Scope R_scope.

Lemma round_away_IZR (z : Z) : round_away (IZR z) = z.
Proof.
  unfold round_away.
  destruct (Rle_dec 0 (IZR z)) as [_ | _].
  - apply Zfloor_eq. lra.
  - apply Zceil_eq. lra.
Qed.

Lemma trunc_IZR (z : Z) : trunc (IZR z) = z.
Proof.
  unfold trunc.
  destruct (Rle_dec 0 (IZR z)) as [_ | _].
  - apply ZfloorZ.
  - apply Zceil_eq. lra.
Qed.

Lemma round_away_nearest (x : R) : Rabs (IZR (round_away x) - x) <= / 2.
Proof.
  unfold round_away.
  destruct (Rle_dec 0 x) as [_ | _].
  - pose proof (Zfloor_bound (x + / 2)) as B.
    apply Rabs_le. lra.
  - pose proof (Zceil_bound (x - / 2)) as B.
    apply Rabs_le. lra.
Qed.

Lemma round_away_within_half (x : R) :
  x - / 2 <= IZR (round_away x) <= x + / 2.
Proof.
  pose proof (round_away_nearest x) as N.
  unfold Rabs in N. destruct (Rcase_abs _); lra.
Qed.

Lemma round_away_half (z : Z) :
  round_away (IZR z + / 2) = if (0 <=? z)%Z then (z + 1)%Z else z.
Proof.
  unfold round_away.
  destruct (Z.leb_spec 0 z) as [Hz | Hz].
  - apply IZR_le in Hz.
    destruct (Rle_dec 0 (IZR z + / 2)) as [_ | N]; [| lra].
    apply Zfloor_eq. rewrite plus_IZR. lra.
  - assert (IZR z <= -1) by (apply IZR_le; lia).
    destruct (Rle_dec 0 (IZR z + / 2)) as [P | _]; [lra |].
    apply Zceil_eq. lra.
Qed.

Lemma trunc_toward_zero (x : R) :
  Rabs (IZR (trunc x)) <= Rabs x < Rabs (IZR (trunc x)) + 1.
Proof.
  unfold trunc.
  destruct (Rle_dec 0 x) as [P | N].
  - pose proof (Zfloor_bound x) as B.
    assert (0 <= IZR (Zfloor x)) by (apply IZR_le, Zfloor_lub; simpl; lra).
    rewrite !Rabs_pos_eq by lra. lra.
  - pose proof (Zceil_bound x) as B.
    assert (IZR (Zceil x) <= 0).
    { apply IZR_le. apply Z.lt_succ_r. apply lt_IZR. simpl. lra. }
    rewrite !Rabs_left1 by lra. lra.
Qed.

Lemma to_u64_IZR (z : Z) : is_u64 z -> to_u64 (IZR z) = Some z.
Proof.
  intros [L U]. unfold to_u64. rewrite trunc_IZR.
  apply Z.leb_le in L. apply Z.leb_le in U.
  now rewrite L, U.
Qed.

(** A real number within less than a half of an integer rounds to it. *)
Lemma round_away_near (z : Z) (x : R) :
  Rabs (x - IZR z) < / 2 -> round_away x = z.
Proof.
  intros B. unfold Rabs in B. unfold round_away.
  destruct (Rle_dec 0 x) as [P | N].
  - apply Zfloor_eq. destruct (Rcase_abs _); lra.
  - apply Zceil_eq. destruct (Rcase_abs _); lra.
Qed.

(** A real number close to an integer truncates to it or to the one below. *)
Lemma trunc_near (z : Z) (x : R) :
  (0 <= z)%Z -> Rabs (x - IZR z) < / 2 ->
  trunc x = z \/ ((0 < z)%Z /\ trunc x = (z - 1)%Z).
Proof.
  intros Z0 B. unfold Rabs in B. apply IZR_le in Z0. unfold trunc.
  destruct (Rle_dec 0 x) as [P | N].
  - destruct (Rle_dec (IZR z) x) as [G | L].
    + left. apply Zfloor_eq. destruct (Rcase_abs _); lra.
    + right. assert (0 < IZR z) as ZP by lra. apply lt_IZR in ZP.
      split; [exact ZP |]. apply Zfloor_eq. rewrite minus_IZR.
      destruct (Rcase_abs _); lra.
  - left. assert (IZR z < 1) as Z1 by (destruct (Rcase_abs _); lra).
    apply lt_IZR in Z1. apply le_IZR in Z0.
    assert (z = 0%Z) as -> by lia.
    apply Zceil_eq. destruct (Rcase_abs _); lra.
Qed.

(** [round_away] is nondecreasing. *)
Lemma round_away_le (x y : R) : x <= y -> (round_away x <= round_away y)%Z.
Proof.
  intros L. unfold round_away.
  destruct (Rle_dec 0 x) as [X | X], (Rle_dec 0 y) as [Y | Y]; try lra.
  - apply Zfloor_le. lra.
  - apply Z.le_trans with 0%Z.
    + apply Z.lt_succ_r, lt_IZR.
      pose proof (Zceil_bound (x - / 2)). simpl. lra.
    + apply Zfloor_lub. simpl. lra.
  - apply Zceil_le. lra.
Qed.

End RealRounding.

(** ** The zero tangent in exact arithmetic *)

Section ExactSemantics.

Import Exact.
Local Open Scope R_scope.

Ltac unfold_program :=
  unfold pixel_tan_from_fov, tan_2_pixel_by_fov, pixel_tan_by_pixel_2_tan,
    angle_tan_to_pixel, pixel_tan_by_pixel_2_tan_clipped,
    tan_2_pixel_by_pixel_2_tan, to_pixel, normalized, half_width,
    half_height, Angle.tan, Angle.div;
  cbn [d_zero d_one d_two d_add d_sub d_mul d_div d_abs d_ltb d_round
       d_of_u64 d_to_u64 d_tan d_atan real_arith real_trig
       Angle.value value width height].

Lemma half_width_real (s : ImageSize) : half_width s = IZR (width s) / 2.
Proof. reflexivity. Qed.

Lemma normalized_real (p : PixelIndex) (s : ImageSize) :
  normalized p s = IZR (value p) / half_width s - 1.
Proof. reflexivity. Qed.

(** [std::round] of half a width stays a valid pixel index. *)
Lemma round_half_width_u64 (size : ImageSize) :
  is_u64 (width size) -> is_u64 (round_away (half_width size)).
Proof.
  intros [L U]. unfold is_u64.
  pose proof (round_away_within_half (half_width size)) as [N1 N2].
  rewrite half_width_real in *.
  generalize dependent (round_away (IZR (width size) / 2)). intros r N1 N2.
  pose proof (IZR_le _ _ L) as L'.
  assert (0 <= r)%Z as R0 by (apply Z.lt_pred_le, lt_IZR; simpl; lra).
  split; [exact R0 |].
  destruct (Z.eq_dec (width size) 0) as [E | NE].
  - rewrite E in *. apply Z.le_trans with 0%Z.
    + apply Z.lt_succ_r, lt_IZR. simpl. lra.
    + unfold u64_max. lia.
  - assert (1 <= IZR (width size)) by (apply IZR_le; lia).
    apply Z.le_trans with (width size); [| exact U].
    apply le_IZR. lra.
Qed.

Lemma tan_2_pixel_by_fov_zero (size : ImageSize) (fov : Radians R) :
  is_u64 (width size) ->
  tan_2_pixel_by_fov 0 size fov
  = Some {| value := round_away (half_width size) |}.
Proof.
  intros W. pose proof (round_half_width_u64 size W) as RW.
  unfold_program. rewrite half_width_real in RW.
  match goal with
  | |- context [round_away ?x] =>
      replace x with (IZR (width size) / 2)
        by (unfold Rdiv; rewrite !Rmult_0_l, Rplus_0_l; reflexivity)
  end.
  rewrite to_u64_IZR by exact RW. reflexivity.
Qed.

End ExactSemantics.

(** ** The conversions in binary64 arithmetic *)

Section Binary64Conversions.

Import Binary64.

(** *** Integers converted or halved without rounding *)

Lemma digits2_pos_size (m : positive) : digits2_pos m = Pos.size m.
Proof. induction m; simpl; congruence. Qed.

Lemma digits2_pos_iter_xO (m n : positive) :
  digits2_pos (Pos.iter xO m n) = (digits2_pos m + n)%positive.
Proof.
  induction n using Pos.peano_ind.
  - simpl. lia.
  - rewrite Pos.iter_succ. simpl. rewrite IHn. lia.
Qed.

Lemma Zpos_iter_xO (m n : positive) :
  Zpos (Pos.iter xO m n) = (Zpos m * 2 ^ Zpos n)%Z.
Proof.
  induction n using Pos.peano_ind.
  - simpl. lia.
  - rewrite Pos.iter_succ, Pos2Z.inj_succ, Z.pow_succ_r by lia.
    rewrite Pos2Z.inj_xO, IHn. ring.
Qed.

Lemma round_canonical (s : bool) (m : positive) (e : Z) :
  digits2_pos m = 53%positive -> (-1074 <= e <= 971)%Z ->
  binary_round_aux prec emax s (Zpos m) e loc_Exact = S754_finite s m e.
Proof.
  intros Dm E.
  assert (shr_fexp prec emax (Zpos m) e loc_Exact
          = ({| shr_m := Zpos m; shr_r := false; shr_s := false |}, e)) as S1.
  { unfold shr_fexp, fexp, emin, Zdigits2, prec, emax. rewrite Dm.
    replace (Z.max (53 + e - 53) (3 - 1024 - 53) - e)%Z with 0%Z by lia.
    reflexivity. }
  unfold binary_round_aux. rewrite S1. cbn [shr_m loc_of_shr_record round_nearest_even].
  rewrite S1. cbn [shr_m].
  replace (e <=? emax - prec)%Z with true; [reflexivity |].
  symmetry. apply Z.leb_le. unfold emax, prec. lia.
Qed.

Lemma digits2_pos_le_53 (w : positive) :
  (Zpos w < 2 ^ 53)%Z -> (Zpos (digits2_pos w) <= 53)%Z.
Proof.
  intros W. rewrite digits2_pos_size.
  pose proof (Pos.size_le w) as L.
  apply Pos2Z.pos_le_pos in L. rewrite Pos2Z.inj_pow, (Pos2Z.inj_xO w) in L.
  assert (2 ^ Zpos (Pos.size w) < 2 ^ 54)%Z as P.
  { change (2 ^ 54)%Z with (2 * 2 ^ 53)%Z. lia. }
  apply Z.pow_lt_mono_r_iff in P; lia.
Qed.

Lemma binary_round_small (s : bool) (w : positive) :
  (Zpos w < 2 ^ 53)%Z ->
  exists (m : positive) (k : Z),
    binary_round prec emax s w 0 = S754_finite s m (- k)
    /\ digits2_pos m = 53%positive
    /\ (0 <= k <= 52)%Z
    /\ Zpos m = (Zpos w * 2 ^ k)%Z.
Proof.
  intros W. pose proof (digits2_pos_le_53 w W) as D.
  unfold binary_round, shl_align, fexp, emin.
  destruct (Z.eq_dec (Zpos (digits2_pos w)) 53) as [E | NE].
  - replace (Z.max (Zpos (digits2_pos w) + 0 - prec) (3 - emax - prec) - 0)%Z
      with 0%Z by (unfold prec, emax; lia).
    cbv iota beta.
    exists w, 0%Z.
    rewrite round_canonical by (try lia; congruence).
    repeat split; lia.
  - set (k := Z.to_pos (53 - Zpos (digits2_pos w))).
    assert (Zpos k = 53 - Zpos (digits2_pos w))%Z as K
      by (unfold k; rewrite Z2Pos.id; lia).
    replace (Z.max (Zpos (digits2_pos w) + 0 - prec) (3 - emax - prec) - 0)%Z
      with (Zneg k) by (unfold prec, emax; lia).
    cbv iota beta.
    replace (Z.max (Zpos (digits2_pos w) + 0 - prec) (3 - emax - prec))%Z
      with (- Zpos k)%Z by (unfold prec, emax; lia).
    exists (Pos.iter xO w k), (Zpos k).
    assert (digits2_pos (Pos.iter xO w k) = 53%positive) as DK.
    { rewrite digits2_pos_iter_xO. lia. }
    rewrite round_canonical by (try lia; exact DK).
    repeat split; try lia; try exact DK.
    apply Zpos_iter_xO.
Qed.

(** An integer below [2^53] converts exactly: the mantissa is the integer
    shifted left to 53 bits. *)
Lemma of_Z_small (w : positive) :
  (Zpos w < 2 ^ 53)%Z ->
  exists (m : positive) (k : Z),
    of_Z (Zpos w) = S754_finite false m (- k)
    /\ digits2_pos m = 53%positive
    /\ (0 <= k <= 52)%Z
    /\ Zpos m = (Zpos w * 2 ^ k)%Z.
Proof. apply binary_round_small. Qed.

Lemma halve_canonical (s : bool) (m : positive) (e : Z) :
  digits2_pos m = 53%positive -> (-1072 <= e <= 971)%Z ->
  SFdiv prec emax (S754_finite s m e) (of_Z 2) = S754_finite s m (e - 1).
Proof.
  intros Dm E.
  change (of_Z 2) with (S754_finite false 4503599627370496 (-51)).
  unfold SFdiv.
  assert (SFdiv_core_binary prec emax (Zpos m) e 4503599627370496 (-51)
          = (Zpos m~0, e - 2, loc_Exact)%Z) as C.
  { unfold SFdiv_core_binary, fexp, emin, Zdigits2.
    rewrite Dm.
    change (Zpos (digits2_pos 4503599627370496)) with 53%Z.
    replace (Z.min (Z.max (53 + e - (53 + -51) - prec) (3 - emax - prec))
               (e - -51))
      with (e - 2)%Z by (unfold prec, emax; lia).
    replace (e - -51 - (e - 2))%Z with 53%Z by lia.
    cbv iota beta.
    destruct (Z.div_eucl _ _) as [q r] eqn:DE.
    assert (q = Z.shiftl (Zpos m) 53 / 4503599627370496)%Z as Q
      by (unfold Z.div; now rewrite DE).
    assert (r = Z.shiftl (Zpos m) 53 mod 4503599627370496)%Z as R
      by (unfold Z.modulo; now rewrite DE).
    rewrite Z.shiftl_mul_pow2 in Q, R by lia.
    change (2 ^ 53)%Z with (2 * 4503599627370496)%Z in Q, R.
    rewrite Z.mul_assoc in Q, R.
    rewrite Z.div_mul in Q by lia. rewrite Z.mod_mul in R by lia.
    subst q r. 
    replace (Zpos m * 2)%Z with (Zpos m~0) by lia.
    reflexivity. }
  rewrite C. rewrite xorb_false_r.
  assert (shr_fexp prec emax (Zpos m~0) (e - 2) loc_Exact
          = ({| shr_m := Zpos m; shr_r := false; shr_s := false |}, e - 1)%Z) as S1.
  { unfold shr_fexp, fexp, emin, Zdigits2.
    cbn [digits2_pos]. rewrite Dm.
    replace (Z.max (Zpos (Pos.succ 53) + (e - 2) - prec) (3 - emax - prec)
             - (e - 2))%Z
      with 1%Z by (unfold prec, emax; lia).
    unfold shr. cbn [iter_pos shr_1 shr_record_of_loc orb].
    f_equal. lia. }
  assert (shr_fexp prec emax (Zpos m) (e - 1) loc_Exact
          = ({| shr_m := Zpos m; shr_r := false; shr_s := false |}, e - 1)%Z) as S2.
  { unfold shr_fexp, fexp, emin, Zdigits2. rewrite Dm.
    replace (Z.max (53 + (e - 1) - prec) (3 - emax - prec) - (e - 1))%Z
      with 0%Z by (unfold prec, emax; lia).
    reflexivity. }
  unfold binary_round_aux. rewrite S1. cbn [shr_m loc_of_shr_record round_nearest_even].
  rewrite S2. cbn [shr_m].
  replace (e - 1 <=? emax - prec)%Z with true; [reflexivity |].
  symmetry. apply Z.leb_le. unfold emax, prec. lia.
Qed.

Lemma shr_1_div2 (mrs : shr_record) :
  (0 <= shr_m mrs)%Z -> shr_m (shr_1 mrs) = (shr_m mrs / 2)%Z.
Proof.
  destruct mrs as [m r s]. rewrite <- Z.div2_div.
  destruct m as [| [p | p |] | p]; simpl; intros; try reflexivity; lia.
Qed.

Lemma shr_iter_div (n : positive) :
  forall mrs : shr_record,
    (0 <= shr_m mrs)%Z ->
    shr_m (iter_pos shr_1 n mrs) = (shr_m mrs / 2 ^ Zpos n)%Z.
Proof.
  induction n as [n IH | n IH |]; intros mrs M; cbn [iter_pos].
  - assert (0 <= shr_m (shr_1 mrs))%Z as M1
        by (rewrite shr_1_div2 by exact M; apply Z.div_pos; lia).
    assert (0 <= shr_m (iter_pos shr_1 n (shr_1 mrs)))%Z as M2
        by (rewrite IH by exact M1; apply Z.div_pos; lia).
    rewrite IH, IH, shr_1_div2 by assumption.
    rewrite !Z.div_div by lia. f_equal.
    rewrite Pos2Z.inj_xI, <- !Z.pow_add_r, <- Z.pow_succ_r by lia.
    f_equal. lia.
  - assert (0 <= shr_m (iter_pos shr_1 n mrs))%Z as M2
        by (rewrite IH by exact M; apply Z.div_pos; lia).
    rewrite IH, IH by assumption.
    rewrite !Z.div_div by lia. f_equal.
    rewrite Pos2Z.inj_xO, <- !Z.pow_add_r by lia.
    f_equal. lia.
  - rewrite shr_1_div2 by exact M. reflexivity.
Qed.

Lemma digits2_pos_bounds (m : positive) :
  (2 ^ (Zpos (digits2_pos m) - 1) <= Zpos m < 2 ^ Zpos (digits2_pos m))%Z.
Proof.
  rewrite digits2_pos_size.
  pose proof (Pos.size_le m) as L. pose proof (Pos.size_gt m) as G.
  apply Pos2Z.pos_le_pos in L. apply Pos2Z.pos_lt_pos in G.
  rewrite Pos2Z.inj_pow in L, G. rewrite (Pos2Z.inj_xO m) in L.
  replace (Zpos (Pos.size m)) with (Z.succ (Zpos (Pos.size m) - 1)) in L by lia.
  rewrite Z.pow_succ_r in L by lia.
  lia.
Qed.

Lemma digits2_pos_unique (m : positive) (d : Z) :
  (2 ^ (d - 1) <= Zpos m < 2 ^ d)%Z -> Zpos (digits2_pos m) = d.
Proof.
  intros [L U]. pose proof (digits2_pos_bounds m) as [L' U'].
  assert (0 < d)%Z as Dpos.
  { destruct (Z.lt_ge_cases 0 d) as [P | N]; [exact P |].
    destruct (Z.eq_dec d 0) as [-> | NZ]; [simpl in U; lia |].
    rewrite Z.pow_neg_r in U by lia. lia. }
  assert (2 ^ (d - 1) < 2 ^ Zpos (digits2_pos m))%Z as A by lia.
  assert (2 ^ (Zpos (digits2_pos m) - 1) < 2 ^ d)%Z as B by lia.
  apply Z.pow_lt_mono_r_iff in A; [| lia | lia].
  apply Z.pow_lt_mono_r_iff in B; [| lia | lia].
  lia.
Qed.

Lemma round_nearest_even_step (m : Z) (l : location) :
  round_nearest_even m l = m \/ round_nearest_even m l = (m + 1)%Z.
Proof.
  destruct l as [| []]; simpl; auto. destruct (Z.even m); auto.
Qed.

Lemma of_Z_large (w : positive) :
  (2 ^ 53 <= Zpos w < 2 ^ 64)%Z ->
  exists (m : positive) (e : Z),
    of_Z (Zpos w) = S754_finite false m e
    /\ digits2_pos m = 53%positive
    /\ (1 <= e <= 12)%Z.
Proof.
  intros [WL WU].
  pose proof (digits2_pos_bounds w) as [DL DU].
  remember (Zpos (digits2_pos w)) as d eqn:Hd.
  assert (0 < d)%Z as D0 by lia.
  assert (53 < d)%Z as D1 by (apply (Z.pow_lt_mono_r_iff 2); lia).
  assert (d - 1 < 64)%Z as D2 by (apply (Z.pow_lt_mono_r_iff 2); lia).
  set (n := Z.to_pos (d - 53)).
  assert (Zpos n = d - 53)%Z as N by (unfold n; rewrite Z2Pos.id; lia).
  unfold of_Z, binary_normalize, binary_round, shl_align, fexp, emin.
  rewrite <- Hd.
  replace (Z.max (d + 0 - prec) (3 - emax - prec) - 0)%Z
    with (Zpos n) by (unfold prec, emax; lia).
  cbv iota beta.
  unfold binary_round_aux.
  assert (shr_fexp prec emax (Zpos w) 0 loc_Exact
          = (iter_pos shr_1 n
               {| shr_m := Zpos w; shr_r := false; shr_s := false |},
             0 + Zpos n)%Z) as S1.
  { unfold shr_fexp, fexp, emin, Zdigits2. rewrite <- Hd.
    replace (Z.max (d + 0 - prec) (3 - emax - prec) - 0)%Z
      with (Zpos n) by (unfold prec, emax; lia).
    reflexivity. }
  rewrite S1. clear S1.
  set (mrs1 := iter_pos shr_1 n _).
  assert (shr_m mrs1 = Zpos w / 2 ^ Zpos n)%Z as M0
      by (unfold mrs1; rewrite shr_iter_div; simpl; [reflexivity | lia]).
  assert (2 ^ 52 <= shr_m mrs1 < 2 ^ 53)%Z as [B0 B1].
  { rewrite M0. split.
    - apply Z.div_le_lower_bound; [lia |].
      rewrite <- Z.pow_add_r by lia.
      replace (Zpos n + 52)%Z with (d - 1)%Z by lia. exact DL.
    - apply Z.div_lt_upper_bound; [lia |].
      rewrite <- Z.pow_add_r by lia.
      replace (Zpos n + 53)%Z with d by lia. exact DU. }
  destruct (round_nearest_even_step (shr_m mrs1) (loc_of_shr_record mrs1))
    as [R | R]; rewrite R; clear R.
  - destruct (shr_m mrs1) as [| p | p] eqn:P; try lia.
    assert (digits2_pos p = 53%positive) as DP.
    { apply Pos2Z.inj. apply digits2_pos_unique.
      change (53 - 1)%Z with 52%Z. lia. }
    exists p, (0 + Zpos n)%Z.
    assert (shr_fexp prec emax (Zpos p) (0 + Zpos n) loc_Exact
            = ({| shr_m := Zpos p; shr_r := false; shr_s := false |},
               0 + Zpos n)%Z) as S2.
    { unfold shr_fexp, fexp, emin, Zdigits2. rewrite DP.
      replace (Z.max (53 + (0 + Zpos n) - prec) (3 - emax - prec)
               - (0 + Zpos n))%Z with 0%Z by (unfold prec, emax; lia).
      reflexivity. }
    rewrite S2. cbn [shr_m].
    replace (0 + Zpos n <=? emax - prec)%Z with true
      by (symmetry; apply Z.leb_le; unfold emax, prec; lia).
    repeat split; lia.
  - destruct (Z.eq_dec (shr_m mrs1 + 1) (2 ^ 53)) as [E | NE].
    + rewrite E.
      exists 4503599627370496%positive, (0 + Zpos n + 1)%Z.
      assert (shr_fexp prec emax (2 ^ 53) (0 + Zpos n) loc_Exact
              = ({| shr_m := 4503599627370496; shr_r := false;
                    shr_s := false |},
                 0 + Zpos n + 1)%Z) as S2.
      { unfold shr_fexp, fexp, emin.
        change (Zdigits2 (2 ^ 53)) with 54%Z.
        replace (Z.max (54 + (0 + Zpos n) - prec) (3 - emax - prec)
                 - (0 + Zpos n))%Z with 1%Z by (unfold prec, emax; lia).
        reflexivity. }
      rewrite S2. cbn [shr_m].
      replace (0 + Zpos n + 1 <=? emax - prec)%Z with true
        by (symmetry; apply Z.leb_le; unfold emax, prec; lia).
      repeat split; lia.
    + destruct (shr_m mrs1 + 1)%Z as [| p | p] eqn:P; try lia.
      assert (digits2_pos p = 53%positive) as DP.
      { apply Pos2Z.inj. apply digits2_pos_unique.
        change (53 - 1)%Z with 52%Z. lia. }
      exists p, (0 + Zpos n)%Z.
      assert (shr_fexp prec emax (Zpos p) (0 + Zpos n) loc_Exact
              = ({| shr_m := Zpos p; shr_r := false; shr_s := false |},
                 0 + Zpos n)%Z) as S2.
      { unfold shr_fexp, fexp, emin, Zdigits2. rewrite DP.
        replace (Z.max (53 + (0 + Zpos n) - prec) (3 - emax - prec)
                 - (0 + Zpos n))%Z with 0%Z by (unfold prec, emax; lia).
        reflexivity. }
      rewrite S2. cbn [shr_m].
      replace (0 + Zpos n <=? emax - prec)%Z with true
        by (symmetry; apply Z.leb_le; unfold emax, prec; lia).
      repeat split; lia.
Qed.

(** Every positive [uint64_t] converts to a normal number. *)
Lemma of_Z_u64 (w : Z) :
  (0 < w <= u64_max)%Z ->
  exists (m : positive) (e : Z),
    of_Z w = S754_finite false m e
    /\ digits2_pos m = 53%positive
    /\ (-52 <= e <= 12)%Z.
Proof.
  intros [W0 W1]. destruct w as [| w | w]; try lia.
  destruct (Z.lt_ge_cases (Zpos w) (2 ^ 53)) as [S | L].
  - destruct (of_Z_small w S) as (m & k & E & Dm & K & _).
    exists m, (- k)%Z. repeat split; try assumption; lia.
  - assert (Zpos w < 2 ^ 64)%Z as U by (unfold u64_max in W1; lia).
    destruct (of_Z_large w (conj L U)) as (m & e & E & Dm & B).
    exists m, e. repeat split; try assumption; lia.
Qed.

Lemma half_width_canonical (size : ImageSize) :
  (0 < width size <= u64_max)%Z ->
  exists (m : positive) (e : Z),
    half_width size = S754_finite false m e
    /\ digits2_pos m = 53%positive
    /\ (-53 <= e <= 11)%Z.
Proof.
  intros W. destruct (of_Z_u64 (width size) W) as (m & e & E & Dm & B).
  exists m, (e - 1)%Z. unfold half_width.
  cbn [d_div d_of_u64 d_two b64_arith]. rewrite E.
  rewrite halve_canonical by (try assumption; lia).
  repeat split; try assumption; lia.
Qed.

Lemma half_width_is_finite (size : ImageSize) :
  is_u64 (width size) -> is_finite (half_width size) = true.
Proof.
  intros [W0 W1]. destruct (Z.eq_dec (width size) 0) as [Z | NZ].
  - unfold half_width. rewrite Z. reflexivity.
  - destruct (half_width_canonical size) as (m & e & E & _); [lia |].
    now rewrite E.
Qed.

Lemma IZR_pow2 (k : Z) : (0 <= k)%Z -> IZR (2 ^ k) = powerRZ 2 k.
Proof.
  intros K. destruct k as [| k | k]; try lia.
  - reflexivity.
  - change (2 ^ Zpos k)%Z with (Z.pow_pos 2 k). apply Zpower_pos_powerRZ.
Qed.

Lemma powerRZ_2_pred (e : Z) : (powerRZ 2 (e - 1) = powerRZ 2 e / 2)%R.
Proof.
  replace (e - 1)%Z with (e + -1)%Z by lia. rewrite powerRZ_add by lra.
  replace (powerRZ 2 (-1)) with (/ 2)%R by (simpl; now rewrite Rmult_1_r).
  reflexivity.
Qed.

Lemma B2R_of_Z_small (q : Z) :
  (0 <= q < 2 ^ 53)%Z -> B2R (of_Z q) = IZR q.
Proof.
  intros [Q0 Q1]. destruct q as [| q | q]; try lia.
  - reflexivity.
  - destruct (of_Z_small q Q1) as (m & k & E & _ & K & M).
    rewrite E. cbn [B2R cond_Zopp]. rewrite M, mult_IZR, IZR_pow2 by lia.
    rewrite Rmult_assoc, <- powerRZ_add by lra.
    replace (k + - k)%Z with 0%Z by lia. simpl. lra.
Qed.

(** For a width below [2^53] the binary64 [half_width] is the exact half. *)
Lemma half_width_exact (size : ImageSize) :
  (0 <= width size < 2 ^ 53)%Z ->
  B2R (half_width size) = (IZR (width size) / 2)%R.
Proof.
  intros [W0 W1]. unfold half_width.
  cbn [d_div d_of_u64 d_two b64_arith].
  destruct (width size) as [| w | w]; try lia.
  - simpl. lra.
  - destruct (of_Z_small w W1) as (m & k & E & Dm & K & M).
    rewrite E, halve_canonical by (try assumption; lia).
    cbn [B2R cond_Zopp].
    rewrite powerRZ_2_pred, M, mult_IZR, IZR_pow2 by lia.
    unfold Rdiv. rewrite <- !Rmult_assoc. f_equal.
    rewrite Rmult_assoc, <- powerRZ_add by lra.
    replace (k + - k)%Z with 0%Z by lia. simpl. lra.
Qed.

Lemma to_u64_of_Z_small (q : Z) :
  (0 <= q < 2 ^ 53)%Z -> to_u64 (of_Z q) = Some q.
Proof.
  intros [Q0 Q1]. destruct q as [| q | q]; try lia.
  - reflexivity.
  - destruct (of_Z_small q Q1) as (m & k & E & _ & K & M).
    rewrite E. unfold to_u64.
    assert (trunc_mag m (- k) = Zpos q) as T.
    { unfold trunc_mag. destruct k as [| k | k]; try lia.
      - simpl. lia.
      - simpl Z.opp. cbv iota. rewrite Z.shiftr_div_pow2, M by lia.
        apply Z.div_mul. lia. }
    rewrite T. simpl (Zpos q =? 0)%Z. cbv iota.
    replace (Zpos q <=? u64_max)%Z with true; [reflexivity |].
    symmetry. apply Z.leb_le. unfold u64_max. lia.
Qed.

(** Rounding a positive normal number of at most 64 bits and converting it
    to [uint64_t] is defined, and keeps the rounded value. *)
Lemma round_away_to_u64 (m : positive) (e : Z) :
  digits2_pos m = 53%positive -> (-53 <= e <= 11)%Z ->
  exists v : Z,
    to_u64 (round_away (S754_finite false m e)) = Some v
    /\ IZR v = B2R (round_away (S754_finite false m e)).
Proof.
  intros Dm E.
  pose proof (digits2_pos_bounds m) as [ML MU]. rewrite Dm in ML, MU.
  change (53 - 1)%Z with 52%Z in ML.
  destruct e as [| e | d].
  - exists (Zpos m). split.
    + unfold round_away, to_u64, trunc_mag. simpl Z.shiftl.
      simpl (Zpos m =? 0)%Z. cbv iota.
      replace (Zpos m <=? u64_max)%Z with true; [reflexivity |].
      symmetry. apply Z.leb_le. unfold u64_max. lia.
    + simpl. lra.
  - exists (Zpos m * 2 ^ Zpos e)%Z. split.
    + unfold round_away, to_u64, trunc_mag.
      rewrite Z.shiftl_mul_pow2 by lia.
      assert (2 ^ Zpos e <= 2 ^ 11)%Z as P
          by (apply Z.pow_le_mono_r; lia).
      assert (0 < 2 ^ Zpos e)%Z as P0 by (apply Z.pow_pos_nonneg; lia).
      replace (Zpos m * 2 ^ Zpos e =? 0)%Z with false
        by (symmetry; apply Z.eqb_neq; nia).
      replace (Zpos m * 2 ^ Zpos e <=? u64_max)%Z with true; [reflexivity |].
      symmetry. apply Z.leb_le. unfold u64_max.
      change (2 ^ 11)%Z with 2048%Z in P.
      change (2 ^ 53)%Z with 9007199254740992%Z in MU.
      change (2 ^ 64 - 1)%Z with 18446744073709551615%Z. nia.
    + cbn [round_away B2R cond_Zopp]. rewrite mult_IZR, IZR_pow2 by lia.
      reflexivity.
  - set (q := Z.shiftr (Zpos m + Z.shiftl 1 (Zpos d - 1)) (Zpos d)).
    assert (0 <= q < 2 ^ 53)%Z as Q.
    { unfold q. rewrite Z.shiftr_div_pow2, Z.shiftl_mul_pow2, Z.mul_1_l by lia.
      assert (0 < 2 ^ (Zpos d - 1))%Z as P0 by (apply Z.pow_pos_nonneg; lia).
      assert (2 ^ Zpos d = 2 * 2 ^ (Zpos d - 1))%Z as P2.
      { rewrite <- Z.pow_succ_r by lia. f_equal. lia. }
      split.
      - apply Z.div_pos; lia.
      - apply Z.div_lt_upper_bound; [lia |]. rewrite P2.
        change (2 ^ 53)%Z with 9007199254740992%Z in *. nia. }
    exists q.
    change (round_away (S754_finite false m (Zneg d))) with (of_Z q).
    split.
    + now apply to_u64_of_Z_small.
    + symmetry. now apply B2R_of_Z_small.
Qed.

(** *** What rounding returns fits the mantissa *)

Lemma Zdigits2_bound (m : Z) : (0 <= m)%Z -> (m < 2 ^ Zdigits2 m)%Z.
Proof.
  intros M. destruct m as [| p | p]; try lia.
  - simpl. lia.
  - apply digits2_pos_bounds.
Qed.

Lemma Zdigits2_nonneg (m : Z) : (0 <= Zdigits2 m)%Z.
Proof. destruct m; simpl; lia. Qed.

Lemma shr_record_of_loc_m (m : Z) (l : location) :
  shr_m (shr_record_of_loc m l) = m.
Proof. destruct l as [| []]; reflexivity. Qed.

(** Shifting to the exponent [fexp] asks for leaves at most 53 bits. *)
Lemma shr_fexp_bound (m e : Z) (l : location) :
  (0 <= m)%Z ->
  (0 <= shr_m (fst (shr_fexp prec emax m e l)) < 2 ^ 53)%Z.
Proof.
  intros M. pose proof (Zdigits2_bound m M) as B.
  pose proof (Zdigits2_nonneg m) as D0.
  unfold shr_fexp, fexp, emin.
  set (n := (Z.max (Zdigits2 m + e - prec) (3 - emax - prec) - e)%Z).
  assert (Zdigits2 m - 53 <= n)%Z as N by (unfold n, prec, emax; lia).
  clearbody n. unfold shr. destruct n as [| n | n]; cbn [fst].
  - rewrite shr_record_of_loc_m. split; [exact M |].
    apply Z.lt_le_trans with (1 := B). apply Z.pow_le_mono_r; lia.
  - rewrite shr_iter_div by (rewrite shr_record_of_loc_m; exact M).
    rewrite shr_record_of_loc_m. split.
    + apply Z.div_pos; lia.
    + apply Z.div_lt_upper_bound; [lia |].
      rewrite <- Z.pow_add_r by lia.
      apply Z.lt_le_trans with (1 := B). apply Z.pow_le_mono_r; lia.
  - rewrite shr_record_of_loc_m. split; [exact M |].
    apply Z.lt_le_trans with (1 := B). apply Z.pow_le_mono_r; lia.
Qed.

Lemma binary_round_aux_bounded (s : bool) (m e : Z) (l : location) :
  (0 <= m)%Z ->
  bounded_mantissa (binary_round_aux prec emax s m e l).
Proof.
  intros M. unfold binary_round_aux.
  pose proof (shr_fexp_bound m e l M) as [B0 _].
  destruct (shr_fexp prec emax m e l) as [mrs1 e1]. cbn [fst] in B0.
  assert (0 <= round_nearest_even (shr_m mrs1) (loc_of_shr_record mrs1))%Z
    as R0.
  { destruct (round_nearest_even_step (shr_m mrs1) (loc_of_shr_record mrs1))
      as [-> | ->]; lia. }
  pose proof (shr_fexp_bound _ e1 loc_Exact R0) as [_ B1].
  destruct (shr_fexp prec emax _ e1 loc_Exact) as [mrs2 e2]. cbn [fst] in B1.
  destruct (shr_m mrs2) as [| q | q]; [exact I | | exact I].
  destruct (e2 <=? emax - prec)%Z; [exact B1 | exact I].
Qed.

Lemma binary_normalize_bounded (m e : Z) (s : bool) :
  bounded_mantissa (binary_normalize prec emax m e s).
Proof.
  unfold binary_normalize, binary_round.
  destruct m as [| p | p]; [exact I | |];
    destruct (shl_align p e _) as [mz ez];
    apply binary_round_aux_bounded; lia.
Qed.

Lemma SFmul_bounded (x y : spec_float) :
  bounded_mantissa (SFmul prec emax x y).
Proof.
  destruct x as [a | a | | a mx ex], y as [b | b | | b my ey];
    try exact I.
  apply binary_round_aux_bounded. lia.
Qed.

Lemma SFadd_bounded (x y : spec_float) :
  bounded_mantissa x -> bounded_mantissa y ->
  bounded_mantissa (SFadd prec emax x y).
Proof.
  intros X Y.
  destruct x as [a | a | | a mx ex], y as [b | b | | b my ey];
    try exact I; try exact X; try exact Y.
  - destruct a, b; exact I.
  - destruct a, b; exact I.
  - apply binary_normalize_bounded.
Qed.

Lemma round_away_bounded (x : spec_float) :
  bounded_mantissa x -> bounded_mantissa (round_away x).
Proof.
  intros X. destruct x as [a | a | | a m e]; try exact I.
  destruct e as [| e | d]; [exact X | exact X |].
  apply binary_normalize_bounded.
Qed.

(** What a conversion to [uint64_t] can return: an integer of at most 53
    bits, or such an integer times a power of two. *)
Lemma to_u64_representable (x : spec_float) (v : Z) :
  bounded_mantissa x -> to_u64 x = Some v ->
  exists m e : Z, (0 <= m < 2 ^ 53)%Z /\ (0 <= e)%Z /\ v = (m * 2 ^ e)%Z.
Proof.
  intros X T. destruct x as [a | a | | a m e]; try discriminate T.
  - injection T as <-. exists 0%Z, 0%Z. lia.
  - cbn [to_u64 bounded_mantissa] in *.
    destruct (trunc_mag m e =? 0)%Z eqn:Z0.
    + injection T as <-. exists 0%Z, 0%Z. lia.
    + destruct a; [discriminate T |].
      destruct (trunc_mag m e <=? u64_max)%Z; [| discriminate T].
      injection T as <-. unfold trunc_mag.
      destruct e as [| e | d].
      * exists (Zpos m), 0%Z. rewrite Z.shiftl_mul_pow2 by lia. lia.
      * exists (Zpos m), (Zpos e). rewrite Z.shiftl_mul_pow2 by lia. lia.
      * exists (Z.shiftr (Zpos m) (Zpos d)), 0%Z.
        rewrite Z.shiftr_div_pow2 by lia.
        assert (0 < 2 ^ Zpos d)%Z by (apply Z.pow_pos_nonneg; lia).
        repeat split; try lia.
        -- apply Z.div_pos; lia.
        -- apply Z.le_lt_trans with (Zpos m); [| exact X].
           apply Z.div_le_upper_bound; nia.
Qed.

(** Between [2^60] and [2^60 + 256] binary64 has no value. *)
Lemma no_double_above_2_60 (m e v : Z) :
  (0 <= m < 2 ^ 53)%Z -> (0 <= e)%Z -> v = (m * 2 ^ e)%Z ->
  (2 ^ 60 < v < 2 ^ 60 + 256)%Z -> False.
Proof.
  intros [M0 M1] E -> [L U].
  destruct (Z.le_gt_cases e 7) as [S | B].
  - assert (2 ^ e <= 2 ^ 7)%Z as P by (apply Z.pow_le_mono_r; lia).
    assert (0 < 2 ^ e)%Z as P0 by (apply Z.pow_pos_nonneg; lia).
    change (2 ^ 7)%Z with 128%Z in P.
    change (2 ^ 53)%Z with 9007199254740992%Z in M1.
    change (2 ^ 60)%Z with 1152921504606846976%Z in L.
    nia.
  - replace e with (8 + (e - 8))%Z in L, U by lia.
    rewrite Z.pow_add_r in L, U by lia.
    assert (0 < 2 ^ (e - 8))%Z as P0 by (apply Z.pow_pos_nonneg; lia).
    change (2 ^ 8)%Z with 256%Z in L, U.
    change (2 ^ 60)%Z with (256 * 4503599627370496)%Z in L, U.
    set (k := (m * 2 ^ (e - 8))%Z) in *.
    replace (m * (256 * 2 ^ (e - 8)))%Z with (256 * k)%Z in L, U
      by (unfold k; ring).
    lia.
Qed.

(** *** [std::round] and the conversion to [uint64_t], against [B2R] *)

Lemma div_eucl_quotient_nonneg (a b q r : Z) :
  (0 <= a)%Z -> (0 < b)%Z -> Z.div_eucl a b = (q, r) -> (0 <= q)%Z.
Proof.
  intros A B E.
  replace q with (a / b)%Z by (unfold Z.div; now rewrite E).
  apply Z.div_pos; assumption.
Qed.

Lemma SFdiv_bounded (x y : spec_float) :
  bounded_mantissa (SFdiv prec emax x y).
Proof.
  destruct x as [a | a | | a mx ex], y as [b | b | | b my ey];
    try exact I.
  unfold SFdiv, SFdiv_core_binary.
  destruct (Z.div_eucl _ (Zpos my)) as [q r] eqn:DE.
  apply binary_round_aux_bounded.
  refine (div_eucl_quotient_nonneg _ _ _ _ _ _ DE); [| lia].
  destruct (ex - ey - _)%Z as [| n | n]; try lia.
  apply Z.shiftl_nonneg. lia.
Qed.

Lemma half_width_bounded (size : ImageSize) :
  bounded_mantissa (half_width size).
Proof. apply SFdiv_bounded. Qed.

Lemma B2R_neg_exp (s : bool) (m d : positive) :
  B2R (S754_finite s m (Zneg d))
  = (IZR (cond_Zopp s (Zpos m)) / IZR (2 ^ Zpos d))%R.
Proof.
  cbn [B2R]. rewrite IZR_pow2 by lia. reflexivity.
Qed.

Lemma B2R_nonneg_exp (m : positive) (e : Z) :
  (0 <= e)%Z -> B2R (S754_finite false m e) = IZR (Zpos m * 2 ^ e).
Proof.
  intros E. cbn [B2R cond_Zopp]. now rewrite mult_IZR, IZR_pow2.
Qed.

Lemma trunc_mag_shifted (m q : positive) (k : Z) :
  (0 <= k)%Z -> Zpos m = (Zpos q * 2 ^ k)%Z -> trunc_mag m (- k) = Zpos q.
Proof.
  intros K M. unfold trunc_mag. destruct k as [| k | k]; try lia.
  - simpl. lia.
  - simpl Z.opp. cbv iota. rewrite Z.shiftr_div_pow2, M by lia.
    apply Z.div_mul. lia.
Qed.

(** The integer [std::round] works with, for a value with [d] fraction
    bits. *)
Lemma round_quotient (m d : positive) :
  let q := Z.shiftr (Zpos m + Z.shiftl 1 (Zpos d - 1)) (Zpos d) in
  (2 * 2 ^ Zpos d * q <= 2 * Zpos m + 2 ^ Zpos d
   < 2 * 2 ^ Zpos d * q + 2 * 2 ^ Zpos d)%Z.
Proof.
  intros q. unfold q.
  rewrite Z.shiftr_div_pow2, Z.shiftl_mul_pow2, Z.mul_1_l by lia.
  assert (0 < 2 ^ (Zpos d - 1))%Z as P0 by (apply Z.pow_pos_nonneg; lia).
  assert (2 ^ Zpos d = 2 * 2 ^ (Zpos d - 1))%Z as P2.
  { rewrite <- Z.pow_succ_r by lia. f_equal. lia. }
  pose proof (Z.mul_div_le (Zpos m + 2 ^ (Zpos d - 1)) (2 ^ Zpos d)) as L.
  pose proof (Z.mul_succ_div_gt (Zpos m + 2 ^ (Zpos d - 1)) (2 ^ Zpos d)) as U.
  lia.
Qed.

Lemma round_quotient_small (m d : positive) :
  (Zpos m < 2 ^ 53)%Z ->
  (0 <= Z.shiftr (Zpos m + Z.shiftl 1 (Zpos d - 1)) (Zpos d) < 2 ^ 53)%Z.
Proof.
  intros M. pose proof (round_quotient m d) as [L U]. cbv zeta in L, U.
  assert (2 <= 2 ^ Zpos d)%Z as P.
  { change 2%Z with (2 ^ 1)%Z at 1. apply Z.pow_le_mono_r; lia. }
  change (2 ^ 53)%Z with 9007199254740992%Z in *.
  split; nia.
Qed.

Lemma Rabs_B2R (s : bool) (m : positive) (e : Z) :
  Rabs (B2R (S754_finite s m e)) = B2R (S754_finite false m e).
Proof.
  cbn [B2R cond_Zopp].
  pose proof (powerRZ_le 2 e ltac:(lra)) as P.
  rewrite Rabs_mult, (Rabs_pos_eq _ P), Rabs_Zabs.
  now destruct s.
Qed.

(** A value without fraction bits converts to itself. *)
Lemma to_u64_integer (s : bool) (m : positive) (e v : Z) :
  (0 <= e)%Z -> to_u64 (S754_finite s m e) = Some v ->
  s = false /\ v = (Zpos m * 2 ^ e)%Z /\ (0 < v)%Z.
Proof.
  intros E T. unfold to_u64 in T.
  assert (trunc_mag m e = Zpos m * 2 ^ e)%Z as TM.
  { unfold trunc_mag. destruct e as [| e | e]; try lia;
      now rewrite Z.shiftl_mul_pow2 by lia. }
  rewrite TM in T.
  assert (0 < 2 ^ e)%Z as P0 by (apply Z.pow_pos_nonneg; lia).
  assert (0 < Zpos m * 2 ^ e)%Z as V0 by nia.
  destruct (_ =? 0)%Z eqn:Z0; [apply Z.eqb_eq in Z0; lia |].
  destruct s; [discriminate T |].
  destruct (_ <=? u64_max)%Z; [| discriminate T].
  injection T as <-. auto.
Qed.

(** The conversion to [uint64_t] truncates toward zero. *)
Lemma to_u64_truncates (x : spec_float) (v : Z) :
  to_u64 x = Some v ->
  (0 <= v)%Z
  /\ (IZR v <= Rabs (B2R x) < IZR v + 1)%R.
Proof.
  intros T. destruct x as [a | a | | a m e]; try discriminate T.
  - injection T as <-. simpl. rewrite Rabs_R0. split; [lia | lra].
  - rewrite Rabs_B2R.
    destruct (Z.le_gt_cases 0 e) as [E | E].
    + destruct (to_u64_integer a m e v E T) as (_ & -> & V0).
      rewrite B2R_nonneg_exp by exact E. split; [lia | lra].
    + destruct e as [| e | d]; try lia. clear E.
      unfold to_u64, trunc_mag in T. rewrite Z.shiftr_div_pow2 in T by lia.
      rewrite B2R_neg_exp. cbn [cond_Zopp].
      assert (0 < 2 ^ Zpos d)%Z as P0 by (apply Z.pow_pos_nonneg; lia).
      pose proof (Z.mul_div_le (Zpos m) (2 ^ Zpos d) P0) as L.
      pose proof (Z.mul_succ_div_gt (Zpos m) (2 ^ Zpos d) P0) as U.
      assert (0 <= Zpos m / 2 ^ Zpos d)%Z as Q0 by (apply Z.div_pos; lia).
      assert (v = Zpos m / 2 ^ Zpos d)%Z as ->.
      { destruct (_ =? 0)%Z eqn:Z0.
        - apply Z.eqb_eq in Z0. injection T as <-. now rewrite Z0.
        - destruct a; [discriminate T |].
          destruct (_ <=? u64_max)%Z; [| discriminate T].
          now injection T as <-. }
      split; [exact Q0 |].
      apply IZR_lt in P0. apply IZR_le in L. apply IZR_lt in U.
      rewrite mult_IZR in L. rewrite mult_IZR, succ_IZR in U.
      set (b := IZR (2 ^ Zpos d)) in *.
      set (t := IZR (Zpos m / 2 ^ Zpos d)) in *.
      assert (IZR (Zpos m) / b * b = IZR (Zpos m))%R as Cancel
          by (field; lra).
      split.
      * apply Rmult_le_reg_r with b; [exact P0 |]. rewrite Cancel. lra.
      * apply Rmult_lt_reg_r with b; [exact P0 |]. rewrite Cancel. lra.
Qed.

End Binary64Conversions.

Section Binary64Semantics.

Import Binary64.

(** *** Signs of quotients and products *)

Lemma binary_round_aux_sign (s : bool) (m e : Z) (l : location) :
  has_sign s (binary_round_aux prec emax s m e l) = true.
Proof.
  unfold binary_round_aux.
  destruct (shr_fexp prec emax m e l) as [mrs1 e1].
  destruct (shr_fexp prec emax _ e1 loc_Exact) as [mrs2 e2].
  destruct (shr_m mrs2) as [| q | q]; [reflexivity | | reflexivity].
  destruct (e2 <=? emax - prec)%Z; simpl; apply Bool.eqb_reflx.
Qed.

Lemma binary_round_sign (s : bool) (m : positive) (e : Z) :
  has_sign s (binary_round prec emax s m e) = true.
Proof.
  unfold binary_round.
  destruct (shl_align m e _) as [mz ez].
  apply binary_round_aux_sign.
Qed.

Lemma of_Z_sign (z : Z) : (0 <= z)%Z -> has_sign false (of_Z z) = true.
Proof.
  intros Z0. unfold of_Z, binary_normalize.
  destruct z as [| q | q]; [reflexivity | apply binary_round_sign | lia].
Qed.

Lemma halve_sign (x : spec_float) :
  has_sign false x = true ->
  has_sign false (SFdiv prec emax x (of_Z 2)) = true.
Proof.
  intros X. destruct x as [s | s | | s m e]; simpl in *.
  - reflexivity.
  - now destruct s.
  - reflexivity.
  - destruct s; [discriminate |].
    destruct (SFdiv_core_binary _ _ _ _ _ _) as [[mz ez] lz].
    apply binary_round_aux_sign.
Qed.

Lemma half_width_sign (size : ImageSize) :
  (0 <= width size)%Z -> has_sign false (half_width size) = true.
Proof.
  intros W. unfold half_width. cbn [d_div d_of_u64 d_two b64_arith].
  now apply halve_sign, of_Z_sign.
Qed.

Lemma SFmul_sign (sx sy : bool) (x y : spec_float) :
  has_sign sx x = true -> has_sign sy y = true ->
  has_sign (xorb sx sy) (SFmul prec emax x y) = true.
Proof.
  intros X Y.
  destruct x as [a | a | | a mx ex], y as [b | b | | b my ey];
    try reflexivity;
    try (destruct sx, a; try discriminate X);
    try (destruct sy, b; try discriminate Y);
    try reflexivity;
    apply binary_round_aux_sign.
Qed.

Lemma nonpositive_sign (x : spec_float) :
  SFleb x (S754_zero false) = true -> has_sign true x = true.
Proof.
  destruct x as [s | s | | s m e]; simpl; try reflexivity.
  - now destruct s.
  - now destruct s.
Qed.

Lemma SFabs_sign (x : spec_float) : has_sign false (SFabs x) = true.
Proof. now destruct x. Qed.

Lemma SFltb_opposite_signs (x y : spec_float) :
  has_sign false x = true -> has_sign true y = true -> SFltb x y = false.
Proof.
  intros X Y.
  destruct x as [a | a | | a mx ex], y as [b | b | | b my ey];
    try reflexivity;
    try (destruct a; try discriminate X);
    try (destruct b; try discriminate Y);
    reflexivity.
Qed.

(** C10: with a threshold that is zero or negative the clipped conversion
    is the plain linear one: the dead zone is empty. *)
Theorem clipped_nonpositive_threshold
    (pixel : PixelIndex) (image_size : ImageSize)
    (pixel_2_tan threshold : spec_float) :
  is_u64 (width image_size) ->
  SFleb threshold (S754_zero false) = true ->
  pixel_tan_by_pixel_2_tan_clipped pixel image_size pixel_2_tan threshold
  = pixel_tan_by_pixel_2_tan pixel image_size pixel_2_tan.
Proof.
  intros [W _] T.
  unfold pixel_tan_by_pixel_2_tan_clipped, pixel_tan_by_pixel_2_tan.
  cbn [d_ltb d_abs d_mul b64_arith].
  rewrite SFltb_opposite_signs; [reflexivity | apply SFabs_sign |].
  change true with (xorb true false).
  apply SFmul_sign.
  - now apply nonpositive_sign.
  - now apply half_width_sign.
Qed.

Lemma clipped_nonpositive_threshold_witness :
  pixel_tan_by_pixel_2_tan_clipped {| value := 320 |}
    {| width := 640; height := 480 |} (of_Z 3) (of_Z (-1))
  = pixel_tan_by_pixel_2_tan {| value := 320 |}
      {| width := 640; height := 480 |} (of_Z 3).
Proof.
  apply (clipped_nonpositive_threshold {| value := 320 |}
           {| width := 640; height := 480 |} (of_Z 3) (of_Z (-1))).
  - unfold is_u64, u64_max. simpl. lia.
  - vm_compute. reflexivity.
Defined.

Lemma clipped_dead_zone_witness :
  pixel_tan_by_pixel_2_tan_clipped {| value := 320 |}
    {| width := 640; height := 480 |} (decimal 25 10000) (decimal 5 100)
  = S754_zero false
  /\ pixel_tan_by_pixel_2_tan_clipped {| value := 480 |}
       {| width := 640; height := 480 |} (decimal 35 10000) (decimal 5 100)
     = pixel_tan_by_pixel_2_tan {| value := 480 |}
         {| width := 640; height := 480 |} (decimal 35 10000).
Proof.
  split.
  - destruct (clipped_dead_zone (D := spec_float) {| value := 320 |}
                {| width := 640; height := 480 |}
                (decimal 25 10000) (decimal 5 100)) as [Inside _].
    apply Inside. vm_compute. reflexivity.
  - destruct (clipped_dead_zone (D := spec_float) {| value := 480 |}
                {| width := 640; height := 480 |}
                (decimal 35 10000) (decimal 5 100)) as [_ Outside].
    apply Outside. vm_compute. reflexivity.
Defined.

(** [std::round] and the conversion on sample values; out of the range of
    [uint64_t] the conversion is undefined. *)
Example round_away_samples :
  round_away (decimal 5 2) = of_Z 3
  /\ round_away (decimal (-5) 2) = of_Z (-3)
  /\ round_away (decimal 1 2) = of_Z 1
  /\ round_away (decimal 49 100) = S754_zero false
  /\ round_away (decimal (-3) 10) = S754_zero true
  /\ round_away (decimal 57075 100) = of_Z 571.
Proof. repeat split; vm_compute; reflexivity. Qed.

Example to_u64_samples :
  to_u64 (decimal 57075 100) = Some 570%Z
  /\ to_u64 (decimal (-3) 10) = Some 0%Z
  /\ to_u64 (of_Z (-1)) = None
  /\ to_u64 (of_Z (2 ^ 64 - 1025)) = Some (2 ^ 64 - 2048)%Z
  /\ to_u64 (of_Z (2 ^ 64 - 1024)) = None
  /\ to_u64 S754_nan = None.
Proof. repeat split; vm_compute; reflexivity. Qed.

(** A zero tangent with the scale of the tests: the centre pixel. *)
Example angle_tan_to_pixel_centre :
  angle_tan_to_pixel (Angle.make (S754_zero false))
    {| width := 640; height := 480 |} (decimal 25 10000)
  = Some {| value := 320 |}.
Proof. vm_compute. reflexivity. Qed.

(** The tests' image sizes: halving is exact. *)
Example half_width_1920 :
  half_width {| width := 1920; height := 1080 |} = of_Z 960
  /\ half_height {| width := 1920; height := 1080 |} = of_Z 540.
Proof. split; vm_compute; reflexivity. Qed.

(** C5 on binary64: whatever nonzero number libm returns for
    [tan (fov / 2)], the zero tangent maps to [round (half_width)], for
    every positive width a [uint64_t] holds. *)
Lemma zero_tangent_is_centre_pixel_b64
    (tan atan : spec_float -> spec_float)
    (size : ImageSize) (fov : Radians spec_float) :
  (0 < width size)%Z -> is_u64 (width size) ->
  is_nonzero (tan (SFdiv prec emax (Angle.value fov) (of_Z 2))) = true ->
  exists p : PixelIndex,
    tan_2_pixel_by_fov (TD := libm_trig tan atan) (S754_zero false) size fov
    = Some p
    /\ IZR (value p) = B2R (d_round (half_width size)).
Proof.
  intros W0 [_ W1] NZ.
  destruct (half_width_canonical size (conj W0 W1)) as (m & e & E & Dm & B).
  destruct (round_away_to_u64 m e Dm B) as (v & T & V).
  exists {| value := v |}. split; [| rewrite E; exact V].
  unfold tan_2_pixel_by_fov, to_pixel, Angle.tan, Angle.div.
  cbn [d_tan libm_trig d_div d_two d_add d_mul d_round d_to_u64 b64_arith
       Angle.value].
  rewrite E.
  destruct (tan _) as [s | s | | s mh eh]; try discriminate NZ;
    cbn [SFdiv SFmul SFadd]; now rewrite T.
Qed.

(** The 640 pixel wide image of the tests: pixel 320. *)
Lemma zero_tangent_is_pixel_320_b64
    (tan atan : spec_float -> spec_float) (fov : Radians spec_float) :
  is_nonzero (tan (SFdiv prec emax (Angle.value fov) (of_Z 2))) = true ->
  tan_2_pixel_by_fov (TD := libm_trig tan atan) (S754_zero false)
    {| width := 640; height := 480 |} fov
  = Some {| value := 320 |}.
Proof.
  intros NZ. unfold tan_2_pixel_by_fov, Angle.tan, Angle.div.
  cbn [d_tan libm_trig d_div d_two b64_arith Angle.value].
  destruct (tan _) as [s | s | | s m e]; try discriminate NZ;
    destruct s; vm_compute; reflexivity.
Qed.

Lemma half_width_2_61 :
  half_width {| width := 2 ^ 61; height := 0 |}
  = S754_finite false 4503599627370496 8.
Proof. vm_compute. reflexivity. Qed.

(** C2 as stated fails on binary64 for a pixel index that a [double] does
    not hold: on an image [2^61] pixels wide, no value converted from a
    [double] lies within 1 of the pixel [2^60 + 3], whatever libm's [tan]
    and [atan] return and whatever the field of view. *)
Lemma round_trip_large_pixel :
  (0 < 2 ^ 60 + 3 < width {| width := 2 ^ 61; height := 0 |})%Z
  /\ is_u64 (width {| width := 2 ^ 61; height := 0 |})
  /\ ~ exists (tan atan : spec_float -> spec_float)
              (fov : Radians spec_float) (q : PixelIndex),
        tan_2_pixel_by_fov (TD := libm_trig tan atan)
          (Angle.tan (TD := libm_trig tan atan)
             (pixel_tan_from_fov (TD := libm_trig tan atan)
                {| value := 2 ^ 60 + 3 |}
                {| width := 2 ^ 61; height := 0 |} fov))
          {| width := 2 ^ 61; height := 0 |} fov
        = Some q
        /\ (Z.abs (value q - (2 ^ 60 + 3)) <= 1)%Z.
Proof.
  split; [simpl; lia |].
  split; [unfold is_u64, u64_max; simpl; lia |].
  intros (tan & atan & fov & q & H & A).
  unfold tan_2_pixel_by_fov, to_pixel in H.
  rewrite half_width_2_61 in H.
  cbn [d_to_u64 d_round d_add d_mul b64_arith] in H.
  match type of H with
  | match to_u64 ?y with _ => _ end = _ =>
      destruct (to_u64 y) as [v |] eqn:T; [| discriminate H];
      assert (bounded_mantissa y) as B
  end.
  { apply round_away_bounded, SFadd_bounded.
    - apply SFmul_bounded.
    - simpl. lia. }
  injection H as <-. cbn [value] in A.
  destruct (to_u64_representable _ v B T) as (m & e & M & E & V).
  apply (no_double_above_2_60 m e v M E V).
  change (2 ^ 60)%Z with 1152921504606846976%Z in *. lia.
Qed.

End Binary64Semantics.

(** ** The zero tangent under both semantics *)

Section ZeroTangent.

Import Binary64.
Import Exact.
Local Open Scope R_scope.

(** C5: a zero tangent maps to the centre pixel, [round (half_width)];
    for a 640 pixel wide image and a field of view of 32 degrees the
    pixel is 320.  In exact arithmetic, and on binary64 for every libm
    whose [tan (fov / 2)] is a number other than zero. *)
Theorem zero_tangent_is_centre_pixel :
  (forall (size : ImageSize) (fov : Radians R),
      (0 < width size)%Z -> is_u64 (width size) ->
      tan (Angle.value fov / 2) <> 0 ->
      exists p : PixelIndex,
        tan_2_pixel_by_fov 0 size fov = Some p
        /\ IZR (value p) = d_round (half_width size))
  /\ tan_2_pixel_by_fov 0 {| width := 640; height := 480 |} (Degrees 32)
     = Some {| value := 320 |}
  /\ (forall (tan atan : spec_float -> spec_float)
             (size : ImageSize) (fov : Radians spec_float),
         (0 < width size)%Z -> is_u64 (width size) ->
         is_nonzero (tan (SFdiv prec emax (Angle.value fov) (of_Z 2)))
         = true ->
         exists p : PixelIndex,
           tan_2_pixel_by_fov (TD := libm_trig tan atan)
             (S754_zero false) size fov
           = Some p
           /\ IZR (value p) = B2R (d_round (half_width size)))
  /\ (forall (tan atan : spec_float -> spec_float)
             (fov : Radians spec_float),
         is_nonzero (tan (SFdiv prec emax (Angle.value fov) (of_Z 2)))
         = true ->
         tan_2_pixel_by_fov (TD := libm_trig tan atan) (S754_zero false)
           {| width := 640; height := 480 |} fov
         = Some {| value := 320 |}).
Proof.
  split; [| split; [| split;
    [apply zero_tangent_is_centre_pixel_b64
    | apply zero_tangent_is_pixel_320_b64]]].
  - intros size fov _ W _.
    exists {| value := round_away (half_width size) |}. split.
    + apply tan_2_pixel_by_fov_zero, W.
    + reflexivity.
  - rewrite tan_2_pixel_by_fov_zero by (unfold is_u64, u64_max; simpl; lia).
    rewrite half_width_real. simpl width.
    replace (640 / 2) with (IZR 320) by lra.
    now rewrite round_away_IZR.
Qed.

Lemma zero_tangent_is_centre_pixel_witness :
  exists p : PixelIndex,
    tan_2_pixel_by_fov 0 {| width := 24; height := 0 |} (Degrees 23)
    = Some p
    /\ IZR (value p) = d_round (half_width {| width := 24; height := 0 |}).
Proof.
  apply (proj1 zero_tangent_is_centre_pixel
           {| width := 24; height := 0 |} (Degrees 23)).
  - simpl. lia.
  - unfold is_u64, u64_max. simpl. lia.
  - apply Rgt_not_eq, tan_gt_0.
    + unfold Degrees. simpl. pose proof PI_RGT_0. lra.
    + unfold Degrees. simpl. pose proof PI_RGT_0. lra.
Defined.

End ZeroTangent.

(** ** A pixel beyond the image *)

Section BothSemantics.

Import Exact Binary64.
Local Open Scope R_scope.

(** C7 as stated fails for a pixel index beyond the image: index 30 on a
    20 pixel wide image has the normalized coordinate 2, in binary64 as in
    exact arithmetic. *)
Lemma normalized_beyond_image :
  (0 < width {| width := 20; height := 0 |})%Z
  /\ normalized (D := R) {| value := 30 |} {| width := 20; height := 0 |} = 2
  /\ ~ (-1 <= normalized {| value := 30 |} {| width := 20; height := 0 |}
        <= 1)
  /\ normalized (D := spec_float)
       {| value := 30 |} {| width := 20; height := 0 |} = of_Z 2
  /\ B2R (normalized {| value := 30 |} {| width := 20; height := 0 |}) = 2
  /\ ~ (-1 <= B2R (normalized {| value := 30 |}
                     {| width := 20; height := 0 |})
        <= 1).
Proof.
  assert (normalized (D := R) {| value := 30 |}
            {| width := 20; height := 0 |} = 2) as E.
  { rewrite normalized_real, half_width_real. simpl. lra. }
  assert (normalized (D := spec_float) {| value := 30 |}
            {| width := 20; height := 0 |} = of_Z 2) as F
    by (vm_compute; reflexivity).
  assert (B2R (of_Z 2) = 2) as V by (apply (B2R_of_Z_small 2); lia).
  split; [simpl; lia |]. split; [exact E |].
  split; [rewrite E; lra |]. split; [exact F |].
  rewrite F, V. split; [reflexivity | lra].
Qed.

End BothSemantics.

(** ** Rounding to nearest on binary64 *)

Section NearestRounding.

Import Binary64.
Local Open Scope R_scope.

Lemma IZR_xO (p : positive) : IZR (Zpos p~0) = 2 * IZR (Zpos p).
Proof. rewrite (Pos2Z.inj_xO p), mult_IZR. reflexivity. Qed.

Lemma IZR_xI (p : positive) : IZR (Zpos p~1) = 2 * IZR (Zpos p) + 1.
Proof. rewrite (Pos2Z.inj_xI p), plus_IZR, mult_IZR. reflexivity. Qed.

(** Turning a location into a [shr_record] and back keeps what it says. *)
Lemma inbetween_record (m : Z) (l : location) (x : R) :
  inbetween m l x ->
  inbetween (shr_m (shr_record_of_loc m l))
    (loc_of_shr_record (shr_record_of_loc m l)) x.
Proof. destruct l as [| []]; exact (fun H => H). Qed.

(** One shift to the right halves the value and keeps it located. *)
Lemma inbetween_shr_1 (mrs : shr_record) (x : R) :
  (0 <= shr_m mrs)%Z ->
  inbetween (shr_m mrs) (loc_of_shr_record mrs) x ->
  inbetween (shr_m (shr_1 mrs)) (loc_of_shr_record (shr_1 mrs)) (x / 2).
Proof.
  destruct mrs as [m r s]. cbn [shr_m]. intros M H.
  destruct m as [| [p | p |] | p]; try lia;
    try pose proof (IZR_xI p) as P1; try pose proof (IZR_xO p) as P0;
    destruct r, s; cbn [shr_1 orb shr_m loc_of_shr_record inbetween] in *;
    lra.
Qed.

Lemma shr_1_nonneg (mrs : shr_record) :
  (0 <= shr_m mrs)%Z -> (0 <= shr_m (shr_1 mrs))%Z.
Proof.
  intros M. rewrite shr_1_div2 by exact M. apply Z.div_pos; lia.
Qed.

(** So do [n] shifts: the value is divided by [2^n]. *)
Lemma inbetween_shr_iter (n : positive) :
  forall (mrs : shr_record) (x : R),
    (0 <= shr_m mrs)%Z ->
    inbetween (shr_m mrs) (loc_of_shr_record mrs) x ->
    (0 <= shr_m (iter_pos shr_1 n mrs))%Z
    /\ inbetween (shr_m (iter_pos shr_1 n mrs))
         (loc_of_shr_record (iter_pos shr_1 n mrs))
         (x * powerRZ 2 (- Zpos n)).
Proof.
  induction n as [n IH | n IH |]; intros mrs x M H; cbn [iter_pos].
  - pose proof (shr_1_nonneg mrs M) as M1.
    pose proof (inbetween_shr_1 mrs x M H) as H1.
    destruct (IH _ _ M1 H1) as [M2 H2].
    destruct (IH _ _ M2 H2) as [M3 H3].
    split; [exact M3 |].
    replace (x * powerRZ 2 (- Zpos n~1))
      with (x / 2 * powerRZ 2 (- Zpos n) * powerRZ 2 (- Zpos n)); [exact H3 |].
    replace (- Zpos n~1)%Z with (-1 + (- Zpos n + - Zpos n))%Z by lia.
    rewrite !powerRZ_add by lra. simpl (powerRZ 2 (-1)). field.
  - destruct (IH _ _ M H) as [M2 H2].
    destruct (IH _ _ M2 H2) as [M3 H3].
    split; [exact M3 |].
    replace (x * powerRZ 2 (- Zpos n~0))
      with (x * powerRZ 2 (- Zpos n) * powerRZ 2 (- Zpos n)); [exact H3 |].
    replace (- Zpos n~0)%Z with (- Zpos n + - Zpos n)%Z by lia.
    rewrite !powerRZ_add by lra. ring.
  - split; [now apply shr_1_nonneg |].
    replace (x * powerRZ 2 (- Zpos 1)) with (x / 2)
      by (simpl; field).
    now apply inbetween_shr_1.
Qed.

(** What [round_nearest_even] returns for a value located by [m] and [l]. *)
Lemma round_nearest_even_spec (m : Z) (l : location) (x : R) :
  inbetween m l x ->
  IZR m <= x < IZR m + 1
  /\ (round_nearest_even m l = m \/ round_nearest_even m l = (m + 1)%Z)
  /\ Rabs (IZR (round_nearest_even m l) - x) <= / 2
  /\ (x = IZR m -> round_nearest_even m l = m).
Proof.
  intros H.
  destruct l as [| []]; cbn [inbetween round_nearest_even] in *.
  - subst x. rewrite Rminus_diag, Rabs_R0. repeat split; auto; lra.
  - split; [lra |]. destruct (Z.even m).
    + split; [auto |]. split; [| auto].
      apply Rabs_le. lra.
    + split; [auto |]. split; [| lra].
      rewrite plus_IZR. apply Rabs_le. lra.
  - split; [lra |]. split; [auto |]. split; [| auto].
    apply Rabs_le. lra.
  - split; [lra |]. split; [auto |]. split; [| lra].
    rewrite plus_IZR. apply Rabs_le. lra.
Qed.

Lemma fexp_unfold (z : Z) : fexp prec emax z = Z.max (z - 53) (-1074).
Proof. reflexivity. Qed.

(** [shr_fexp] shifts down to the exponent of the format and keeps the
    value located. *)
Lemma shr_fexp_spec (m e : Z) (l : location) (x : R) :
  (0 <= m)%Z -> inbetween m l x ->
  (e <= fexp prec emax (Zdigits2 m + e))%Z ->
  let E := fexp prec emax (Zdigits2 m + e) in
  let mrs := fst (shr_fexp prec emax m e l) in
  snd (shr_fexp prec emax m e l) = E
  /\ shr_m mrs = (m / 2 ^ (E - e))%Z
  /\ inbetween (shr_m mrs) (loc_of_shr_record mrs) (x * powerRZ 2 (e - E)).
Proof.
  intros M H N E mrs. subst mrs. unfold shr_fexp. fold E.
  unfold shr. destruct (E - e)%Z as [| n | n] eqn:D; try lia; cbn [fst snd].
  - split; [lia |]. split.
    + rewrite shr_record_of_loc_m. simpl. now rewrite Z.div_1_r.
    + replace (e - E)%Z with 0%Z by lia.
      simpl (powerRZ 2 0). rewrite Rmult_1_r. now apply inbetween_record.
  - pose proof (inbetween_record m l x H) as H0.
    assert (0 <= shr_m (shr_record_of_loc m l))%Z as M0
        by (now rewrite shr_record_of_loc_m).
    destruct (inbetween_shr_iter n _ x M0 H0) as [_ H1].
    split; [lia |]. split.
    + rewrite shr_iter_div by exact M0. now rewrite shr_record_of_loc_m.
    + replace (e - E)%Z with (- Zpos n)%Z by lia. exact H1.
Qed.

(** Nothing is shifted when the exponent is that of the format already. *)
Lemma shr_fexp_noop (m e : Z) :
  (fexp prec emax (Zdigits2 m + e) <= e)%Z ->
  shr_fexp prec emax m e loc_Exact
  = ({| shr_m := m; shr_r := false; shr_s := false |}, e).
Proof.
  intros N. unfold shr_fexp, shr.
  destruct (fexp prec emax (Zdigits2 m + e) - e)%Z as [| n | n] eqn:D;
    try reflexivity. lia.
Qed.

Lemma Zdigits2_lower (m : Z) :
  (0 < m)%Z -> (2 ^ (Zdigits2 m - 1) <= m)%Z.
Proof.
  intros M. destruct m as [| p | p]; try lia. apply digits2_pos_bounds.
Qed.

Lemma nearest_integer_intro (m r : Z) (x : R) :
  IZR m <= x < IZR m + 1 -> r = m \/ r = (m + 1)%Z ->
  Rabs (IZR r - x) <= / 2 -> nearest_integer r x.
Proof.
  intros [L U] R H z.
  assert (IZR r - x <= / 2 /\ - / 2 <= IZR r - x) as [H1 H2].
  { unfold Rabs in H. destruct (Rcase_abs _); lra. }
  destruct (Z.le_gt_cases z m) as [Zm | Zm].
  - apply IZR_le in Zm.
    rewrite (Rabs_left1 (IZR z - x)) by lra.
    destruct R as [-> | ->].
    + rewrite Rabs_left1 by lra. lra.
    + rewrite plus_IZR in *. apply Rabs_le. lra.
  - assert (m + 1 <= z)%Z as Zm' by lia. apply IZR_le in Zm'.
    rewrite plus_IZR in Zm'.
    rewrite (Rabs_pos_eq (IZR z - x)) by lra.
    destruct R as [-> | ->].
    + apply Rabs_le. lra.
    + rewrite plus_IZR in *. apply Rabs_le. lra.
Qed.

(** The mantissa [binary_round_aux] returns is an integer nearest to the
    value, at the exponent of the format. *)
Lemma binary_round_aux_spec (s : bool) (m e : Z) (l : location) (x : R) :
  (0 <= m)%Z -> inbetween m l x ->
  (e <= fexp prec emax (Zdigits2 m + e))%Z ->
  let E := fexp prec emax (Zdigits2 m + e) in
  exists r : Z,
    (0 <= r)%Z
    /\ Rabs (IZR r - x * powerRZ 2 (e - E)) <= / 2
    /\ nearest_integer r (x * powerRZ 2 (e - E))
    /\ ((-1074 < E)%Z -> IZR (2 ^ 52) <= x * powerRZ 2 (e - E))
    /\ match binary_round_aux prec emax s m e l with
       | S754_zero s' => s' = s /\ r = 0%Z
       | S754_finite s' m' e' =>
           s' = s
           /\ IZR (Zpos m') * powerRZ 2 e' = IZR r * powerRZ 2 E
           /\ valid_binary prec emax (S754_finite s' m' e') = true
       | S754_infinity s' => s' = s /\ (971 <= E)%Z
       | S754_nan => False
       end.
Proof.
  intros M H N E.
  destruct (shr_fexp_spec m e l x M H N) as (S1 & M1 & H1).
  fold E in S1, M1, H1.
  unfold binary_round_aux.
  destruct (shr_fexp prec emax m e l) as [mrs1 e1]. cbn [fst snd] in *.
  subst e1.
  set (x' := x * powerRZ 2 (e - E)) in *.
  set (m1 := shr_m mrs1) in *.
  set (r := round_nearest_even m1 (loc_of_shr_record mrs1)).
  destruct (round_nearest_even_spec m1 _ x' H1) as (B & R & A & _).
  fold r in R, A.
  assert (E = Z.max (Zdigits2 m + e - 53) (-1074))%Z as EE by reflexivity.
  pose proof (Zdigits2_bound m M) as DU.
  pose proof (Zdigits2_nonneg m) as D0.
  assert (0 <= m1 < 2 ^ 53)%Z as [M10 M11].
  { rewrite M1. split.
    - apply Z.div_pos; [lia | apply Z.pow_pos_nonneg; lia].
    - apply Z.div_lt_upper_bound; [apply Z.pow_pos_nonneg; lia |].
      rewrite <- Z.pow_add_r by lia.
      apply Z.lt_le_trans with (1 := DU). apply Z.pow_le_mono_r; lia. }
  assert ((-1074 < E)%Z -> (2 ^ 52 <= m1)%Z) as Normal.
  { intros EN. assert (E = Zdigits2 m + e - 53)%Z as E1 by lia.
    assert (0 < m)%Z as Mpos.
    { destruct m as [| p | p]; try lia. simpl in *. lia. }
    pose proof (Zdigits2_lower m Mpos) as DL.
    rewrite M1. apply Z.div_le_lower_bound; [apply Z.pow_pos_nonneg; lia |].
    rewrite <- Z.pow_add_r by lia.
    replace (E - e + 52)%Z with (Zdigits2 m - 1)%Z by lia. exact DL. }
  exists r.
  assert (0 <= r)%Z as R0 by (destruct R as [-> | ->]; lia).
  split; [exact R0 |]. split; [exact A |].
  split; [now apply (nearest_integer_intro m1) |].
  split.
  { intros EN. apply Rle_trans with (IZR m1); [| lra].
    apply IZR_le. now apply Normal. }
  assert (r <= 2 ^ 53)%Z as R1 by (destruct R as [-> | ->]; lia).
  destruct (Z.eq_dec r 0) as [Z0 | NZ].
  - rewrite Z0, shr_fexp_noop by (rewrite fexp_unfold; simpl Zdigits2; lia).
    cbn. auto.
  - destruct (Z.eq_dec r (2 ^ 53)) as [Top | NT].
    + rewrite Top.
      assert (shr_fexp prec emax (2 ^ 53) E loc_Exact
              = ({| shr_m := 4503599627370496; shr_r := false;
                    shr_s := false |}, E + 1)%Z) as S2.
      { unfold shr_fexp. change (Zdigits2 (2 ^ 53)) with 54%Z.
        rewrite fexp_unfold.
        replace (Z.max (54 + E - 53) (-1074) - E)%Z with 1%Z by lia.
        reflexivity. }
      rewrite S2. cbn [shr_m].
      destruct (E + 1 <=? emax - prec)%Z eqn:EB.
      * apply Z.leb_le in EB. unfold emax, prec in EB.
        split; [reflexivity |]. split.
        -- replace (E + 1)%Z with (1 + E)%Z by lia.
           rewrite powerRZ_add by lra.
           change (2 ^ 53)%Z with 9007199254740992%Z.
           simpl (powerRZ 2 1). lra.
        -- cbn [valid_binary]. unfold bounded, canonical_mantissa.
           change (Zpos (digits2_pos 4503599627370496)) with 53%Z.
           rewrite fexp_unfold.
           replace (Z.max (53 + (E + 1) - 53) (-1074))%Z with (E + 1)%Z by lia.
           rewrite Z.eqb_refl. simpl.
           apply Z.leb_le. unfold emax, prec. lia.
      * apply Z.leb_gt in EB. unfold emax, prec in EB.
        split; [reflexivity | lia].
    + destruct r as [| p | p] eqn:RP; try lia.
      pose proof (digits2_pos_bounds p) as [PL PU].
      assert (Zpos (digits2_pos p) <= 53)%Z as D53.
      { apply digits2_pos_le_53. lia. }
      rewrite shr_fexp_noop
        by (rewrite fexp_unfold; cbn [Zdigits2]; lia).
      cbn [shr_m].
      destruct (E <=? emax - prec)%Z eqn:EB.
      * apply Z.leb_le in EB.
        split; [reflexivity |]. split; [reflexivity |].
        cbn [valid_binary]. unfold bounded, canonical_mantissa.
        rewrite fexp_unfold.
        assert (Z.max (Zpos (digits2_pos p) + E - 53) (-1074) = E)%Z as ->.
        { destruct (Z.eq_dec E (-1074)) as [Emin | NEmin]; [lia |].
          assert (2 ^ 52 <= m1)%Z as N52 by (apply Normal; lia).
          assert (Zpos (digits2_pos p) = 53)%Z as ->.
          { apply digits2_pos_unique. change (53 - 1)%Z with 52%Z.
            split; [| lia]. fold r in RP. destruct R as [R | R]; lia. }
          lia. }
        rewrite Z.eqb_refl. simpl. now apply Z.leb_le.
      * apply Z.leb_gt in EB. unfold emax, prec in EB.
        split; [reflexivity | lia].
Qed.

Lemma powerRZ_2_pos (e : Z) : 0 < powerRZ 2 e.
Proof. apply powerRZ_lt. lra. Qed.

Lemma powerRZ_2_add (a b : Z) : powerRZ 2 (a + b) = powerRZ 2 a * powerRZ 2 b.
Proof. apply powerRZ_add. lra. Qed.

Lemma powerRZ_2_le (a b : Z) : (a <= b)%Z -> powerRZ 2 a <= powerRZ 2 b.
Proof.
  intros L. replace b with (a + (b - a))%Z by lia.
  rewrite powerRZ_2_add.
  assert (1 <= powerRZ 2 (b - a)).
  { rewrite <- IZR_pow2 by lia. apply IZR_le.
    assert (0 < 2 ^ (b - a))%Z by (apply Z.pow_pos_nonneg; lia). lia. }
  pose proof (powerRZ_2_pos a). nra.
Qed.

(** Scaling a nearest integer by a power of two gives a nearest binary64
    number. *)
Lemma nearest_scaled (r : Z) (x' : R) (E : Z) :
  (-1074 <= E)%Z ->
  nearest_integer r x' ->
  ((-1074 < E)%Z -> IZR (2 ^ 52) <= x') ->
  forall m e : Z,
    (Z.abs m < 2 ^ 53)%Z -> (-1074 <= e)%Z ->
    Rabs (IZR r * powerRZ 2 E - x' * powerRZ 2 E)
    <= Rabs (IZR m * powerRZ 2 e - x' * powerRZ 2 E).
Proof.
  intros EB N Normal m e M EL.
  pose proof (powerRZ_2_pos E) as PE.
  replace (IZR r * powerRZ 2 E - x' * powerRZ 2 E)
    with ((IZR r - x') * powerRZ 2 E) by ring.
  rewrite Rabs_mult, (Rabs_pos_eq (powerRZ 2 E)) by lra.
  destruct (Z.le_gt_cases E e) as [Ge | Lt].
  - assert (IZR m * powerRZ 2 e = IZR (m * 2 ^ (e - E)) * powerRZ 2 E) as ->.
    { rewrite mult_IZR, (IZR_pow2 (e - E)) by lia.
      rewrite Rmult_assoc, <- powerRZ_2_add. do 2 f_equal. lia. }
    replace (IZR (m * 2 ^ (e - E)) * powerRZ 2 E - x' * powerRZ 2 E)
      with ((IZR (m * 2 ^ (e - E)) - x') * powerRZ 2 E) by ring.
    rewrite Rabs_mult, (Rabs_pos_eq (powerRZ 2 E)) by lra.
    apply Rmult_le_compat_r; [lra | apply N].
  - specialize (Normal ltac:(lia)).
    pose proof (N (2 ^ 52)%Z) as N52.
    rewrite (Rabs_left1 (IZR (2 ^ 52) - x')) in N52 by lra.
    assert (IZR m * powerRZ 2 e <= IZR (2 ^ 52) * powerRZ 2 E) as C.
    { apply Rle_trans with (IZR (2 ^ 53) * powerRZ 2 e).
      - apply Rmult_le_compat_r; [pose proof (powerRZ_2_pos e); lra |].
        apply IZR_le. lia.
      - replace E with (1 + (E - 1))%Z at 1 by lia.
        rewrite powerRZ_2_add. simpl (powerRZ 2 1).
        change (2 ^ 53)%Z with (2 ^ 52 * 2)%Z. rewrite mult_IZR.
        pose proof (powerRZ_2_le e (E - 1) ltac:(lia)).
        assert (0 < IZR (2 ^ 52)) by (apply IZR_lt; lia).
        nra. }
    rewrite (Rabs_left1 (IZR m * powerRZ 2 e - x' * powerRZ 2 E)) by nra.
    nra.
Qed.

(** Half a unit in the last place, against the size of the value. *)
Lemma half_ulp_bound (r : Z) (x' : R) (E : Z) :
  (-1074 <= E)%Z ->
  Rabs (IZR r - x') <= / 2 ->
  ((-1074 < E)%Z -> IZR (2 ^ 52) <= x') ->
  Rabs (IZR r * powerRZ 2 E - x' * powerRZ 2 E)
  <= Rabs (x' * powerRZ 2 E) * powerRZ 2 (-53) + powerRZ 2 (-1075).
Proof.
  intros EB A Normal.
  pose proof (powerRZ_2_pos E) as PE.
  replace (IZR r * powerRZ 2 E - x' * powerRZ 2 E)
    with ((IZR r - x') * powerRZ 2 E) by ring.
  rewrite !Rabs_mult, (Rabs_pos_eq (powerRZ 2 E)) by lra.
  pose proof (Rabs_pos x') as X0.
  pose proof (powerRZ_2_pos (-53)) as P53.
  destruct (Z.eq_dec E (-1074)) as [-> | NE].
  - replace (powerRZ 2 (-1075)) with (/ 2 * powerRZ 2 (-1074)).
    + assert (0 <= Rabs x' * powerRZ 2 (-1074) * powerRZ 2 (-53)) by
        (apply Rmult_le_pos; [apply Rmult_le_pos |]; lra).
      nra.
    + replace (-1075)%Z with (-1 + -1074)%Z by lia.
      rewrite powerRZ_2_add. simpl (powerRZ 2 (-1)). lra.
  - specialize (Normal ltac:(lia)).
    assert (0 < IZR (2 ^ 52)) as P52 by (apply IZR_lt; lia).
    rewrite (Rabs_pos_eq x') by lra.
    pose proof (powerRZ_2_pos (-1075)).
    assert (IZR (2 ^ 52) * powerRZ 2 (-53) = / 2) as Half.
    { rewrite IZR_pow2, <- powerRZ_2_add by lia. simpl. lra. }
    assert (/ 2 <= x' * powerRZ 2 (-53)) by nra.
    nra.
Qed.

(** The value of [binary_round_aux] is nearest to the value it is given,
    unless that is too large for the format. *)
Lemma binary_round_aux_rounds (s : bool) (m e : Z) (l : location) (x : R) :
  (0 <= m)%Z -> inbetween m l x ->
  (e <= fexp prec emax (Zdigits2 m + e))%Z ->
  x * powerRZ 2 e < powerRZ 2 1023 ->
  rounds_to (IZR (cond_Zopp s 1) * (x * powerRZ 2 e))
    (binary_round_aux prec emax s m e l).
Proof.
  intros M H N Small.
  destruct (binary_round_aux_spec s m e l x M H N)
    as (r & R0 & A & Near & Normal & Res).
  set (E := fexp prec emax (Zdigits2 m + e)) in *.
  assert (-1074 <= E)%Z as EB by (unfold E; rewrite fexp_unfold; lia).
  set (x' := x * powerRZ 2 (e - E)) in *.
  assert (x * powerRZ 2 e = x' * powerRZ 2 E) as XE.
  { unfold x'. rewrite Rmult_assoc, <- powerRZ_2_add. f_equal. f_equal. lia. }
  rewrite XE in *.
  assert (forall y : spec_float,
             is_finite y = true -> valid_binary prec emax y = true ->
             B2R y = IZR (cond_Zopp s 1) * (IZR r * powerRZ 2 E) ->
             rounds_to (IZR (cond_Zopp s 1) * (x' * powerRZ 2 E)) y) as Fin.
  { intros y F V B. unfold rounds_to. rewrite B.
    split; [exact F |]. split; [exact V |].
    assert (forall a b : R,
               Rabs (IZR (cond_Zopp s 1) * a - IZR (cond_Zopp s 1) * b)
               = Rabs (a - b)) as Sg.
    { intros a b. destruct s; cbn [cond_Zopp Z.opp].
      - replace (-1 * a - -1 * b) with (- (a - b)) by ring. apply Rabs_Ropp.
      - f_equal. ring. }
    split.
    - intros mc ec MC EC.
      rewrite Sg.
      replace (IZR mc * powerRZ 2 ec)
        with (IZR (cond_Zopp s 1) * (IZR (cond_Zopp s mc) * powerRZ 2 ec))
        by (destruct s; cbn [cond_Zopp Z.opp]; rewrite ?opp_IZR; ring).
      rewrite Sg.
      apply nearest_scaled; try assumption.
      destruct s; cbn [cond_Zopp]; lia.
    - rewrite Sg.
      replace (Rabs (IZR (cond_Zopp s 1) * (x' * powerRZ 2 E)))
        with (Rabs (x' * powerRZ 2 E)).
      + now apply half_ulp_bound.
      + destruct s; cbn [cond_Zopp Z.opp].
        * replace (-1 * (x' * powerRZ 2 E)) with (- (x' * powerRZ 2 E)) by ring.
          now rewrite Rabs_Ropp.
        * f_equal. ring. }
  destruct (binary_round_aux prec emax s m e l) as [s' | s' | | s' m' e'].
  - destruct Res as [-> ->]. apply Fin; try reflexivity.
    cbn [B2R]. ring.
  - exfalso. destruct Res as [_ Big].
    specialize (Normal ltac:(lia)).
    pose proof (powerRZ_2_le 971 E Big) as P.
    assert (0 < IZR (2 ^ 52)) as P52 by (apply IZR_lt; lia).
    assert (powerRZ 2 1023 = IZR (2 ^ 52) * powerRZ 2 971) as Top.
    { rewrite IZR_pow2, <- powerRZ_2_add by lia. reflexivity. }
    pose proof (powerRZ_2_pos 971). nra.
  - destruct Res.
  - destruct Res as (-> & Val & V). apply Fin; try assumption; try reflexivity.
    cbn [B2R]. rewrite <- Val.
    destruct s; cbn [cond_Zopp]; rewrite ?opp_IZR; ring.
Qed.

End NearestRounding.

(** ** The binary64 operations round to nearest *)

Section RoundedOperations.

Import Binary64.
Local Open Scope R_scope.

Lemma rounds_to_eq (x x' : R) (y : spec_float) :
  x = x' -> rounds_to x y -> rounds_to x' y.
Proof. now intros ->. Qed.

(** A binary64 number is nearest to itself. *)
Lemma rounds_to_self (y : spec_float) :
  is_finite y = true -> valid_binary prec emax y = true ->
  rounds_to (B2R y) y.
Proof.
  intros F V. unfold rounds_to. rewrite Rminus_diag, Rabs_R0.
  split; [exact F |]. split; [exact V |]. split.
  - intros m e _ _. apply Rabs_pos.
  - pose proof (Rabs_pos (B2R y)). pose proof (powerRZ_2_pos (-53)).
    pose proof (powerRZ_2_pos (-1075)). nra.
Qed.

Lemma rounds_to_zero (s : bool) : rounds_to 0 (S754_zero s).
Proof. now apply (rounds_to_self (S754_zero s)). Qed.

Lemma B2R_sign (s : bool) (m : positive) (e : Z) :
  B2R (S754_finite s m e)
  = IZR (cond_Zopp s 1) * (IZR (Zpos m) * powerRZ 2 e).
Proof.
  cbn [B2R]. destruct s; cbn [cond_Zopp]; rewrite ?opp_IZR; ring.
Qed.

Lemma cond_Zopp_xorb (a b : bool) :
  IZR (cond_Zopp (xorb a b) 1) = IZR (cond_Zopp a 1) * IZR (cond_Zopp b 1).
Proof. destruct a, b; cbn [xorb cond_Zopp]; rewrite ?opp_IZR; ring. Qed.

Lemma Rabs_sign (s : bool) (x : R) : Rabs (IZR (cond_Zopp s 1) * x) = Rabs x.
Proof.
  destruct s; cbn [cond_Zopp]; rewrite ?opp_IZR.
  - replace (- (1) * x) with (- x) by ring. apply Rabs_Ropp.
  - now rewrite Rmult_1_l.
Qed.

(** [shl_align] changes the exponent and keeps the value. *)
Lemma shl_align_value (m : positive) (e e' : Z) :
  (e' <= e)%Z ->
  snd (shl_align m e e') = e'
  /\ Zpos (fst (shl_align m e e')) = (Zpos m * 2 ^ (e - e'))%Z
  /\ Zpos (digits2_pos (fst (shl_align m e e')))
     = (Zpos (digits2_pos m) + (e - e'))%Z.
Proof.
  intros L. unfold shl_align.
  destruct (e' - e)%Z as [| d | d] eqn:D; try lia; cbn [fst snd].
  - replace (e - e')%Z with 0%Z by lia. simpl. lia.
  - replace (e - e')%Z with (Zpos d) by lia.
    rewrite Zpos_iter_xO, digits2_pos_iter_xO. lia.
Qed.

(** [binary_round] rounds to nearest. *)
Lemma binary_round_rounds (s : bool) (m : positive) (e : Z) :
  IZR (Zpos m) * powerRZ 2 e < powerRZ 2 1023 ->
  rounds_to (IZR (cond_Zopp s 1) * (IZR (Zpos m) * powerRZ 2 e))
    (binary_round prec emax s m e).
Proof.
  intros Small. unfold binary_round.
  set (fe := fexp prec emax (Zpos (digits2_pos m) + e)).
  destruct (Z.le_gt_cases fe e) as [Le | Gt].
  - destruct (shl_align_value m e fe Le) as (E1 & M1 & D1).
    destruct (shl_align m e fe) as [mz ez]. cbn [fst snd] in *. subst ez.
    assert (IZR (Zpos mz) * powerRZ 2 fe = IZR (Zpos m) * powerRZ 2 e) as V.
    { rewrite M1, mult_IZR, IZR_pow2, Rmult_assoc, <- powerRZ_2_add by lia.
      do 2 f_equal. lia. }
    rewrite <- V in *.
    apply binary_round_aux_rounds; try exact Small; try lia.
    + reflexivity.
    + cbn [Zdigits2]. rewrite D1.
      replace (Zpos (digits2_pos m) + (e - fe) + fe)%Z
        with (Zpos (digits2_pos m) + e)%Z by lia.
      fold fe. lia.
  - unfold shl_align.
    destruct (fe - e)%Z as [| d | d] eqn:D; try lia.
    apply binary_round_aux_rounds; try exact Small; try lia.
    + reflexivity.
    + cbn [Zdigits2]. fold fe. lia.
Qed.

(** [binary_normalize] rounds to nearest. *)
Lemma binary_normalize_rounds (z e : Z) (sz : bool) :
  Rabs (IZR z * powerRZ 2 e) < powerRZ 2 1023 ->
  rounds_to (IZR z * powerRZ 2 e) (binary_normalize prec emax z e sz).
Proof.
  intros Small. destruct z as [| p | p]; cbn [binary_normalize].
  - rewrite Rmult_0_l. apply rounds_to_zero.
  - rewrite Rabs_pos_eq in Small
      by (apply Rmult_le_pos;
          [apply IZR_le; lia | pose proof (powerRZ_2_pos e); lra]).
    refine (rounds_to_eq _ _ _ _ (binary_round_rounds false p e Small)).
    cbn [cond_Zopp]. ring.
  - change (Zneg p) with (- Zpos p)%Z in *.
    rewrite opp_IZR in *.
    replace (- IZR (Zpos p) * powerRZ 2 e)
      with (- (IZR (Zpos p) * powerRZ 2 e)) in * by ring.
    rewrite Rabs_Ropp in Small.
    rewrite Rabs_pos_eq in Small
      by (apply Rmult_le_pos;
          [apply IZR_le; lia | pose proof (powerRZ_2_pos e); lra]).
    refine (rounds_to_eq _ _ _ _ (binary_round_rounds true p e Small)).
    cbn [cond_Zopp]. rewrite opp_IZR. ring.
Qed.

(** The conversion of an integer rounds to nearest. *)
Lemma of_Z_rounds (z : Z) :
  Rabs (IZR z) < powerRZ 2 1023 -> rounds_to (IZR z) (of_Z z).
Proof.
  intros Small. unfold of_Z.
  refine (rounds_to_eq _ _ _ _ (binary_normalize_rounds z 0 false _)).
  - simpl. ring.
  - simpl (powerRZ 2 0). now rewrite Rmult_1_r.
Qed.

(** The sum of two finite values, on their common exponent. *)
Lemma aligned_sum (sx sy : bool) (mx my : positive) (ex ey : Z) :
  let ez := Z.min ex ey in
  IZR (cond_Zopp sx (Zpos (fst (shl_align mx ex ez)))
       + cond_Zopp sy (Zpos (fst (shl_align my ey ez))))
  * powerRZ 2 ez
  = B2R (S754_finite sx mx ex) + B2R (S754_finite sy my ey).
Proof.
  intros ez.
  destruct (shl_align_value mx ex ez ltac:(lia)) as (_ & MX & _).
  destruct (shl_align_value my ey ez ltac:(lia)) as (_ & MY & _).
  assert (forall (s : bool) (m : positive) (e : Z) (m' : positive),
             (ez <= e)%Z -> Zpos m' = (Zpos m * 2 ^ (e - ez))%Z ->
             IZR (cond_Zopp s (Zpos m')) * powerRZ 2 ez
             = B2R (S754_finite s m e)) as A.
  { intros s m e m' L M. cbn [B2R].
    assert (powerRZ 2 e = IZR (2 ^ (e - ez)) * powerRZ 2 ez) as ->.
    { rewrite IZR_pow2 by lia. rewrite <- powerRZ_2_add. f_equal. lia. }
    rewrite <- Rmult_assoc, <- mult_IZR.
    f_equal. f_equal. destruct s; cbn [cond_Zopp]; lia. }
  rewrite plus_IZR, Rmult_plus_distr_r.
  rewrite (A sx mx ex), (A sy my ey) by (assumption || lia).
  reflexivity.
Qed.

(** The sum rounds to nearest. *)
Lemma SFadd_rounds (x y : spec_float) :
  is_finite x = true -> valid_binary prec emax x = true ->
  is_finite y = true -> valid_binary prec emax y = true ->
  Rabs (B2R x + B2R y) < powerRZ 2 1023 ->
  rounds_to (B2R x + B2R y) (SFadd prec emax x y).
Proof.
  intros FX VX FY VY Small.
  destruct x as [sx | sx | | sx mx ex], y as [sy | sy | | sy my ey];
    try discriminate FX; try discriminate FY.
  - cbn [B2R]. rewrite Rplus_0_l.
    destruct sx, sy; apply rounds_to_zero.
  - cbn [SFadd B2R]. rewrite Rplus_0_l. now apply rounds_to_self.
  - cbn [SFadd]. change (B2R (S754_zero sy)) with 0. rewrite Rplus_0_r.
    now apply rounds_to_self.
  - cbn [SFadd]. rewrite <- aligned_sum in *.
    now apply binary_normalize_rounds.
Qed.

Lemma B2R_SFopp (y : spec_float) : B2R (SFopp y) = - B2R y.
Proof.
  destruct y as [s | s | | s m e]; cbn [SFopp B2R]; try lra.
  destruct s; cbn [negb cond_Zopp]; rewrite ?opp_IZR; ring.
Qed.

(** The difference rounds to nearest. *)
Lemma SFsub_rounds (x y : spec_float) :
  is_finite x = true -> valid_binary prec emax x = true ->
  is_finite y = true -> valid_binary prec emax y = true ->
  Rabs (B2R x - B2R y) < powerRZ 2 1023 ->
  rounds_to (B2R x - B2R y) (SFsub prec emax x y).
Proof.
  intros FX VX FY VY Small.
  destruct x as [sx | sx | | sx mx ex], y as [sy | sy | | sy my ey];
    try discriminate FX; try discriminate FY.
  - cbn [B2R]. rewrite Rminus_0_r.
    destruct sx, sy; apply rounds_to_zero.
  - cbn [SFsub]. change (B2R (S754_zero sx)) with 0.
    replace (0 - B2R (S754_finite sy my ey))
      with (B2R (S754_finite (negb sy) my ey))
      by (change (S754_finite (negb sy) my ey)
            with (SFopp (S754_finite sy my ey));
          rewrite B2R_SFopp; lra).
    now apply rounds_to_self.
  - cbn [SFsub]. change (B2R (S754_zero sy)) with 0. rewrite Rminus_0_r.
    now apply rounds_to_self.
  - cbn [SFsub].
    set (ez := Z.min ex ey) in *.
    assert (IZR (cond_Zopp sx (Zpos (fst (shl_align mx ex ez)))
                 - cond_Zopp sy (Zpos (fst (shl_align my ey ez))))
            * powerRZ 2 ez
            = B2R (S754_finite sx mx ex) - B2R (S754_finite sy my ey)) as V.
    { pose proof (aligned_sum sx (negb sy) mx my ex ey) as A.
      cbv zeta in A. fold ez in A.
      change (S754_finite (negb sy) my ey)
        with (SFopp (S754_finite sy my ey)) in A.
      rewrite B2R_SFopp in A. unfold Rminus. rewrite <- A.
      f_equal. f_equal. destruct sy; cbn [negb cond_Zopp]; lia. }
    rewrite <- V in *.
    now apply binary_normalize_rounds.
Qed.

(** What [valid_binary] says of a finite number: the exponent is the one of
    the format for the size of the mantissa. *)
Lemma valid_finite (s : bool) (m : positive) (e : Z) :
  valid_binary prec emax (S754_finite s m e) = true ->
  Z.max (Zpos (digits2_pos m) + e - 53) (-1074) = e /\ (e <= 971)%Z.
Proof.
  cbn [valid_binary]. unfold bounded, canonical_mantissa.
  rewrite fexp_unfold. intros V.
  apply andb_true_iff in V. destruct V as [C B].
  apply Z.eqb_eq in C. apply Z.leb_le in B. unfold emax, prec in B. lia.
Qed.

(** The size of a product of mantissas. *)
Lemma digits2_pos_mul (a b : positive) :
  (Zpos (digits2_pos a) + Zpos (digits2_pos b) - 1
   <= Zpos (digits2_pos (a * b)))%Z.
Proof.
  pose proof (digits2_pos_bounds a) as [LA _].
  pose proof (digits2_pos_bounds b) as [LB _].
  pose proof (digits2_pos_bounds (a * b)) as [_ U].
  assert (2 ^ (Zpos (digits2_pos a) - 1 + (Zpos (digits2_pos b) - 1))
          < 2 ^ Zpos (digits2_pos (a * b)))%Z as P.
  { rewrite Z.pow_add_r by lia. rewrite Pos2Z.inj_mul in U.
    assert (0 < 2 ^ (Zpos (digits2_pos a) - 1))%Z
      by (apply Z.pow_pos_nonneg; lia).
    assert (0 < 2 ^ (Zpos (digits2_pos b) - 1))%Z
      by (apply Z.pow_pos_nonneg; lia).
    nia. }
  apply Z.pow_lt_mono_r_iff in P; lia.
Qed.

(** The product rounds to nearest. *)
Lemma SFmul_rounds (x y : spec_float) :
  is_finite x = true -> valid_binary prec emax x = true ->
  is_finite y = true -> valid_binary prec emax y = true ->
  Rabs (B2R x * B2R y) < powerRZ 2 1023 ->
  rounds_to (B2R x * B2R y) (SFmul prec emax x y).
Proof.
  intros FX VX FY VY Small.
  destruct x as [sx | sx | | sx mx ex], y as [sy | sy | | sy my ey];
    try discriminate FX; try discriminate FY;
    try (cbn [SFmul B2R]; rewrite ?Rmult_0_l, ?Rmult_0_r;
         apply rounds_to_zero).
  destruct (valid_finite _ _ _ VX) as [CX _].
  destruct (valid_finite _ _ _ VY) as [CY _].
  cbn [SFmul].
  rewrite !B2R_sign in *.
  assert (IZR (cond_Zopp sx 1) * (IZR (Zpos mx) * powerRZ 2 ex)
          * (IZR (cond_Zopp sy 1) * (IZR (Zpos my) * powerRZ 2 ey))
          = IZR (cond_Zopp (xorb sx sy) 1)
            * (IZR (Zpos (mx * my)) * powerRZ 2 (ex + ey))) as V.
  { rewrite cond_Zopp_xorb, powerRZ_2_add, Pos2Z.inj_mul, mult_IZR. ring. }
  rewrite V in *. rewrite Rabs_sign in Small.
  rewrite Rabs_pos_eq in Small
    by (apply Rmult_le_pos;
        [apply IZR_le; lia | pose proof (powerRZ_2_pos (ex + ey)); lra]).
  apply binary_round_aux_rounds; try exact Small; try lia.
  - reflexivity.
  - cbn [Zdigits2]. rewrite fexp_unfold.
    pose proof (digits2_pos_mul mx my). lia.
Qed.

(** The location of a quotient, from its remainder. *)
Lemma new_location_inbetween (d q r : Z) :
  (0 < d)%Z -> (0 <= r < d)%Z ->
  inbetween q (new_location d r) (IZR (q * d + r) / IZR d).
Proof.
  intros D [R0 R1].
  assert (0 < IZR d) as Dpos by (apply IZR_lt; lia).
  assert (IZR (q * d + r) / IZR d = IZR q + IZR r / IZR d) as ->.
  { rewrite plus_IZR, mult_IZR. field. lra. }
  assert (forall a b : R, a * IZR d < b * IZR d -> a < b) as Cancel.
  { intros a b H. apply Rmult_lt_reg_r with (IZR d); assumption. }
  assert (IZR r / IZR d * IZR d = IZR r) as RD by (field; lra).
  assert (0 < IZR r -> 0 < IZR r / IZR d) as Pos.
  { intros P. apply Rdiv_lt_0_compat; assumption. }
  assert (IZR r / IZR d < 1) as Lt1.
  { apply Cancel. rewrite RD. apply IZR_lt in R1. lra. }
  unfold new_location, new_location_even, new_location_odd.
  destruct (Z.eq_dec r 0) as [-> | NZ].
  - destruct (Z.even d); change (0 =? 0)%Z with true; cbn [inbetween];
      unfold Rdiv; rewrite Rmult_0_l; lra.
  - assert (0 < IZR r) as Rpos by (apply IZR_lt; lia).
    specialize (Pos Rpos).
    apply Z.eqb_neq in NZ.
    destruct (Z.even d) eqn:Ev; rewrite NZ.
    + destruct (Z.compare_spec (2 * r) d) as [E | L | G]; cbn [inbetween].
      * assert (IZR r / IZR d = / 2) as ->; [| lra].
        rewrite <- E, mult_IZR. field. lra.
      * apply IZR_lt in L. rewrite mult_IZR in L.
        assert (IZR r / IZR d < / 2) by (apply Cancel; rewrite RD; lra).
        lra.
      * apply IZR_lt in G. rewrite mult_IZR in G.
        assert (/ 2 < IZR r / IZR d) by (apply Cancel; rewrite RD; lra).
        lra.
    + assert (2 * r <> d)%Z as Odd.
      { intros E. rewrite <- E, Z.even_mul in Ev. discriminate Ev. }
      destruct (Z.compare_spec (2 * r + 1) d) as [E | L | G]; cbn [inbetween].
      * assert (2 * r < d)%Z as L by lia.
        apply IZR_lt in L. rewrite mult_IZR in L.
        assert (IZR r / IZR d < / 2) by (apply Cancel; rewrite RD; lra).
        lra.
      * assert (2 * r < d)%Z as L' by lia.
        apply IZR_lt in L'. rewrite mult_IZR in L'.
        assert (IZR r / IZR d < / 2) by (apply Cancel; rewrite RD; lra).
        lra.
      * assert (d < 2 * r)%Z as G' by lia.
        apply IZR_lt in G'. rewrite mult_IZR in G'.
        assert (/ 2 < IZR r / IZR d) by (apply Cancel; rewrite RD; lra).
        lra.
Qed.

(** The quotient by a nonzero number rounds to nearest. *)
Lemma SFdiv_rounds (x y : spec_float) :
  is_finite x = true -> valid_binary prec emax x = true ->
  is_finite y = true -> valid_binary prec emax y = true ->
  is_nonzero y = true ->
  Rabs (B2R x / B2R y) < powerRZ 2 1023 ->
  rounds_to (B2R x / B2R y) (SFdiv prec emax x y).
Proof.
  intros FX VX FY VY NZ Small.
  destruct x as [sx | sx | | sx mx ex], y as [sy | sy | | sy my ey];
    try discriminate FX; try discriminate FY; try discriminate NZ.
  - cbn [SFdiv B2R]. unfold Rdiv. rewrite Rmult_0_l. apply rounds_to_zero.
  - destruct (valid_finite _ _ _ VX) as [CX _].
    destruct (valid_finite _ _ _ VY) as [CY _].
    pose proof (digits2_pos_bounds mx) as [LX UX].
    pose proof (digits2_pos_bounds my) as [LY UY].
    set (dx := Zpos (digits2_pos mx)) in *.
    set (dy := Zpos (digits2_pos my)) in *.
    assert (0 < dx)%Z as DX0 by (unfold dx; lia).
    assert (0 < dy)%Z as DY0 by (unfold dy; lia).
    cbn [SFdiv]. unfold SFdiv_core_binary. cbn [Zdigits2]. fold dx dy.
    rewrite fexp_unfold.
    set (e' := Z.min (Z.max (dx + ex - (dy + ey) - 53) (-1074)) (ex - ey)).
    set (sh := (ex - ey - e')%Z).
    assert (0 <= sh)%Z as S0 by (unfold sh, e'; lia).
    set (m' := match sh with
               | 0%Z => Zpos mx
               | Zpos _ => Z.shiftl (Zpos mx) sh
               | Zneg _ => 0%Z
               end).
    assert (m' = Zpos mx * 2 ^ sh)%Z as M'.
    { unfold m'. destruct sh as [| p | p] eqn:SH; try lia.
      now rewrite Z.shiftl_mul_pow2 by lia. }
    clearbody m'.
    assert (0 < 2 ^ sh)%Z as P0 by (apply Z.pow_pos_nonneg; lia).
    destruct (Z.div_eucl m' (Zpos my)) as [q r] eqn:DE.
    pose proof (Z_div_mod m' (Zpos my) ltac:(lia)) as DM.
    rewrite DE in DM. destruct DM as [DM RR].
    assert (0 <= q)%Z as Q0.
    { apply (div_eucl_quotient_nonneg m' (Zpos my) q r); try lia.
      exact DE. }
    assert (inbetween q (new_location (Zpos my) r)
              (IZR m' / IZR (Zpos my))) as IB.
    { rewrite DM, (Z.mul_comm (Zpos my) q).
      apply new_location_inbetween; lia. }
    assert (IZR (cond_Zopp (xorb sx sy) 1)
            * (IZR m' / IZR (Zpos my) * powerRZ 2 e')
            = B2R (S754_finite sx mx ex) / B2R (S754_finite sy my ey)) as V.
    { rewrite !B2R_sign, M', mult_IZR, IZR_pow2 by lia.
      assert (powerRZ 2 ex = powerRZ 2 sh * powerRZ 2 e' * powerRZ 2 ey) as ->.
      { rewrite <- !powerRZ_2_add. f_equal. unfold sh. lia. }
      assert (0 < IZR (Zpos my)) by (apply IZR_lt; lia).
      pose proof (powerRZ_2_pos ey).
      destruct sx, sy; cbn [xorb cond_Zopp]; rewrite ?opp_IZR;
        field; repeat split; lra. }
    rewrite <- V in *. rewrite Rabs_sign in Small.
    assert (0 <= IZR m' / IZR (Zpos my) * powerRZ 2 e') as NN.
    { apply Rmult_le_pos; [| pose proof (powerRZ_2_pos e'); lra].
      apply Rmult_le_pos; [apply IZR_le; lia |].
      left. apply Rinv_0_lt_compat. apply IZR_lt. lia. }
    rewrite Rabs_pos_eq in Small by exact NN.
    apply binary_round_aux_rounds; try assumption.
    rewrite fexp_unfold.
    destruct (Z.eq_dec e' (-1074)) as [-> | NE]; [lia |].
    destruct (Z.lt_ge_cases e' (-1074)) as [Low | High]; [lia |].
    assert (e' = dx + ex - (dy + ey) - 53)%Z as E' by (unfold e' in *; lia).
    assert (sh = 53 - dx + dy)%Z as SH by (unfold sh; lia).
    assert (2 ^ 52 <= q)%Z as Q52.
    { replace q with (m' / Zpos my)%Z by (unfold Z.div; now rewrite DE).
      apply Z.div_le_lower_bound; [lia |].
      rewrite M', SH.
      replace (53 - dx + dy)%Z with ((52 + dy) - (dx - 1))%Z by lia.
      apply Z.le_trans with (2 ^ 52 * 2 ^ dy)%Z.
      - assert (0 < 2 ^ 52)%Z by lia. nia.
      - rewrite <- Z.pow_add_r by lia.
        replace (52 + dy)%Z with ((dx - 1) + (52 + dy - (dx - 1)))%Z
          at 1 by lia.
        rewrite Z.pow_add_r by lia.
        assert (0 < 2 ^ (52 + dy - (dx - 1)))%Z
          by (apply Z.pow_pos_nonneg; lia).
        nia. }
    assert (53 <= Zdigits2 q)%Z.
    { pose proof (Zdigits2_bound q Q0) as B.
      assert (2 ^ 52 < 2 ^ Zdigits2 q)%Z as P by lia.
      apply Z.pow_lt_mono_r_iff in P; try lia.
      apply Zdigits2_nonneg. }
    lia.
Qed.

End RoundedOperations.

(** ** Normalized coordinates on binary64 *)

Section NormalizedRange.

Import Binary64.
Local Open Scope R_scope.

Lemma rounds_to_finite (x : R) (y : spec_float) :
  rounds_to x y -> is_finite y = true.
Proof. now intros (F & _). Qed.

Lemma rounds_to_valid (x : R) (y : spec_float) :
  rounds_to x y -> valid_binary prec emax y = true.
Proof. now intros (_ & V & _). Qed.

Lemma rounds_to_error (x : R) (y : spec_float) :
  rounds_to x y ->
  Rabs (B2R y - x) <= Rabs x * powerRZ 2 (-53) + powerRZ 2 (-1075).
Proof. now intros (_ & _ & _ & E). Qed.

(** A nearest number does not cross a number of the format. *)
Lemma rounds_to_le (x : R) (y : spec_float) (m e : Z) :
  rounds_to x y -> (Z.abs m < 2 ^ 53)%Z -> (-1074 <= e)%Z ->
  x <= IZR m * powerRZ 2 e -> B2R y <= IZR m * powerRZ 2 e.
Proof.
  intros (_ & _ & N & _) M E L. specialize (N m e M E).
  unfold Rabs in N.
  destruct (Rcase_abs _), (Rcase_abs _); lra.
Qed.

(** Nor from above. *)
Lemma rounds_to_ge (x : R) (y : spec_float) (m e : Z) :
  rounds_to x y -> (Z.abs m < 2 ^ 53)%Z -> (-1074 <= e)%Z ->
  IZR m * powerRZ 2 e <= x -> IZR m * powerRZ 2 e <= B2R y.
Proof.
  intros (_ & _ & N & _) M E L. specialize (N m e M E).
  unfold Rabs in N.
  destruct (Rcase_abs _), (Rcase_abs _); lra.
Qed.

Lemma rounds_to_le_Z (x : R) (y : spec_float) (z : Z) :
  rounds_to x y -> (Z.abs z < 2 ^ 53)%Z -> x <= IZR z -> B2R y <= IZR z.
Proof.
  intros R Z L. replace (IZR z) with (IZR z * powerRZ 2 0) in * by (simpl; ring).
  apply (rounds_to_le x); try assumption. lia.
Qed.

Lemma rounds_to_ge_Z (x : R) (y : spec_float) (z : Z) :
  rounds_to x y -> (Z.abs z < 2 ^ 53)%Z -> IZR z <= x -> IZR z <= B2R y.
Proof.
  intros R Z L. replace (IZR z) with (IZR z * powerRZ 2 0) in * by (simpl; ring).
  apply (rounds_to_ge x); try assumption. lia.
Qed.

(** A value of the format is returned as it is. *)
Lemma rounds_to_exact (x : R) (y : spec_float) (m e : Z) :
  rounds_to x y -> (Z.abs m < 2 ^ 53)%Z -> (-1074 <= e)%Z ->
  x = IZR m * powerRZ 2 e -> B2R y = x.
Proof.
  intros R M E ->. apply Rle_antisym.
  - apply (rounds_to_le _ _ _ _ R M E). lra.
  - apply (rounds_to_ge _ _ _ _ R M E). lra.
Qed.

(** A finite binary64 value in canonical form is a 53-bit integer times a
    power of two. *)
Lemma valid_competitor (y : spec_float) :
  is_finite y = true -> valid_binary prec emax y = true ->
  exists m e : Z,
    (Z.abs m < 2 ^ 53)%Z /\ (-1074 <= e)%Z /\ B2R y = IZR m * powerRZ 2 e.
Proof.
  intros F V. destruct y as [s | s | | s m e]; try discriminate F.
  - exists 0%Z, 0%Z. simpl. repeat split; try lia. ring.
  - destruct (valid_finite _ _ _ V) as [C _].
    pose proof (digits2_pos_bounds m) as [_ U].
    exists (cond_Zopp s (Zpos m)), e. repeat split; try lia.
    assert (2 ^ Zpos (digits2_pos m) <= 2 ^ 53)%Z
      by (apply Z.pow_le_mono_r; lia).
    destruct s; cbn [cond_Zopp]; lia.
Qed.

(** Rounding to nearest keeps the order. *)
Lemma rounds_to_monotone (x1 x2 : R) (y1 y2 : spec_float) :
  rounds_to x1 y1 -> rounds_to x2 y2 -> x1 < x2 -> B2R y1 <= B2R y2.
Proof.
  intros R1 R2 L.
  destruct (valid_competitor y1 (rounds_to_finite _ _ R1)
              (rounds_to_valid _ _ R1)) as (m1 & e1 & M1 & E1 & V1).
  destruct (valid_competitor y2 (rounds_to_finite _ _ R2)
              (rounds_to_valid _ _ R2)) as (m2 & e2 & M2 & E2 & V2).
  destruct R1 as (_ & _ & N1 & _). destruct R2 as (_ & _ & N2 & _).
  specialize (N1 m2 e2 M2 E2). specialize (N2 m1 e1 M1 E1).
  rewrite <- V1 in N2. rewrite <- V2 in N1.
  unfold Rabs in N1, N2.
  destruct (Rcase_abs _), (Rcase_abs _), (Rcase_abs _), (Rcase_abs _); lra.
Qed.

(** Values of moderate size are far below the largest binary64 number. *)
Lemma below_top (x : R) (k : Z) :
  (k < 1023)%Z -> Rabs x <= powerRZ 2 k -> Rabs x < powerRZ 2 1023.
Proof.
  intros K B. apply Rle_lt_trans with (1 := B).
  apply Rle_lt_trans with (powerRZ 2 1022); [apply powerRZ_2_le; lia |].
  replace 1023%Z with (1 + 1022)%Z by lia. rewrite powerRZ_2_add.
  pose proof (powerRZ_2_pos 1022). simpl (powerRZ 2 1). lra.
Qed.

(** A full mantissa with an exponent in range is in canonical form. *)
Lemma canonical_valid (s : bool) (m : positive) (e : Z) :
  digits2_pos m = 53%positive -> (-1074 <= e <= 971)%Z ->
  valid_binary prec emax (S754_finite s m e) = true.
Proof.
  intros D E. cbn [valid_binary]. unfold bounded, canonical_mantissa.
  rewrite fexp_unfold, D.
  replace (Z.max (53 + e - 53) (-1074)) with e by lia.
  rewrite Z.eqb_refl. apply Z.leb_le. unfold emax, prec. lia.
Qed.

(** So are the values of [uint64_t]. *)
Lemma u64_below_top (z : Z) : is_u64 z -> Rabs (IZR z) < powerRZ 2 1023.
Proof.
  intros [Z0 Z1]. apply (below_top _ 64); [lia |].
  rewrite Rabs_pos_eq by (apply IZR_le; lia).
  rewrite <- IZR_pow2 by lia. apply IZR_le. unfold u64_max in Z1. lia.
Qed.

Lemma B2R_one : B2R (of_Z 1) = 1.
Proof. apply (B2R_of_Z_small 1). lia. Qed.

(** What [half_width] is, for a positive width: half the converted width,
    a normal number. *)
Lemma half_width_halves (size : ImageSize) :
  (0 < width size <= u64_max)%Z ->
  is_finite (half_width size) = true
  /\ valid_binary prec emax (half_width size) = true
  /\ is_nonzero (half_width size) = true
  /\ B2R (half_width size) = B2R (of_Z (width size)) / 2.
Proof.
  intros W. destruct (of_Z_u64 (width size) W) as (m & e & E & Dm & B).
  unfold half_width. cbn [d_div d_of_u64 d_two b64_arith].
  rewrite E, halve_canonical by (try assumption; lia).
  repeat split.
  - apply canonical_valid; [assumption | lia].
  - cbn [B2R]. rewrite powerRZ_2_pred. lra.
Qed.

(** The steps of [normalized], each rounded to nearest. *)
Lemma normalized_rounds (p : PixelIndex) (size : ImageSize) :
  (0 < width size <= u64_max)%Z -> is_u64 (value p) ->
  let W := of_Z (width size) in
  let V := of_Z (value p) in
  let Q := SFdiv prec emax V (half_width size) in
  rounds_to (IZR (width size)) W
  /\ rounds_to (IZR (value p)) V
  /\ 1 <= B2R W
  /\ 0 <= B2R V <= powerRZ 2 64
  /\ rounds_to (B2R V / (B2R W / 2)) Q
  /\ rounds_to (B2R Q - 1) (normalized p size).
Proof.
  intros W P Wd Vd Q.
  assert (rounds_to (IZR (width size)) Wd) as RW
      by (apply of_Z_rounds, u64_below_top; unfold is_u64; lia).
  assert (rounds_to (IZR (value p)) Vd) as RV
      by (apply of_Z_rounds, u64_below_top; exact P).
  assert (1 <= B2R Wd) as W1.
  { apply (rounds_to_ge_Z _ _ 1 RW); [lia |]. apply IZR_le. lia. }
  assert (0 <= B2R Vd <= powerRZ 2 64) as [V0 V1].
  { destruct P as [P0 P1]. split.
    - apply (rounds_to_ge_Z _ _ 0 RV); [lia |]. apply IZR_le. lia.
    - replace (powerRZ 2 64) with (IZR 1 * powerRZ 2 64) by ring.
      apply (rounds_to_le _ _ 1 64 RV); try lia.
      rewrite Rmult_1_l, <- IZR_pow2 by lia. apply IZR_le.
      unfold u64_max in P1. lia. }
  destruct (half_width_halves size W) as (HF & HV & HN & HB).
  fold Wd in HB.
  assert (rounds_to (B2R Vd / (B2R Wd / 2)) Q) as RQ.
  { rewrite <- HB. apply SFdiv_rounds; try assumption.
    - exact (rounds_to_finite _ _ RV).
    - exact (rounds_to_valid _ _ RV).
    - rewrite HB. apply (below_top _ 65); [lia |].
      assert (0 <= B2R Vd / (B2R Wd / 2) <= 2 * powerRZ 2 64) as [A B].
      { assert (0 < / (B2R Wd / 2) <= 2) as [I0 I1].
        { split; [apply Rinv_0_lt_compat; lra |].
          replace 2 with (/ (/ 2)) at 2 by field.
          apply Rinv_le_contravar; lra. }
        unfold Rdiv at 1 3. split; [apply Rmult_le_pos; lra |].
        pose proof (powerRZ_2_pos 64). nra. }
      rewrite Rabs_pos_eq by exact A.
      replace 65%Z with (1 + 64)%Z by lia. rewrite powerRZ_2_add.
      simpl (powerRZ 2 1). lra. }
  split; [exact RW |]. split; [exact RV |]. split; [exact W1 |].
  split; [split; assumption |]. split; [exact RQ |].
  change (normalized p size) with (SFsub prec emax Q (of_Z 1)).
  assert (0 <= B2R Q <= powerRZ 2 65) as [Q0 Q1].
  { assert (0 <= B2R Vd / (B2R Wd / 2) <= powerRZ 2 65) as [A B].
    { assert (0 < / (B2R Wd / 2) <= 2) as [I0 I1].
      { split; [apply Rinv_0_lt_compat; lra |].
        replace 2 with (/ (/ 2)) at 2 by field.
        apply Rinv_le_contravar; lra. }
      unfold Rdiv at 1 3. split; [apply Rmult_le_pos; lra |].
      replace 65%Z with (1 + 64)%Z by lia. rewrite powerRZ_2_add.
      simpl (powerRZ 2 1). pose proof (powerRZ_2_pos 64). nra. }
    split.
    - apply (rounds_to_ge_Z _ _ 0 RQ); [lia | exact A].
    - replace (powerRZ 2 65) with (IZR 1 * powerRZ 2 65) by ring.
      apply (rounds_to_le _ _ 1 65 RQ); try lia. lra. }
  refine (rounds_to_eq _ _ _ _ (SFsub_rounds Q (of_Z 1) _ _ _ _ _)).
  - now rewrite B2R_one.
  - exact (rounds_to_finite _ _ RQ).
  - exact (rounds_to_valid _ _ RQ).
  - reflexivity.
  - reflexivity.
  - rewrite B2R_one. apply (below_top _ 66); [lia |].
    replace 66%Z with (1 + 65)%Z by lia. rewrite powerRZ_2_add.
    simpl (powerRZ 2 1).
    pose proof (powerRZ_2_le 0 65 ltac:(lia)) as P65. simpl (powerRZ 2 0) in P65.
    apply Rabs_le. lra.
Qed.

(** [normalized] of a pixel of the image is finite and in [[-1, 1]]. *)
Lemma normalized_bounds (p : PixelIndex) (size : ImageSize) :
  (0 < width size)%Z -> is_u64 (width size) ->
  (0 <= value p <= width size)%Z ->
  is_finite (normalized p size) = true
  /\ -1 <= B2R (normalized p size) <= 1.
Proof.
  intros W0 [_ W1] [P0 P1].
  assert (is_u64 (value p)) as PU by (unfold is_u64; lia).
  destruct (normalized_rounds p size (conj W0 W1) PU)
    as (RW & RV & W1' & [V0 _] & RQ & RN).
  cbv zeta in *.
  set (Wd := of_Z (width size)) in *. set (Vd := of_Z (value p)) in *.
  set (Q := SFdiv prec emax Vd (half_width size)) in *.
  assert (B2R Vd <= B2R Wd) as VW.
  { destruct (Z.eq_dec (value p) (width size)) as [E | NE].
    - unfold Vd, Wd. rewrite E. lra.
    - apply (rounds_to_monotone _ _ _ _ RV RW). apply IZR_lt. lia. }
  assert (0 <= B2R Vd / (B2R Wd / 2) <= 2) as [A B].
  { split.
    - apply Rmult_le_pos; [lra |]. left. apply Rinv_0_lt_compat. lra.
    - apply Rmult_le_reg_r with (B2R Wd / 2); [lra |].
      unfold Rdiv at 1. rewrite Rmult_assoc, Rinv_l by lra. lra. }
  assert (0 <= B2R Q <= 2) as [Q0 Q2].
  { split.
    - apply (rounds_to_ge_Z _ _ 0 RQ); [lia | exact A].
    - apply (rounds_to_le_Z _ _ 2 RQ); [lia | exact B]. }
  split; [exact (rounds_to_finite _ _ RN) |]. split.
  - apply (rounds_to_ge_Z _ _ (-1) RN); [lia | lra].
  - apply (rounds_to_le_Z _ _ 1 RN); [lia | lra].
Qed.

(** C7, as amended: on binary64, for an image of positive width and a pixel
    index that lies in the image, [value <= width], the normalized
    coordinate the code returns is a finite number in [[-1, 1]]. *)
Theorem normalized_in_unit_interval (p : PixelIndex) (size : ImageSize) :
  (0 < width size)%Z -> is_u64 (width size) ->
  (0 <= value p <= width size)%Z ->
  is_finite (normalized p size) = true
  /\ -1 <= B2R (normalized p size) <= 1.
Proof. apply normalized_bounds. Qed.

Lemma normalized_in_unit_interval_witness :
  is_finite (normalized {| value := 15 |} {| width := 20; height := 0 |})
  = true
  /\ -1 <= B2R (normalized {| value := 15 |} {| width := 20; height := 0 |})
     <= 1.
Proof.
  apply (normalized_in_unit_interval
           {| value := 15 |} {| width := 20; height := 0 |}).
  - simpl. lia.
  - unfold is_u64, u64_max. simpl. lia.
  - simpl. lia.
Defined.

End NormalizedRange.

(** ** Half sizes and the conversion to a pixel on binary64 *)

Section PixelConversion.

Import Binary64.
Import Exact.
Local Open Scope R_scope.

(** [half_width] is the binary64 number nearest to half the width. *)
Lemma half_width_rounds (size : ImageSize) :
  is_u64 (width size) -> rounds_to (IZR (width size) / 2) (half_width size).
Proof.
  intros [W0 W1]. destruct (Z.eq_dec (width size) 0) as [Z | NZ].
  - unfold half_width. rewrite Z.
    change (d_of_u64 0 / d_two)%D with (S754_zero false).
    unfold Rdiv. rewrite Rmult_0_l. apply rounds_to_zero.
  - destruct (half_width_halves size ltac:(lia)) as (HF & HV & _ & HB).
    assert (rounds_to (IZR (width size)) (of_Z (width size))) as RW
        by (apply of_Z_rounds, u64_below_top; unfold is_u64; lia).
    destruct RW as (_ & _ & Near & Err).
    unfold rounds_to. rewrite HB.
    assert (forall a b : R, Rabs (a / 2 - b / 2) = Rabs (a - b) / 2) as Half.
    { intros a b. replace (a / 2 - b / 2) with ((a - b) * / 2) by field.
      rewrite Rabs_mult, (Rabs_pos_eq (/ 2)) by lra. reflexivity. }
    split; [exact HF |]. split; [exact HV |]. split.
    + intros m e M E. rewrite Half.
      specialize (Near m (e + 1)%Z M ltac:(lia)).
      rewrite powerRZ_2_add in Near. simpl (powerRZ 2 1) in Near.
      replace (IZR m * powerRZ 2 e - IZR (width size) / 2)
        with ((IZR m * (powerRZ 2 e * (2 * 1)) - IZR (width size)) * / 2)
        by field.
      rewrite Rabs_mult, (Rabs_pos_eq (/ 2)) by lra.
      unfold Rdiv. apply Rmult_le_compat_r; [lra | exact Near].
    + rewrite Half.
      replace (Rabs (IZR (width size) / 2))
        with (Rabs (IZR (width size)) / 2)
        by (unfold Rdiv; rewrite Rabs_mult, (Rabs_pos_eq (/ 2)) by lra;
            reflexivity).
      pose proof (powerRZ_2_pos (-1075)). lra.
Qed.

(** Small integers, of either sign, convert exactly. *)
Lemma binary_normalize_small (z : Z) (sz : bool) :
  (Z.abs z < 2 ^ 53)%Z ->
  is_finite (binary_normalize prec emax z 0 sz) = true
  /\ B2R (binary_normalize prec emax z 0 sz) = IZR z.
Proof.
  intros Z.
  assert (rounds_to (IZR z * powerRZ 2 0) (binary_normalize prec emax z 0 sz))
    as R.
  { apply binary_normalize_rounds. apply (below_top _ 53); [lia |].
    simpl (powerRZ 2 0). rewrite Rmult_1_r, <- abs_IZR, <- IZR_pow2 by lia.
    apply IZR_le. lia. }
  split; [exact (rounds_to_finite _ _ R) |].
  rewrite (rounds_to_exact _ _ z 0 R); try lia; [simpl; ring | reflexivity].
Qed.

(** The integer [round_away] returns, from a bound on the magnitude. *)
Lemma round_away_unique (z : Z) (x : R) :
  IZR z <= Rabs x + / 2 < IZR z + 1 ->
  round_away x = if Rle_dec 0 x then z else (- z)%Z.
Proof.
  intros B. unfold round_away.
  destruct (Rle_dec 0 x) as [P | N].
  - rewrite Rabs_pos_eq in B by exact P. now apply Zfloor_eq.
  - rewrite Rabs_left in B by lra. apply Zceil_eq. rewrite opp_IZR. lra.
Qed.

(** The integer [trunc] returns, from a bound on the magnitude. *)
Lemma trunc_unique (z : Z) (x : R) :
  IZR z <= Rabs x < IZR z + 1 ->
  trunc x = if Rle_dec 0 x then z else (- z)%Z.
Proof.
  intros B. unfold trunc.
  destruct (Rle_dec 0 x) as [P | N].
  - rewrite Rabs_pos_eq in B by exact P. now apply Zfloor_eq.
  - rewrite Rabs_left in B by lra. apply Zceil_eq. rewrite opp_IZR. lra.
Qed.

(** A finite number other than a zero has the sign of its sign bit. *)
Lemma B2R_sign_cases (s : bool) (m : positive) (e : Z) :
  0 < Rabs (B2R (S754_finite s m e))
  /\ if s then B2R (S754_finite s m e) < 0 else 0 < B2R (S754_finite s m e).
Proof.
  rewrite Rabs_B2R. cbn [B2R].
  pose proof (powerRZ_2_pos e) as P.
  assert (0 < IZR (Zpos m)) as M by (apply IZR_lt; lia).
  destruct s; cbn [cond_Zopp]; rewrite ?opp_IZR; split; nra.
Qed.

(** [std::round] on binary64 is the rounding of the real value, halfway
    cases away from zero. *)
Lemma round_away_value (x : spec_float) :
  is_finite x = true -> bounded_mantissa x ->
  is_finite (Binary64.round_away x) = true
  /\ B2R (Binary64.round_away x) = IZR (Exact.round_away (B2R x)).
Proof.
  intros F X. destruct x as [s | s | | s m e]; try discriminate F.
  - split; [reflexivity |]. cbn [Binary64.round_away B2R].
    rewrite <- (round_away_IZR 0) at 1. reflexivity.
  - destruct (Z.le_gt_cases 0 e) as [E | E].
    + assert (Binary64.round_away (S754_finite s m e) = S754_finite s m e)
        as -> by (destruct e; try lia; reflexivity).
      split; [reflexivity |].
      assert (B2R (S754_finite s m e)
              = IZR (cond_Zopp s (Zpos m) * 2 ^ e)) as ->.
      { cbn [B2R]. now rewrite mult_IZR, IZR_pow2. }
      now rewrite round_away_IZR.
    + destruct e as [| e | d]; try lia. clear E.
      cbn [Binary64.round_away bounded_mantissa] in *.
      pose proof (round_quotient m d) as [L U].
      pose proof (round_quotient_small m d X) as [Q0 Q1].
      cbv zeta in L, U.
      set (q := Z.shiftr (Zpos m + Z.shiftl 1 (Zpos d - 1)) (Zpos d)) in *.
      destruct (binary_normalize_small (cond_Zopp s q) s) as [NF NB].
      { destruct s; cbn [cond_Zopp]; lia. }
      split; [exact NF |]. rewrite NB. f_equal.
      assert (IZR q <= Rabs (B2R (S754_finite s m (Zneg d))) + / 2
              < IZR q + 1) as B.
      { rewrite Rabs_B2R, B2R_neg_exp. cbn [cond_Zopp].
        assert (0 < 2 ^ Zpos d)%Z as P0 by (apply Z.pow_pos_nonneg; lia).
        apply IZR_lt in P0. apply IZR_le in L. apply IZR_lt in U.
        rewrite plus_IZR, !mult_IZR in L.
        rewrite !plus_IZR, !mult_IZR in U.
        set (b := IZR (2 ^ Zpos d)) in *.
        set (y := IZR (Zpos m) / b).
        assert (IZR (Zpos m) = y * b) as Y by (unfold y; field; lra).
        rewrite Y in L, U. split; nra. }
      rewrite (round_away_unique q _ B).
      destruct (B2R_sign_cases s m (Zneg d)) as [_ S].
      destruct s; cbn [cond_Zopp];
        destruct (Rle_dec 0 _) as [P | N]; try reflexivity; lra.
Qed.

(** The integer part the conversion works with is the truncation of the
    real value. *)
Lemma trunc_mag_value (s : bool) (m : positive) (e : Z) :
  trunc (B2R (S754_finite s m e)) = cond_Zopp s (trunc_mag m e).
Proof.
  assert (IZR (trunc_mag m e) <= Rabs (B2R (S754_finite s m e))
          < IZR (trunc_mag m e) + 1) as B.
  { rewrite Rabs_B2R. destruct (Z.le_gt_cases 0 e) as [E | E].
    - rewrite B2R_nonneg_exp by exact E.
      assert (trunc_mag m e = Zpos m * 2 ^ e)%Z as ->.
      { unfold trunc_mag. destruct e as [| e | e]; try lia;
          now rewrite Z.shiftl_mul_pow2 by lia. }
      lra.
    - destruct e as [| e | d]; try lia.
      unfold trunc_mag. rewrite Z.shiftr_div_pow2 by lia.
      rewrite B2R_neg_exp. cbn [cond_Zopp].
      assert (0 < 2 ^ Zpos d)%Z as P0 by (apply Z.pow_pos_nonneg; lia).
      pose proof (Z.mul_div_le (Zpos m) (2 ^ Zpos d) P0) as L.
      pose proof (Z.mul_succ_div_gt (Zpos m) (2 ^ Zpos d) P0) as U.
      apply IZR_lt in P0. apply IZR_le in L. apply IZR_lt in U.
      rewrite mult_IZR in L. rewrite mult_IZR, succ_IZR in U.
      set (b := IZR (2 ^ Zpos d)) in *.
      set (y := IZR (Zpos m) / b).
      assert (IZR (Zpos m) = y * b) as Y by (unfold y; field; lra).
      rewrite Y in L, U. split; nra. }
  rewrite (trunc_unique _ _ B).
  destruct (B2R_sign_cases s m e) as [_ S].
  destruct s; cbn [cond_Zopp];
    destruct (Rle_dec 0 _) as [P | N]; try reflexivity; lra.
Qed.

(** The conversion to [uint64_t] of a value whose integer part is in range
    is that integer part. *)
Lemma to_u64_value (x : spec_float) :
  is_finite x = true -> is_u64 (trunc (B2R x)) ->
  Binary64.to_u64 x = Some (trunc (B2R x)).
Proof.
  intros F U. destruct x as [s | s | | s m e]; try discriminate F.
  - cbn [Binary64.to_u64 B2R]. now rewrite <- (trunc_IZR 0) at 1.
  - rewrite trunc_mag_value in *. cbn [Binary64.to_u64].
    assert (0 <= trunc_mag m e)%Z as T0.
    { unfold trunc_mag. destruct e as [| e | d].
      - simpl. lia.
      - apply Z.shiftl_nonneg. lia.
      - apply Z.shiftr_nonneg. lia. }
    destruct U as [U0 U1].
    destruct (Z.eqb_spec (trunc_mag m e) 0) as [Z | NZ].
    + rewrite Z. now destruct s.
    + destruct s; cbn [cond_Zopp] in *; [lia |].
      apply Z.leb_le in U1. now rewrite U1.
Qed.

(** So [to_pixel] returns the truncated value, when it is in range. *)
Lemma to_pixel_value (x : spec_float) :
  is_finite x = true -> is_u64 (trunc (B2R x)) ->
  to_pixel x = Some {| value := trunc (B2R x) |}.
Proof.
  intros F U. unfold to_pixel. cbn [d_to_u64 b64_arith].
  now rewrite to_u64_value.
Qed.

(** After [std::round], [to_pixel] returns the rounded value, when it is
    in range. *)
Lemma to_pixel_round_value (x : spec_float) :
  is_finite x = true -> bounded_mantissa x ->
  is_u64 (round_away (B2R x)) ->
  to_pixel (d_round x) = Some {| value := round_away (B2R x) |}.
Proof.
  intros F X U. cbn [d_round b64_arith].
  destruct (round_away_value x F X) as [RF RB].
  rewrite to_pixel_value.
  - now rewrite RB, trunc_IZR.
  - exact RF.
  - now rewrite RB, trunc_IZR.
Qed.

(** The value converted by the linear inverse fits the mantissa. *)
Lemma pixel_v_bounded
    (t : Radians spec_float) (size : ImageSize) (k : spec_float) :
  bounded_mantissa (d_add (d_div (Angle.value t) k) (half_width size)).
Proof.
  apply SFadd_bounded; [apply SFdiv_bounded | apply half_width_bounded].
Qed.

(** C4, as amended: on binary64, with [pixel_v] the value the code computes
    for [t / k + half_width]: with [round_back] the pixel is [pixel_v]
    rounded to the nearest integer, halfway cases away from zero, whenever
    that integer is a [uint64_t]; without it the pixel is [pixel_v]
    truncated toward zero, whenever that integer is a [uint64_t]. *)
Theorem tan_2_pixel_by_pixel_2_tan_rounding
    (t : Radians spec_float) (size : ImageSize) (k : spec_float) :
  let pixel_v := d_add (d_div (Angle.value t) k) (half_width size) in
  is_finite pixel_v = true ->
  (is_u64 (round_away (B2R pixel_v)) ->
   tan_2_pixel_by_pixel_2_tan t size k true
   = Some {| value := round_away (B2R pixel_v) |})
  /\ (is_u64 (trunc (B2R pixel_v)) ->
      tan_2_pixel_by_pixel_2_tan t size k false
      = Some {| value := trunc (B2R pixel_v) |}).
Proof.
  intros pixel_v F. unfold tan_2_pixel_by_pixel_2_tan. fold pixel_v.
  split; intros U.
  - apply to_pixel_round_value; try assumption. apply pixel_v_bounded.
  - now apply to_pixel_value.
Qed.

(** The values of the witnesses of C4 and of X19. *)
Lemma sample_pixel_v :
  d_add (d_div (of_Z 1001) (of_Z 4))
    (half_width {| width := 641; height := 480 |})
  = S754_finite false 5020370092425216 (-43).
Proof. vm_compute. reflexivity. Qed.

Lemma sample_pixel_v_value :
  B2R (S754_finite false 5020370092425216 (-43)) = 570 + 3 / 4.
Proof.
  rewrite B2R_neg_exp. cbn [cond_Zopp].
  change (2 ^ 43)%Z with 8796093022208%Z. lra.
Qed.

Lemma sample_pixel_v_rounded :
  round_away (570 + 3 / 4) = 571%Z /\ trunc (570 + 3 / 4) = 570%Z.
Proof.
  split.
  - apply round_away_near. apply Rabs_def1; lra.
  - unfold trunc. destruct (Rle_dec 0 (570 + 3 / 4)) as [_ | N]; [| lra].
    apply Zfloor_eq. lra.
Qed.

Lemma tan_2_pixel_by_pixel_2_tan_rounding_witness :
  tan_2_pixel_by_pixel_2_tan (Angle.make (of_Z 1001))
    {| width := 641; height := 480 |} (of_Z 4) true
  = Some {| value := 571 |}
  /\ tan_2_pixel_by_pixel_2_tan (Angle.make (of_Z 1001))
       {| width := 641; height := 480 |} (of_Z 4) false
     = Some {| value := 570 |}.
Proof.
  pose proof (tan_2_pixel_by_pixel_2_tan_rounding (Angle.make (of_Z 1001))
                {| width := 641; height := 480 |} (of_Z 4)) as H.
  cbv zeta in H. cbn [Angle.value] in H.
  rewrite sample_pixel_v, sample_pixel_v_value in H.
  destruct sample_pixel_v_rounded as [R T]. rewrite R, T in H.
  destruct (H eq_refl) as [Hr Ht]. split.
  - apply Hr. unfold is_u64, u64_max. lia.
  - apply Ht. unfold is_u64, u64_max. lia.
Defined.

(** C4 as stated fails where the rounded value is negative: the tangent
    [-1000] with scale [1] on a 640 pixel wide image gives [-680], which is
    the value of no [uint64_t], whatever the conversion returns. *)
Lemma round_back_negative_pixel :
  is_nonzero (of_Z 1) = true
  /\ tan_2_pixel_by_pixel_2_tan (Angle.make (of_Z (-1000)))
       {| width := 640; height := 480 |} (of_Z 1) true
     = to_pixel
         (d_round (d_add (d_div (of_Z (-1000)) (of_Z 1))
                     (half_width {| width := 640; height := 480 |})))
  /\ d_round (d_add (d_div (of_Z (-1000)) (of_Z 1))
                (half_width {| width := 640; height := 480 |}))
     = of_Z (-680)
  /\ B2R (of_Z (-680)) = -680
  /\ forall p : PixelIndex,
       is_u64 (value p) ->
       IZR (value p)
       <> B2R (d_round (d_add (d_div (of_Z (-1000)) (of_Z 1))
                          (half_width {| width := 640; height := 480 |}))).
Proof.
  assert (d_round (d_add (d_div (of_Z (-1000)) (of_Z 1))
                     (half_width {| width := 640; height := 480 |}))
          = of_Z (-680)) as E by (vm_compute; reflexivity).
  assert (B2R (of_Z (-680)) = -680) as V.
  { apply (binary_normalize_small (-680) false). simpl. lia. }
  split; [reflexivity |]. split; [reflexivity |].
  split; [exact E |]. split; [exact V |].
  intros p [P0 _]. rewrite E, V. apply IZR_le in P0. lra.
Qed.

(** C8: [half_width] and [half_height] are the binary64 numbers nearest to
    half the stored count, for every count a [uint64_t] holds: finite, and
    as close to [count / 2] as a [double] can be.  Below [2^53] that is
    [count / 2] itself, and for a count of 0 it is [+0.0]. *)
Theorem half_width_height (s : ImageSize) :
  (is_u64 (width s) -> rounds_to (IZR (width s) / 2) (half_width s))
  /\ (is_u64 (height s) -> rounds_to (IZR (height s) / 2) (half_height s))
  /\ ((0 <= width s < 2 ^ 53)%Z -> B2R (half_width s) = IZR (width s) / 2)
  /\ ((0 <= height s < 2 ^ 53)%Z -> B2R (half_height s) = IZR (height s) / 2)
  /\ (width s = 0%Z -> half_width s = S754_zero false)
  /\ (height s = 0%Z -> half_height s = S754_zero false).
Proof.
  split; [apply half_width_rounds |].
  split; [exact (half_width_rounds {| width := height s; height := width s |})
         |].
  split; [apply half_width_exact |].
  split; [exact (half_width_exact {| width := height s; height := width s |})
         |].
  split; intros Z; unfold half_width, half_height; rewrite Z; reflexivity.
Qed.

Lemma half_width_height_witness :
  rounds_to (IZR (2 ^ 53 + 1) / 2)
    (half_height {| width := 0; height := 2 ^ 53 + 1 |})
  /\ B2R (half_width {| width := 1920; height := 1080 |}) = 1920 / 2
  /\ half_width (D := spec_float) {| width := 0; height := 2 ^ 53 + 1 |}
     = S754_zero false.
Proof.
  destruct (half_width_height {| width := 0; height := 2 ^ 53 + 1 |})
    as (_ & H & _ & _ & Z & _).
  destruct (half_width_height {| width := 1920; height := 1080 |})
    as (_ & _ & X & _).
  split; [| split].
  - apply H. unfold is_u64, u64_max. simpl. lia.
  - apply X. simpl. lia.
  - apply Z. reflexivity.
Defined.

(** Beyond [2^53] the nearest number need not be the exact half. *)
Example half_height_2_53_1 :
  half_height {| width := 0; height := 2 ^ 53 + 1 |}
  = S754_finite false 4503599627370496 0.
Proof. vm_compute. reflexivity. Qed.

End PixelConversion.

(** ** Rounding errors of the conversions *)

Section ErrorBounds.

Import Binary64.
Local Open Scope R_scope.

(** Real arithmetic used below. *)
Lemma Rabs_le_elim (x b : R) : Rabs x <= b -> - b <= x <= b.
Proof. unfold Rabs. destruct (Rcase_abs x); lra. Qed.

Lemma unit_roundoff : powerRZ 2 (-53) * 9007199254740992 = 1.
Proof.
  change 9007199254740992 with (IZR (2 ^ 53)).
  rewrite IZR_pow2, <- powerRZ_2_add by lia. reflexivity.
Qed.

(** The absolute error term of a rounding is small against the sizes at
    hand. *)
Lemma tiny_underflow (T : R) :
  powerRZ 2 (-500) <= T ->
  powerRZ 2 (-1075) <= powerRZ 2 (-53) / 8 * T
  /\ powerRZ 2 (-1075) <= powerRZ 2 (-53) / 16.
Proof.
  intros L.
  pose proof (powerRZ_2_pos (-53)) as U.
  pose proof (powerRZ_2_pos (-500)) as P500.
  assert (powerRZ 2 (-53) / 8 = powerRZ 2 (-56)) as E.
  { replace (-53)%Z with (3 + -56)%Z by lia. rewrite powerRZ_2_add.
    simpl (powerRZ 2 3). field. }
  assert (powerRZ 2 (-53) / 16 = powerRZ 2 (-57)) as E'.
  { replace (-53)%Z with (4 + -57)%Z by lia. rewrite powerRZ_2_add.
    simpl (powerRZ 2 4). field. }
  rewrite E, E'. split.
  - apply Rle_trans with (powerRZ 2 (-56) * powerRZ 2 (-500)).
    + rewrite <- powerRZ_2_add. apply powerRZ_2_le. lia.
    + apply Rmult_le_compat_l; [pose proof (powerRZ_2_pos (-56)); lra | exact L].
  - apply powerRZ_2_le. lia.
Qed.

(** The error of [normalized] on a pixel of the image. *)
Lemma normalized_error (u t P H q n : R) :
  0 < u <= / 1024 -> 0 <= t <= u / 16 ->
  0 <= P <= 2 * H -> / 2 <= H ->
  Rabs (q - P / H) <= Rabs (P / H) * u + t ->
  Rabs (n - (q - 1)) <= Rabs (q - 1) * u + t ->
  Rabs (n - (P / H - 1)) <= 4 * u.
Proof.
  intros [U0 U1] [T0 T1] [P0 P1] H0 Q N.
  assert (0 <= P / H <= 2) as [R0 R2].
  { split.
    - apply Rmult_le_pos; [lra |]. left. apply Rinv_0_lt_compat. lra.
    - apply Rmult_le_reg_r with H; [lra |].
      unfold Rdiv. rewrite Rmult_assoc, Rinv_l by lra. lra. }
  rewrite (Rabs_pos_eq (P / H)) in Q by lra.
  apply Rabs_le_elim in Q.
  assert (Rabs (q - 1) <= 9 / 8) as Q1 by (apply Rabs_le; nra).
  assert (Rabs (n - (q - 1)) <= 9 / 8 * u + t) as N' by nra.
  apply Rabs_le_elim in N'.
  apply Rabs_le. nra.
Qed.

(** Multiplying by [T] and going through an approximate identity: what
    the quotient by [T] then is. *)
Lemma there_error (u t eps T n x y : R) :
  0 < u <= / 1024 -> 0 <= t <= u / 8 * T ->
  0 <= eps <= / 1024 ->
  0 < T -> Rabs n <= 1 ->
  Rabs (x - n * T) <= Rabs (n * T) * u + t ->
  Rabs (y - x) <= eps * Rabs x ->
  Rabs (x - n * T) <= T * (u + u / 8)
  /\ Rabs (y / T - n) <= 9 / 8 * u + 2 * eps
  /\ Rabs (y / T) <= 2.
Proof.
  intros [U0 U1] [T0 T1] [E0 E1] TP N X Y.
  assert (Rabs (n * T) <= T) as NT.
  { rewrite Rabs_mult, (Rabs_pos_eq T) by lra.
    pose proof (Rabs_pos n). nra. }
  assert (Rabs (x - n * T) <= T * (u + u / 8)) as X' by nra.
  assert (Rabs x <= T * (1 + u + u / 8)) as XB.
  { apply Rabs_le_elim in X'. apply Rabs_le_elim in NT.
    apply Rabs_le. nra. }
  assert (Rabs (y - x) <= T * (eps * (1 + u + u / 8))) as Y'.
  { apply Rle_trans with (1 := Y). nra. }
  set (d := y / T - n).
  assert (d * T = (y - x) + (x - n * T)) as D.
  { unfold d. field. lra. }
  assert (Rabs d <= u + u / 8 + eps * (1 + u + u / 8)) as DB.
  { apply Rabs_le_elim in X'. apply Rabs_le_elim in Y'.
    apply Rabs_le. split.
    - apply Rmult_le_reg_r with T; [exact TP |]. rewrite D. nra.
    - apply Rmult_le_reg_r with T; [exact TP |]. rewrite D. nra. }
  assert (y / T = n + d) as YT by (unfold d; ring).
  split; [exact X' |].
  apply Rabs_le_elim in N. apply Rabs_le_elim in DB.
  split.
  - apply Rabs_le. nra.
  - rewrite YT. apply Rabs_le. nra.
Qed.

(** Dividing by [T] again. *)
Lemma back_error (u t eps n r q : R) :
  0 < u <= / 1024 -> 0 <= t <= u / 16 -> 0 <= eps <= / 1024 ->
  Rabs n <= 1 ->
  Rabs (r - n) <= 9 / 8 * u + 2 * eps -> Rabs r <= 2 ->
  Rabs (q - r) <= Rabs r * u + t ->
  Rabs (q - n) <= 4 * u + 2 * eps /\ Rabs q <= 2.
Proof.
  intros [U0 U1] [T0 T1] [E0 E1] N D R2 Q.
  assert (Rabs (q - r) <= 2 * u + t) as Q' by nra.
  apply Rabs_le_elim in N. apply Rabs_le_elim in D.
  apply Rabs_le_elim in Q'.
  split; apply Rabs_le; lra.
Qed.

(** Scaling by the half width and shifting by it. *)
Lemma scale_error (u t H q v1 : R) :
  0 < u <= / 1024 -> 0 <= t <= u / 16 ->
  / 2 <= H -> Rabs q <= 2 ->
  Rabs (v1 - q * H) <= Rabs (q * H) * u + t ->
  Rabs (q * H) <= 2 * H
  /\ Rabs (v1 - q * H) <= 2 * H * u + t
  /\ Rabs (v1 + H) <= 4 * H.
Proof.
  intros [U0 U1] [T0 T1] H0 Q V1.
  assert (Rabs (q * H) <= 2 * H) as QH.
  { rewrite Rabs_mult, (Rabs_pos_eq H) by lra. nra. }
  assert (Rabs (v1 - q * H) <= 2 * H * u + t) as V1' by nra.
  split; [exact QH |]. split; [exact V1' |].
  apply Rabs_le_elim in QH. apply Rabs_le_elim in V1'.
  apply Rabs_le. nra.
Qed.

(** Adding the half width. *)
Lemma shift_error (u t H q v1 v : R) :
  0 < u <= / 1024 -> 0 <= t <= u / 16 ->
  / 2 <= H ->
  Rabs (v1 - q * H) <= 2 * H * u + t ->
  Rabs (v1 + H) <= 4 * H ->
  Rabs (v - (v1 + H)) <= Rabs (v1 + H) * u + t ->
  Rabs (v - (q + 1) * H) <= 7 * u * H.
Proof.
  intros [U0 U1] [T0 T1] H0 V1 S V.
  assert (Rabs (v - (v1 + H)) <= 4 * H * u + t) as V' by nra.
  apply Rabs_le_elim in V1. apply Rabs_le_elim in V'.
  apply Rabs_le. nra.
Qed.

End ErrorBounds.

(** ** The round trip through the field of view on binary64 *)

Section FovRoundTrip.

Import Binary64.
Import Exact.
Local Open Scope R_scope.

(** A number in canonical form fits the mantissa. *)
Lemma valid_bounded (y : spec_float) :
  valid_binary prec emax y = true -> bounded_mantissa y.
Proof.
  destruct y as [s | s | | s m e]; try exact (fun _ => I).
  intros V. destruct (valid_finite _ _ _ V) as [C _].
  pose proof (digits2_pos_bounds m) as [_ U]. cbn [bounded_mantissa].
  assert (2 ^ Zpos (digits2_pos m) <= 2 ^ 53)%Z
    by (apply Z.pow_le_mono_r; lia).
  lia.
Qed.

(** A finite number of positive value is not a zero. *)
Lemma positive_is_nonzero (y : spec_float) :
  is_finite y = true -> 0 < B2R y -> is_nonzero y = true.
Proof.
  destruct y as [s | s | | s m e]; try discriminate; try reflexivity.
  cbn [B2R]. lra.
Qed.

(** The pixel-space value of [tan_2_pixel_by_fov] on the tangent of
    [pixel_tan_from_fov], against the pixel it started from. *)
Lemma fov_round_trip_value
    (tan atan : spec_float -> spec_float)
    (size : ImageSize) (fov : Radians spec_float) (p : Z) (eps : R) :
  let T := tan (SFdiv prec emax (Angle.value fov) (of_Z 2)) in
  let x := SFmul prec emax (normalized {| value := p |} size) T in
  let v := SFadd prec emax
             (SFmul prec emax (SFdiv prec emax (tan (atan x)) T)
                (half_width size))
             (half_width size) in
  (0 < width size < 2 ^ 53)%Z ->
  (0 <= p <= width size)%Z ->
  is_finite T = true -> valid_binary prec emax T = true ->
  powerRZ 2 (-500) <= B2R T <= powerRZ 2 500 ->
  0 <= eps <= / 1024 ->
  close_to eps x (tan (atan x)) ->
  is_finite v = true /\ valid_binary prec emax v = true
  /\ Rabs (B2R v - IZR p)
     <= (15 * powerRZ 2 (-53) + 2 * eps) * (IZR (width size) / 2).
Proof.
  intros T x v [W0 WS] [P0 P1] TF TV [TL TU] Eb (YF & YV & YE).
  assert (width size <= u64_max)%Z as WU
      by (unfold u64_max; change (2 ^ 53)%Z with 9007199254740992%Z in WS;
          change (2 ^ 64 - 1)%Z with 18446744073709551615%Z; lia).
  assert (is_u64 p) as PU by (unfold is_u64; lia).
  destruct (normalized_rounds {| value := p |} size (conj W0 WU) PU)
    as (_ & _ & _ & _ & RQ & RN).
  destruct (normalized_bounds {| value := p |} size W0
              (conj (Z.lt_le_incl _ _ W0) WU) (conj P0 P1)) as (_ & NB).
  cbv zeta in RQ, RN. cbn [value] in *.
  rewrite !B2R_of_Z_small in RQ by lia.
  destruct (half_width_halves size (conj W0 WU)) as (HF & HV & HN & HB).
  rewrite B2R_of_Z_small in HB by lia.
  set (N := normalized {| value := p |} size) in *.
  set (Q := SFdiv prec emax (of_Z p) (half_width size)) in *.
  set (H := half_width size) in *.
  set (Hh := IZR (width size) / 2) in *.
  set (u := powerRZ 2 (-53)).
  set (t := powerRZ 2 (-1075)).
  pose proof unit_roundoff as UV. fold u in UV.
  assert (0 < u <= / 1024) as Ub by (split; nra).
  pose proof (powerRZ_2_pos (-1075)) as T0. fold t in T0.
  pose proof (powerRZ_2_pos (-500)) as P500.
  assert (0 < B2R T) as TP by lra.
  destruct (tiny_underflow (B2R T) TL) as [Tt Tu]. fold u t in Tt, Tu.
  assert (1 <= IZR (width size) <= 9007199254740992) as [Wr0 Wr1].
  { split; apply IZR_le; [lia |].
    change (2 ^ 53)%Z with 9007199254740992%Z in WS. lia. }
  assert (0 <= IZR p <= 2 * Hh) as Pb.
  { unfold Hh. split; [apply IZR_le; lia |].
    apply IZR_le in P1. lra. }
  assert (/ 2 <= Hh <= 4503599627370496) as [Hb0 Hb1] by (unfold Hh; lra).
  (* the normalized coordinate *)
  pose proof (rounds_to_error _ _ RQ) as QE.
  pose proof (rounds_to_error _ _ RN) as NE.
  fold u t Hh in QE, NE.
  pose proof (normalized_error u t (IZR p) Hh (B2R Q) (B2R N)
                Ub (conj (Rlt_le _ _ T0) Tu) Pb Hb0 QE NE) as NErr.
  assert (Rabs (B2R N) <= 1) as N1 by (apply Rabs_le; lra).
  (* times tan (fov / 2), through atan and tan, divided again *)
  assert (rounds_to (B2R N * B2R T) x) as RX.
  { apply SFmul_rounds; try assumption.
    - exact (rounds_to_finite _ _ RN).
    - exact (rounds_to_valid _ _ RN).
    - apply (below_top _ 500); [lia |].
      rewrite Rabs_mult, (Rabs_pos_eq (B2R T)) by lra.
      pose proof (Rabs_pos (B2R N)). nra. }
  pose proof (rounds_to_error _ _ RX) as XE. fold u t in XE.
  destruct (there_error u t eps (B2R T) (B2R N) (B2R x) (B2R (tan (atan x)))
              Ub (conj (Rlt_le _ _ T0) Tt) Eb TP N1 XE YE)
    as (_ & YT & Y2).
  assert (rounds_to (B2R (tan (atan x)) / B2R T)
            (SFdiv prec emax (tan (atan x)) T)) as RQ2.
  { apply SFdiv_rounds; try assumption.
    - now apply positive_is_nonzero.
    - apply (below_top _ 1); [lia |]. simpl (powerRZ 2 1). lra. }
  set (Q2 := SFdiv prec emax (tan (atan x)) T) in *.
  pose proof (rounds_to_error _ _ RQ2) as Q2E. fold u t in Q2E.
  destruct (back_error u t eps (B2R N) _ (B2R Q2)
              Ub (conj (Rlt_le _ _ T0) Tu) Eb N1 YT Y2 Q2E) as (QN & QB).
  (* back to pixels *)
  assert (Rabs (B2R Q2 * B2R H) <= powerRZ 2 53) as QH53.
  { rewrite HB, Rabs_mult, (Rabs_pos_eq Hh) by lra.
    rewrite <- IZR_pow2 by lia. change (2 ^ 53)%Z with 9007199254740992%Z.
    pose proof (Rabs_pos (B2R Q2)). nra. }
  assert (rounds_to (B2R Q2 * B2R H) (SFmul prec emax Q2 H)) as RV1.
  { apply SFmul_rounds; try assumption.
    - exact (rounds_to_finite _ _ RQ2).
    - exact (rounds_to_valid _ _ RQ2).
    - now apply (below_top _ 53). }
  set (V1 := SFmul prec emax Q2 H) in *.
  pose proof (rounds_to_error _ _ RV1) as V1E. fold u t in V1E.
  rewrite HB in V1E.
  destruct (scale_error u t Hh (B2R Q2) (B2R V1)
              Ub (conj (Rlt_le _ _ T0) Tu) Hb0 QB V1E) as (_ & V1B & SB).
  assert (rounds_to (B2R V1 + B2R H) v) as RV.
  { apply SFadd_rounds; try assumption.
    - exact (rounds_to_finite _ _ RV1).
    - exact (rounds_to_valid _ _ RV1).
    - rewrite HB. apply (below_top _ 54); [lia |].
      rewrite <- IZR_pow2 by lia. change (2 ^ 54)%Z with 18014398509481984%Z.
      lra. }
  pose proof (rounds_to_error _ _ RV) as VE. fold u t in VE.
  rewrite HB in VE.
  pose proof (shift_error u t Hh (B2R Q2) (B2R V1) (B2R v)
                Ub (conj (Rlt_le _ _ T0) Tu) Hb0 V1B SB VE) as VErr.
  split; [exact (rounds_to_finite _ _ RV) |].
  split; [exact (rounds_to_valid _ _ RV) |].
  assert (IZR p = (IZR p / Hh - 1 + 1) * Hh) as PH by (field; lra).
  apply Rabs_le_elim in VErr. apply Rabs_le_elim in QN.
  apply Rabs_le_elim in NErr.
  set (rho := IZR p / Hh - 1) in *.
  assert (- (8 * u + 2 * eps) * Hh <= (B2R Q2 - rho) * Hh
          <= (8 * u + 2 * eps) * Hh) as [D0 D1] by (split; nra).
  apply Rabs_le. rewrite PH. nra.
Qed.

(** C2, as amended: on binary64, for an image less than [2^53] pixels wide,
    a pixel strictly inside it, and a libm whose [tan (fov / 2)] is a
    positive number between [2^-500] and [2^500] and whose [tan (atan x)]
    is within the relative error [eps <= 2^-10] of [x] at the tangent [x]
    the code computes, where [(15 * 2^-53 + 2 * eps) * width <= 2]: the
    round trip through [pixel_tan_from_fov] and [tan_2_pixel_by_fov]
    returns a pixel within 1 of the one it started from, and that pixel
    itself where [(15 * 2^-53 + 2 * eps) * width < 1]. *)
Theorem fov_round_trip
    (tan atan : spec_float -> spec_float)
    (size : ImageSize) (fov : Radians spec_float) (p : Z) (eps : R) :
  let T := tan (SFdiv prec emax (Angle.value fov) (of_Z 2)) in
  let x := SFmul prec emax (normalized {| value := p |} size) T in
  (0 < width size < 2 ^ 53)%Z ->
  (0 < p < width size)%Z ->
  is_finite T = true -> valid_binary prec emax T = true ->
  powerRZ 2 (-500) <= B2R T <= powerRZ 2 500 ->
  0 <= eps <= / 1024 ->
  close_to eps x (tan (atan x)) ->
  (15 * powerRZ 2 (-53) + 2 * eps) * IZR (width size) <= 2 ->
  exists q : PixelIndex,
    tan_2_pixel_by_fov (TD := libm_trig tan atan)
      (Angle.tan (TD := libm_trig tan atan)
         (pixel_tan_from_fov (TD := libm_trig tan atan)
            {| value := p |} size fov))
      size fov
    = Some q
    /\ (Z.abs (value q - p) <= 1)%Z
    /\ ((15 * powerRZ 2 (-53) + 2 * eps) * IZR (width size) < 1 ->
        value q = p).
Proof.
  intros T x W [P0 P1] TF TV TB E C S.
  destruct (fov_round_trip_value tan atan size fov p eps W
              ltac:(lia) TF TV TB E C) as (VF & VV & VE).
  fold T x in VF, VV, VE.
  unfold tan_2_pixel_by_fov, pixel_tan_from_fov, Angle.tan, Angle.div.
  cbn [d_tan d_atan libm_trig d_div d_mul d_add d_two b64_arith Angle.value].
  fold T. fold x.
  set (v := SFadd prec emax
              (SFmul prec emax (SFdiv prec emax (tan (atan x)) T)
                 (half_width size))
              (half_width size)) in *.
  pose proof (round_away_nearest (B2R v)) as RN.
  apply Rabs_le_elim in RN. apply Rabs_le_elim in VE.
  assert (Z.abs (round_away (B2R v) - p) <= 1)%Z as A.
  { apply Z.abs_le. split.
    - apply Z.lt_pred_le, lt_IZR. rewrite minus_IZR. simpl. lra.
    - apply Z.lt_succ_r, lt_IZR. rewrite minus_IZR. simpl. lra. }
  exists {| value := round_away (B2R v) |}.
  split; [| split; [exact A |]].
  - apply to_pixel_round_value; try assumption.
    + now apply valid_bounded.
    + destruct W as [_ W1]. unfold is_u64, u64_max.
      change (2 ^ 53)%Z with 9007199254740992%Z in W1.
      change (2 ^ 64 - 1)%Z with 18446744073709551615%Z. lia.
  - intros S1. cbn [value]. apply round_away_near.
    apply Rabs_def1; lra.
Qed.

(** Two numbers of the same sign and exponent whose mantissas differ
    little are close. *)
Lemma close_same_exponent (s : bool) (mx my : positive) (e k : Z) :
  valid_binary prec emax (S754_finite s my e) = true -> (0 <= k)%Z ->
  (Z.abs (Zpos my - Zpos mx) * 2 ^ k <= Zpos mx)%Z ->
  close_to (powerRZ 2 (- k)) (S754_finite s mx e) (S754_finite s my e).
Proof.
  intros V K C. split; [reflexivity |]. split; [exact V |].
  rewrite !B2R_sign, <- Rmult_minus_distr_l, !Rabs_sign.
  rewrite <- Rmult_minus_distr_r, !Rabs_mult.
  pose proof (powerRZ_2_pos e) as PE. pose proof (powerRZ_2_pos k) as PK.
  rewrite (Rabs_pos_eq (powerRZ 2 e)), (Rabs_pos_eq (IZR (Zpos mx)))
    by (try lra; apply IZR_le; lia).
  rewrite <- minus_IZR, <- abs_IZR, <- Rmult_assoc.
  apply Rmult_le_compat_r; [lra |].
  apply Rmult_le_reg_r with (powerRZ 2 k); [exact PK |].
  rewrite (Rmult_comm (powerRZ 2 (- k))), Rmult_assoc, <- powerRZ_2_add.
  replace (- k + k)%Z with 0%Z by lia. simpl (powerRZ 2 0).
  rewrite Rmult_1_r, <- IZR_pow2, <- mult_IZR by lia.
  now apply IZR_le.
Qed.

(** The size of a positive normal number, from its exponent. *)
Lemma normal_range (m : positive) (e lo hi : Z) :
  digits2_pos m = 53%positive -> (lo <= e + 52)%Z -> (e + 53 <= hi)%Z ->
  powerRZ 2 lo <= B2R (S754_finite false m e) <= powerRZ 2 hi.
Proof.
  intros D L U. pose proof (digits2_pos_bounds m) as [ML MU].
  rewrite D in ML, MU. change (53 - 1)%Z with 52%Z in ML.
  apply IZR_le in ML. apply IZR_lt in MU. rewrite IZR_pow2 in ML, MU by lia.
  cbn [B2R cond_Zopp]. pose proof (powerRZ_2_pos e) as PE.
  split.
  - apply Rle_trans with (powerRZ 2 (52 + e)); [apply powerRZ_2_le; lia |].
    rewrite powerRZ_2_add. nra.
  - apply Rle_trans with (powerRZ 2 (53 + e)); [| apply powerRZ_2_le; lia].
    rewrite powerRZ_2_add. nra.
Qed.

(** The sample libm at the inputs of the witness: pixel 6 of 640 at 32
    degrees. *)
Lemma sample_tan_half_fov_32 :
  LibmSample.tan (SFdiv prec emax LibmSample.fov_32 (of_Z 2))
  = S754_finite false 5165545649814306 (-54).
Proof. vm_compute. reflexivity. Qed.

Lemma sample_tangent_pixel_6 :
  SFmul prec emax
    (normalized {| value := 6 |} {| width := 640; height := 480 |})
    (S754_finite false 5165545649814306 (-54))
  = S754_finite true 5068691668880288 (-54).
Proof. vm_compute. reflexivity. Qed.

Lemma sample_tan_atan_pixel_6 :
  LibmSample.tan
    (LibmSample.atan (S754_finite true 5068691668880288 (-54)))
  = S754_finite true 5068691668880287 (-54).
Proof. vm_compute. reflexivity. Qed.

(** The bound of the round trip, for 640 pixels and the error [2^-40]. *)
Lemma sample_bound :
  (15 * powerRZ 2 (-53) + 2 * powerRZ 2 (-40)) * 640 < 1.
Proof.
  pose proof unit_roundoff as U.
  assert (powerRZ 2 (-40) * 1099511627776 = 1) as P.
  { change 1099511627776 with (IZR (2 ^ 40)).
    rewrite IZR_pow2, <- powerRZ_2_add by lia. reflexivity. }
  pose proof (powerRZ_2_pos (-53)). pose proof (powerRZ_2_pos (-40)).
  lra.
Qed.

Lemma fov_round_trip_witness :
  exists q : PixelIndex,
    tan_2_pixel_by_fov (TD := LibmSample.libm)
      (Angle.tan (TD := LibmSample.libm)
         (pixel_tan_from_fov (TD := LibmSample.libm)
            {| value := 6 |} {| width := 640; height := 480 |}
            (Angle.make LibmSample.fov_32)))
      {| width := 640; height := 480 |} (Angle.make LibmSample.fov_32)
    = Some q
    /\ (Z.abs (value q - 6) <= 1)%Z
    /\ ((15 * powerRZ 2 (-53) + 2 * powerRZ 2 (- 40)) * 640 < 1 ->
        value q = 6%Z).
Proof.
  pose proof (fov_round_trip LibmSample.tan LibmSample.atan
                {| width := 640; height := 480 |}
                (Angle.make LibmSample.fov_32) 6 (powerRZ 2 (- 40))) as H.
  cbv zeta in H. cbn [Angle.value width] in H.
  rewrite sample_tan_half_fov_32, sample_tangent_pixel_6,
    sample_tan_atan_pixel_6 in H.
  apply H.
  - simpl. lia.
  - simpl. lia.
  - reflexivity.
  - reflexivity.
  - apply normal_range; [reflexivity | lia | lia].
  - split; [pose proof (powerRZ_2_pos (- 40)); lra |].
    apply Rle_trans with (powerRZ 2 (-10)); [apply powerRZ_2_le; lia |].
    simpl. lra.
  - apply (close_same_exponent true _ _ (-54) 40);
      [reflexivity | lia | vm_compute; discriminate].
  - pose proof sample_bound. lra.
Defined.

(** The same round trip, evaluated. *)
Example fov_round_trip_pixel_6 :
  tan_2_pixel_by_fov (TD := LibmSample.libm)
    (Angle.tan (TD := LibmSample.libm)
       (pixel_tan_from_fov (TD := LibmSample.libm)
          {| value := 6 |} {| width := 640; height := 480 |}
          (Angle.make LibmSample.fov_32)))
    {| width := 640; height := 480 |} (Angle.make LibmSample.fov_32)
  = Some {| value := 6 |}.
Proof. vm_compute. reflexivity. Qed.

End FovRoundTrip.

(** ** Tangents of the angle under the field of view on binary64 *)

Section FovTangents.

Import Binary64.
Local Open Scope R_scope.

(** The tangent [pixel_tan_from_fov] stands for, against the real number
    [(p / (width / 2) - 1) * tan (fov / 2)]. *)
Lemma fov_tangent_error
    (tan atan : spec_float -> spec_float)
    (size : ImageSize) (fov : Radians spec_float) (p : Z) (eps : R) :
  let T := tan (SFdiv prec emax (Angle.value fov) (of_Z 2)) in
  let x := SFmul prec emax (normalized {| value := p |} size) T in
  (0 < width size < 2 ^ 53)%Z ->
  (0 <= p <= width size)%Z ->
  is_finite T = true -> valid_binary prec emax T = true ->
  powerRZ 2 (-500) <= B2R T <= powerRZ 2 500 ->
  0 <= eps <= / 1024 ->
  close_to eps x (tan (atan x)) ->
  Rabs (B2R (tan (atan x))
        - (IZR p / (IZR (width size) / 2) - 1) * B2R T)
  <= (6 * powerRZ 2 (-53) + 2 * eps) * B2R T.
Proof.
  intros T x [W0 W1] [P0 P1] TF TV [TL TU] Eb (YF & YV & YE).
  assert (width size <= u64_max)%Z as WU
      by (unfold u64_max; change (2 ^ 53)%Z with 9007199254740992%Z in W1;
          change (2 ^ 64 - 1)%Z with 18446744073709551615%Z; lia).
  assert (is_u64 p) as PU by (unfold is_u64; lia).
  destruct (normalized_rounds {| value := p |} size (conj W0 WU) PU)
    as (_ & _ & _ & _ & RQ & RN).
  destruct (normalized_bounds {| value := p |} size W0
              (conj (Z.lt_le_incl _ _ W0) WU) (conj P0 P1)) as (_ & NB).
  cbv zeta in RQ, RN. cbn [value] in *.
  rewrite !B2R_of_Z_small in RQ by lia.
  set (N := normalized {| value := p |} size) in *.
  set (Q := SFdiv prec emax (of_Z p) (half_width size)) in *.
  set (Hh := IZR (width size) / 2) in *.
  set (u := powerRZ 2 (-53)).
  set (t := powerRZ 2 (-1075)).
  pose proof unit_roundoff as UV. fold u in UV.
  assert (0 < u <= / 1024) as Ub by (split; nra).
  pose proof (powerRZ_2_pos (-1075)) as T0. fold t in T0.
  pose proof (powerRZ_2_pos (-500)) as P500.
  assert (0 < B2R T) as TP by lra.
  destruct (tiny_underflow (B2R T) TL) as [Tt Tu]. fold u t in Tt, Tu.
  assert (1 <= IZR (width size)) as Wr0 by (apply IZR_le; lia).
  assert (0 <= IZR p <= 2 * Hh) as Pb.
  { unfold Hh. split; [apply IZR_le; lia |].
    apply IZR_le in P1. lra. }
  assert (/ 2 <= Hh) as Hb0 by (unfold Hh; lra).
  pose proof (rounds_to_error _ _ RQ) as QE.
  pose proof (rounds_to_error _ _ RN) as NE.
  fold u t Hh in QE, NE.
  pose proof (normalized_error u t (IZR p) Hh (B2R Q) (B2R N)
                Ub (conj (Rlt_le _ _ T0) Tu) Pb Hb0 QE NE) as NErr.
  assert (Rabs (B2R N) <= 1) as N1 by (apply Rabs_le; lra).
  assert (rounds_to (B2R N * B2R T) x) as RX.
  { apply SFmul_rounds; try assumption.
    - exact (rounds_to_finite _ _ RN).
    - exact (rounds_to_valid _ _ RN).
    - apply (below_top _ 500); [lia |].
      rewrite Rabs_mult, (Rabs_pos_eq (B2R T)) by lra.
      pose proof (Rabs_pos (B2R N)). nra. }
  pose proof (rounds_to_error _ _ RX) as XE. fold u t in XE.
  destruct (there_error u t eps (B2R T) (B2R N) (B2R x) (B2R (tan (atan x)))
              Ub (conj (Rlt_le _ _ T0) Tt) Eb TP N1 XE YE)
    as (_ & YT & _).
  set (y := B2R (tan (atan x))) in *.
  assert (exists d : R, y = (B2R N + d) * B2R T /\ d = y / B2R T - B2R N)
    as (d & YD & DD) by (eexists; split; [| reflexivity]; field; lra).
  rewrite <- DD in YT. rewrite YD.
  apply Rabs_le_elim in YT. apply Rabs_le_elim in NErr.
  apply Rabs_le. split; nra.
Qed.

(** C6, as amended: on binary64, for an image below [2^53] pixels wide, two
    pixels at the same distance from its centre on opposite sides, and a
    libm whose [tan (fov / 2)] is a positive number between [2^-500] and
    [2^500] and whose [tan (atan x)] is within the relative error
    [eps <= 2^-10] of [x] at the two tangents [x] the code computes: the
    two tangents are opposite within the tolerance
    [(12 * 2^-53 + 4 * eps) * tan (fov / 2)]. *)
Theorem pixel_tan_from_fov_symmetric
    (tan atan : spec_float -> spec_float)
    (size : ImageSize) (fov : Radians spec_float) (p1 p2 : PixelIndex)
    (eps : R) :
  let T := tan (SFdiv prec emax (Angle.value fov) (of_Z 2)) in
  let x1 := SFmul prec emax (normalized p1 size) T in
  let x2 := SFmul prec emax (normalized p2 size) T in
  (0 < width size < 2 ^ 53)%Z ->
  (0 <= value p1)%Z -> (0 <= value p2)%Z ->
  (value p1 + value p2 = width size)%Z ->
  is_finite T = true -> valid_binary prec emax T = true ->
  powerRZ 2 (-500) <= B2R T <= powerRZ 2 500 ->
  0 <= eps <= / 1024 ->
  close_to eps x1 (tan (atan x1)) -> close_to eps x2 (tan (atan x2)) ->
  Rabs (B2R (Angle.tan (TD := libm_trig tan atan)
               (pixel_tan_from_fov (TD := libm_trig tan atan) p1 size fov))
        + B2R (Angle.tan (TD := libm_trig tan atan)
                 (pixel_tan_from_fov (TD := libm_trig tan atan) p2 size fov)))
  <= (12 * powerRZ 2 (-53) + 4 * eps) * B2R T.
Proof.
  intros T x1 x2 W P1 P2 S TF TV TB E C1 C2.
  destruct p1 as [v1], p2 as [v2]. cbn [value] in *.
  pose proof (fov_tangent_error tan atan size fov v1 eps W ltac:(lia)
                TF TV TB E C1) as E1.
  pose proof (fov_tangent_error tan atan size fov v2 eps W ltac:(lia)
                TF TV TB E C2) as E2.
  cbv zeta in E1, E2. fold T in E1, E2. fold x1 in E1. fold x2 in E2.
  change (Angle.tan (TD := libm_trig tan atan)
            (pixel_tan_from_fov (TD := libm_trig tan atan)
               {| value := v1 |} size fov)) with (tan (atan x1)).
  change (Angle.tan (TD := libm_trig tan atan)
            (pixel_tan_from_fov (TD := libm_trig tan atan)
               {| value := v2 |} size fov)) with (tan (atan x2)).
  assert (1 <= IZR (width size)) as Wr0 by (apply IZR_le; lia).
  assert (IZR v1 / (IZR (width size) / 2) - 1
          = - (IZR v2 / (IZR (width size) / 2) - 1)) as Opp.
  { rewrite <- S, plus_IZR. field. rewrite <- plus_IZR, S. lra. }
  rewrite Opp in E1.
  apply Rabs_le_elim in E1. apply Rabs_le_elim in E2.
  apply Rabs_le. lra.
Qed.

(** C1, as amended: [pixel_tan_from_fov] returns the angle
    [atan (norm * tan (fov / 2))], each operation evaluated in binary64,
    with [norm = pixel.value / half_width - 1.0]; for a libm whose
    [tan (atan x)] is within the relative error [eps] of [x] there, the
    tangent of that angle is [norm * tan (fov / 2)] up to that error and the
    rounding of the product. *)
Theorem pixel_tan_from_fov_tangent
    (tan atan : spec_float -> spec_float)
    (pixel : PixelIndex) (image_size : ImageSize) (fov : Radians spec_float)
    (eps : R) :
  let T := tan (SFdiv prec emax (Angle.value fov) (of_Z 2)) in
  let norm := normalized pixel image_size in
  (0 < width image_size)%Z -> is_u64 (width image_size) ->
  is_u64 (value pixel) ->
  is_finite T = true -> valid_binary prec emax T = true ->
  Rabs (B2R norm * B2R T) < powerRZ 2 1023 ->
  0 <= eps -> close_to eps (SFmul prec emax norm T)
                (tan (atan (SFmul prec emax norm T))) ->
  norm = SFsub prec emax
           (SFdiv prec emax (of_Z (value pixel)) (half_width image_size))
           (of_Z 1)
  /\ Angle.value (pixel_tan_from_fov (TD := libm_trig tan atan)
                    pixel image_size fov)
     = atan (SFmul prec emax norm T)
  /\ Rabs (B2R (Angle.tan (TD := libm_trig tan atan)
                  (pixel_tan_from_fov (TD := libm_trig tan atan)
                     pixel image_size fov))
           - B2R norm * B2R T)
     <= (eps + (1 + eps) * powerRZ 2 (-53)) * Rabs (B2R norm * B2R T)
        + (1 + eps) * powerRZ 2 (-1075).
Proof.
  intros T norm W0 [_ W1] PU TF TV Small E (YF & YV & YE).
  split; [reflexivity |]. split; [reflexivity |].
  set (x := SFmul prec emax norm T) in *.
  change (Angle.tan (TD := libm_trig tan atan)
            (pixel_tan_from_fov (TD := libm_trig tan atan)
               pixel image_size fov)) with (tan (atan x)).
  destruct (normalized_rounds pixel image_size (conj W0 W1) PU)
    as (_ & _ & _ & _ & _ & RN).
  fold norm in RN.
  assert (rounds_to (B2R norm * B2R T) x) as RX.
  { apply SFmul_rounds; try assumption.
    - exact (rounds_to_finite _ _ RN).
    - exact (rounds_to_valid _ _ RN). }
  pose proof (rounds_to_error _ _ RX) as XE.
  pose proof (powerRZ_2_pos (-53)) as U0.
  pose proof (powerRZ_2_pos (-1075)) as T0.
  set (a := Rabs (B2R norm * B2R T)) in *.
  assert (0 <= a) as A0 by apply Rabs_pos.
  assert (Rabs (B2R x) <= a * (1 + powerRZ 2 (-53)) + powerRZ 2 (-1075))
    as XB.
  { apply Rabs_le_elim in XE. unfold a in *.
    unfold Rabs in *. destruct (Rcase_abs (B2R x)),
      (Rcase_abs (B2R norm * B2R T)); lra. }
  assert (Rabs (B2R (tan (atan x)) - B2R x)
          <= eps * (a * (1 + powerRZ 2 (-53)) + powerRZ 2 (-1075))) as YB.
  { apply Rle_trans with (1 := YE). now apply Rmult_le_compat_l. }
  apply Rabs_le_elim in XE. apply Rabs_le_elim in YB.
  apply Rabs_le. split; nra.
Qed.

(** *** The sample libm at the inputs of the examples *)

Lemma sample_tan_half_fov_30 :
  LibmSample.tan (SFdiv prec emax LibmSample.fov_30 (of_Z 2))
  = S754_finite false 4826943532748118 (-54).
Proof. vm_compute. reflexivity. Qed.

Lemma sample_normalized_pixel_6 :
  normalized {| value := 6 |} {| width := 640; height := 480 |}
  = S754_finite true 8838314268714598 (-53).
Proof. vm_compute. reflexivity. Qed.

Lemma sample_tangent_pixel_6_of_normalized :
  SFmul prec emax (S754_finite true 8838314268714598 (-53))
    (S754_finite false 5165545649814306 (-54))
  = S754_finite true 5068691668880288 (-54).
Proof. vm_compute. reflexivity. Qed.

Lemma sample_tangent_pixel_1 :
  SFmul prec emax
    (normalized {| value := 1 |} {| width := 20; height := 0 |})
    (S754_finite false 4826943532748118 (-54))
  = S754_finite true 8688498358946613 (-55).
Proof. vm_compute. reflexivity. Qed.

Lemma sample_tangent_pixel_19 :
  SFmul prec emax
    (normalized {| value := 19 |} {| width := 20; height := 0 |})
    (S754_finite false 4826943532748118 (-54))
  = S754_finite false 8688498358946612 (-55).
Proof. vm_compute. reflexivity. Qed.

Lemma sample_tan_atan_pixel_1 :
  LibmSample.tan
    (LibmSample.atan (S754_finite true 8688498358946613 (-55)))
  = S754_finite true 8688498358946613 (-55).
Proof. vm_compute. reflexivity. Qed.

Lemma sample_tan_atan_pixel_19 :
  LibmSample.tan
    (LibmSample.atan (S754_finite false 8688498358946612 (-55)))
  = S754_finite false 8688498358946612 (-55).
Proof. vm_compute. reflexivity. Qed.

(** The size of a finite number, from its exponent. *)
Lemma Rabs_B2R_below (s : bool) (m : positive) (e k : Z) :
  (Zpos m < 2 ^ 53)%Z -> (e + 53 <= k)%Z ->
  Rabs (B2R (S754_finite s m e)) <= powerRZ 2 k.
Proof.
  intros M K. rewrite Rabs_B2R. cbn [B2R cond_Zopp].
  apply IZR_lt in M. rewrite IZR_pow2 in M by lia.
  pose proof (powerRZ_2_pos e) as PE.
  apply Rle_trans with (powerRZ 2 (53 + e)); [| apply powerRZ_2_le; lia].
  rewrite powerRZ_2_add. nra.
Qed.

Lemma pixel_tan_from_fov_tangent_witness :
  Rabs (B2R (Angle.tan (TD := LibmSample.libm)
               (pixel_tan_from_fov (TD := LibmSample.libm)
                  {| value := 6 |} {| width := 640; height := 480 |}
                  (Angle.make LibmSample.fov_32)))
        - B2R (normalized {| value := 6 |}
                 {| width := 640; height := 480 |})
          * B2R (LibmSample.tan
                   (SFdiv prec emax LibmSample.fov_32 (of_Z 2))))
  <= (powerRZ 2 (- 40) + (1 + powerRZ 2 (- 40)) * powerRZ 2 (-53))
     * Rabs (B2R (normalized {| value := 6 |}
                    {| width := 640; height := 480 |})
             * B2R (LibmSample.tan
                      (SFdiv prec emax LibmSample.fov_32 (of_Z 2))))
     + (1 + powerRZ 2 (- 40)) * powerRZ 2 (-1075).
Proof.
  apply (pixel_tan_from_fov_tangent LibmSample.tan LibmSample.atan
           {| value := 6 |} {| width := 640; height := 480 |}
           (Angle.make LibmSample.fov_32) (powerRZ 2 (- 40))).
  - simpl. lia.
  - unfold is_u64, u64_max. simpl. lia.
  - unfold is_u64, u64_max. simpl. lia.
  - cbn [Angle.value]. now rewrite sample_tan_half_fov_32.
  - cbn [Angle.value]. now rewrite sample_tan_half_fov_32.
  - cbn [Angle.value].
    rewrite sample_tan_half_fov_32, sample_normalized_pixel_6.
    apply (below_top _ 0); [lia |]. rewrite Rabs_mult.
    pose proof (Rabs_B2R_below true 8838314268714598 (-53) 0
                  ltac:(simpl; lia) ltac:(lia)) as A.
    pose proof (Rabs_B2R_below false 5165545649814306 (-54) 0
                  ltac:(simpl; lia) ltac:(lia)) as B.
    simpl (powerRZ 2 0) in *.
    pose proof (Rabs_pos (B2R (S754_finite true 8838314268714598 (-53)))).
    pose proof (Rabs_pos (B2R (S754_finite false 5165545649814306 (-54)))).
    nra.
  - pose proof (powerRZ_2_pos (- 40)). lra.
  - cbn [Angle.value].
    rewrite sample_tan_half_fov_32, sample_normalized_pixel_6,
      sample_tangent_pixel_6_of_normalized, sample_tan_atan_pixel_6.
    apply (close_same_exponent true _ _ (-54) 40);
      [reflexivity | lia | vm_compute; discriminate].
Defined.

(** C1 as stated fails on binary64 with a correctly rounded libm: for pixel
    6 of a 640 pixel wide image and a field of view of 32 degrees, the
    tangent of the returned angle is [-0.28136890977583023], and
    [norm * tan (fov / 2)] is [-0.2813689097758303]. *)
Lemma pixel_tan_from_fov_tangent_inexact :
  (0 < width {| width := 640; height := 480 |})%Z
  /\ Angle.tan (TD := LibmSample.libm)
       (pixel_tan_from_fov (TD := LibmSample.libm)
          {| value := 6 |} {| width := 640; height := 480 |}
          (Angle.make LibmSample.fov_32))
     = S754_finite true 5068691668880287 (-54)
  /\ d_mul (normalized {| value := 6 |} {| width := 640; height := 480 |})
       (LibmSample.tan (d_div LibmSample.fov_32 d_two))
     = S754_finite true 5068691668880288 (-54)
  /\ SFeqb
       (Angle.tan (TD := LibmSample.libm)
          (pixel_tan_from_fov (TD := LibmSample.libm)
             {| value := 6 |} {| width := 640; height := 480 |}
             (Angle.make LibmSample.fov_32)))
       (d_mul (normalized {| value := 6 |}
                 {| width := 640; height := 480 |})
          (LibmSample.tan (d_div LibmSample.fov_32 d_two)))
     = false
  /\ B2R (Angle.tan (TD := LibmSample.libm)
            (pixel_tan_from_fov (TD := LibmSample.libm)
               {| value := 6 |} {| width := 640; height := 480 |}
               (Angle.make LibmSample.fov_32)))
     <> B2R (normalized {| value := 6 |} {| width := 640; height := 480 |})
        * B2R (LibmSample.tan (d_div LibmSample.fov_32 d_two)).
Proof.
  assert (Angle.tan (TD := LibmSample.libm)
            (pixel_tan_from_fov (TD := LibmSample.libm)
               {| value := 6 |} {| width := 640; height := 480 |}
               (Angle.make LibmSample.fov_32))
          = S754_finite true 5068691668880287 (-54)) as A
    by (vm_compute; reflexivity).
  assert (LibmSample.tan (d_div LibmSample.fov_32 d_two)
          = S754_finite false 5165545649814306 (-54)) as T
    by (vm_compute; reflexivity).
  split; [simpl; lia |]. split; [exact A |].
  split; [vm_compute; reflexivity |].
  split; [vm_compute; reflexivity |].
  rewrite A, T, sample_normalized_pixel_6, !B2R_neg_exp.
  cbn [cond_Zopp Z.opp].
  change (2 ^ 54)%Z with 18014398509481984%Z.
  change (2 ^ 53)%Z with 9007199254740992%Z.
  lra.
Qed.

Lemma pixel_tan_from_fov_symmetric_witness :
  Rabs (B2R (Angle.tan (TD := LibmSample.libm)
               (pixel_tan_from_fov (TD := LibmSample.libm)
                  {| value := 1 |} {| width := 20; height := 0 |}
                  (Angle.make LibmSample.fov_30)))
        + B2R (Angle.tan (TD := LibmSample.libm)
                 (pixel_tan_from_fov (TD := LibmSample.libm)
                    {| value := 19 |} {| width := 20; height := 0 |}
                    (Angle.make LibmSample.fov_30))))
  <= (12 * powerRZ 2 (-53) + 4 * powerRZ 2 (- 40))
     * B2R (LibmSample.tan (SFdiv prec emax LibmSample.fov_30 (of_Z 2))).
Proof.
  apply (pixel_tan_from_fov_symmetric LibmSample.tan LibmSample.atan
           {| width := 20; height := 0 |} (Angle.make LibmSample.fov_30)
           {| value := 1 |} {| value := 19 |} (powerRZ 2 (- 40))).
  - simpl. lia.
  - simpl. lia.
  - simpl. lia.
  - reflexivity.
  - cbn [Angle.value]. now rewrite sample_tan_half_fov_30.
  - cbn [Angle.value]. now rewrite sample_tan_half_fov_30.
  - cbn [Angle.value]. rewrite sample_tan_half_fov_30.
    apply normal_range; [reflexivity | lia | lia].
  - split; [pose proof (powerRZ_2_pos (- 40)); lra |].
    apply Rle_trans with (powerRZ 2 (-10)); [apply powerRZ_2_le; lia |].
    simpl. lra.
  - cbn [Angle.value].
    rewrite sample_tan_half_fov_30, sample_tangent_pixel_1,
      sample_tan_atan_pixel_1.
    apply (close_same_exponent true _ _ (-55) 40);
      [reflexivity | lia | vm_compute; discriminate].
  - cbn [Angle.value].
    rewrite sample_tan_half_fov_30, sample_tangent_pixel_19,
      sample_tan_atan_pixel_19.
    apply (close_same_exponent false _ _ (-55) 40);
      [reflexivity | lia | vm_compute; discriminate].
Defined.

(** C6 as stated fails on binary64: on a 20 pixel wide image the pixels 1
    and 19 have the normalized coordinates [-0.9] and
    [0.8999999999999999], whatever libm is; with a correctly rounded libm
    and a field of view of 30 degrees their tangents are
    [-0.24115427318801044] and [0.24115427318801042]. *)
Lemma pixel_tan_from_fov_asymmetric :
  (0 < width {| width := 20; height := 0 |})%Z
  /\ (value {| value := 1 |} + value {| value := 19 |}
      = width {| width := 20; height := 0 |})%Z
  /\ normalized {| value := 1 |} {| width := 20; height := 0 |}
     = S754_finite true 8106479329266893 (-53)
  /\ normalized {| value := 19 |} {| width := 20; height := 0 |}
     = S754_finite false 8106479329266892 (-53)
  /\ Angle.tan (TD := LibmSample.libm)
       (pixel_tan_from_fov (TD := LibmSample.libm)
          {| value := 1 |} {| width := 20; height := 0 |}
          (Angle.make LibmSample.fov_30))
     = S754_finite true 8688498358946613 (-55)
  /\ Angle.tan (TD := LibmSample.libm)
       (pixel_tan_from_fov (TD := LibmSample.libm)
          {| value := 19 |} {| width := 20; height := 0 |}
          (Angle.make LibmSample.fov_30))
     = S754_finite false 8688498358946612 (-55)
  /\ SFeqb
       (Angle.tan (TD := LibmSample.libm)
          (pixel_tan_from_fov (TD := LibmSample.libm)
             {| value := 1 |} {| width := 20; height := 0 |}
             (Angle.make LibmSample.fov_30)))
       (SFopp
          (Angle.tan (TD := LibmSample.libm)
             (pixel_tan_from_fov (TD := LibmSample.libm)
                {| value := 19 |} {| width := 20; height := 0 |}
                (Angle.make LibmSample.fov_30))))
     = false
  /\ B2R (Angle.tan (TD := LibmSample.libm)
            (pixel_tan_from_fov (TD := LibmSample.libm)
               {| value := 1 |} {| width := 20; height := 0 |}
               (Angle.make LibmSample.fov_30)))
     <> - B2R (Angle.tan (TD := LibmSample.libm)
                 (pixel_tan_from_fov (TD := LibmSample.libm)
                    {| value := 19 |} {| width := 20; height := 0 |}
                    (Angle.make LibmSample.fov_30))).
Proof.
  assert (Angle.tan (TD := LibmSample.libm)
            (pixel_tan_from_fov (TD := LibmSample.libm)
               {| value := 1 |} {| width := 20; height := 0 |}
               (Angle.make LibmSample.fov_30))
          = S754_finite true 8688498358946613 (-55)) as A
    by (vm_compute; reflexivity).
  assert (Angle.tan (TD := LibmSample.libm)
            (pixel_tan_from_fov (TD := LibmSample.libm)
               {| value := 19 |} {| width := 20; height := 0 |}
               (Angle.make LibmSample.fov_30))
          = S754_finite false 8688498358946612 (-55)) as B
    by (vm_compute; reflexivity).
  split; [simpl; lia |]. split; [reflexivity |].
  split; [vm_compute; reflexivity |]. split; [vm_compute; reflexivity |].
  split; [exact A |]. split; [exact B |].
  split; [vm_compute; reflexivity |].
  rewrite A, B, !B2R_neg_exp. cbn [cond_Zopp Z.opp].
  change (2 ^ 55)%Z with 36028797018963968%Z.
  lra.
Qed.

End FovTangents.

(** * Further properties of the conversions *)

(** ** On binary64 *)

Section Binary64Edges.

Import Binary64 Binary64Harness.

(** *** Values that are not finite *)










(** *** Degenerate images and thresholds *)

(** X15: On an image of width 0, [normalized] is NaN for pixel 0 and plus
    infinity for every other pixel. *)
Theorem normalized_zero_width (p : PixelIndex) (size : ImageSize) :
  width size = 0%Z -> is_u64 (value p) ->
  normalized p size
  = if (value p =? 0)%Z then S754_nan else S754_infinity false.
Proof.
  intros W [P0 P1]. unfold normalized, half_width. rewrite W.
  cbn [d_sub d_div d_of_u64 d_one d_two b64_arith].
  change (SFdiv prec emax (of_Z 0) (of_Z 2)) with (S754_zero false).
  destruct (Z.eqb_spec (value p) 0) as [-> | NZ]; [reflexivity |].
  destruct (of_Z_u64 (value p)) as (m & e & -> & _); [lia |].
  reflexivity.
Qed.

Lemma normalized_zero_width_witness :
  normalized {| value := 12 |} {| width := 0; height := 480 |}
  = S754_infinity false.
Proof.
  apply (normalized_zero_width {| value := 12 |}
           {| width := 0; height := 480 |}).
  - reflexivity.
  - unfold is_u64, u64_max. simpl. lia.
Defined.

Lemma SFmul_zero_sign (x : spec_float) (s : bool) :
  has_sign true (SFmul prec emax x (S754_zero s)) = true.
Proof. now destruct x. Qed.

(** X16: No dead zone without a usable bound: with a NaN threshold, or on an
    image of width 0, the clipped conversion is the plain linear one. *)
Theorem clipped_without_dead_zone
    (p : PixelIndex) (size : ImageSize) (k threshold : spec_float) :
  threshold = S754_nan \/ width size = 0%Z ->
  pixel_tan_by_pixel_2_tan_clipped p size k threshold
  = pixel_tan_by_pixel_2_tan p size k.
Proof.
  intros C.
  unfold pixel_tan_by_pixel_2_tan_clipped, pixel_tan_by_pixel_2_tan.
  cbn [d_ltb d_abs d_mul b64_arith].
  rewrite SFltb_opposite_signs; [reflexivity | apply SFabs_sign |].
  destruct C as [-> | W].
  - reflexivity.
  - unfold half_width. rewrite W.
    cbn [d_div d_of_u64 d_two b64_arith].
    change (SFdiv prec emax (of_Z 0) (of_Z 2)) with (S754_zero false).
    apply SFmul_zero_sign.
Qed.

Lemma clipped_without_dead_zone_witness :
  pixel_tan_by_pixel_2_tan_clipped {| value := 320 |}
    {| width := 640; height := 480 |} (of_Z 3) S754_nan
  = pixel_tan_by_pixel_2_tan {| value := 320 |}
      {| width := 640; height := 480 |} (of_Z 3).
Proof.
  apply (clipped_without_dead_zone {| value := 320 |}
           {| width := 640; height := 480 |} (of_Z 3) S754_nan).
  left. reflexivity.
Defined.

(** *** Exact quotients *)

(** Two normal numbers with the same mantissa: the quotient is the power of
    two their exponents give. *)
Lemma div_same_mantissa (m : positive) (e1 e2 : Z) :
  digits2_pos m = 53%positive ->
  (0 <= e1 - e2 <= 1)%Z ->
  SFdiv prec emax (S754_finite false m e1) (S754_finite false m e2)
  = S754_finite false 4503599627370496 (e1 - e2 - 52).
Proof.
  intros Dm E.
  unfold SFdiv.
  assert (SFdiv_core_binary prec emax (Zpos m) e1 (Zpos m) e2
          = (2 ^ 53, e1 - e2 - 53, loc_Exact)%Z) as C.
  { unfold SFdiv_core_binary, fexp, emin, Zdigits2.
    rewrite Dm.
    replace (Z.min (Z.max (53 + e1 - (53 + e2) - prec) (3 - emax - prec))
               (e1 - e2))
      with (e1 - e2 - 53)%Z by (unfold prec, emax; lia).
    replace (e1 - e2 - (e1 - e2 - 53))%Z with 53%Z by lia.
    cbv iota beta.
    destruct (Z.div_eucl _ _) as [q r] eqn:DE.
    assert (q = Z.shiftl (Zpos m) 53 / Zpos m)%Z as Q
        by (unfold Z.div; now rewrite DE).
    assert (r = Z.shiftl (Zpos m) 53 mod Zpos m)%Z as R
        by (unfold Z.modulo; now rewrite DE).
    rewrite Z.shiftl_mul_pow2, Z.mul_comm in Q, R by lia.
    rewrite Z.div_mul in Q by lia. rewrite Z.mod_mul in R by lia.
    subst q r. unfold new_location.
    destruct (Z.even (Zpos m)); reflexivity. }
  rewrite C. cbn [xorb].
  assert (shr_fexp prec emax (2 ^ 53) (e1 - e2 - 53) loc_Exact
          = ({| shr_m := 4503599627370496; shr_r := false; shr_s := false |},
             e1 - e2 - 52)%Z) as S1.
  { unfold shr_fexp, fexp, emin.
    change (Zdigits2 (2 ^ 53)) with 54%Z.
    replace (Z.max (54 + (e1 - e2 - 53) - prec) (3 - emax - prec)
             - (e1 - e2 - 53))%Z with 1%Z by (unfold prec, emax; lia).
    unfold shr. cbn [iter_pos]. f_equal. lia. }
  assert (shr_fexp prec emax 4503599627370496 (e1 - e2 - 52) loc_Exact
          = ({| shr_m := 4503599627370496; shr_r := false; shr_s := false |},
             e1 - e2 - 52)%Z) as S2.
  { unfold shr_fexp, fexp, emin.
    change (Zdigits2 4503599627370496) with 53%Z.
    replace (Z.max (53 + (e1 - e2 - 52) - prec) (3 - emax - prec)
             - (e1 - e2 - 52))%Z with 0%Z by (unfold prec, emax; lia).
    reflexivity. }
  unfold binary_round_aux. rewrite S1.
  cbn [shr_m loc_of_shr_record round_nearest_even].
  rewrite S2. cbn [shr_m].
  replace (e1 - e2 - 52 <=? emax - prec)%Z with true; [reflexivity |].
  symmetry. apply Z.leb_le. unfold emax, prec. lia.
Qed.

(** Half an even integer below [2^53] is the integer half, converted. *)
Lemma half_of_even (c : Z) :
  (0 < c)%Z -> (2 * c < 2 ^ 53)%Z ->
  SFdiv prec emax (of_Z (2 * c)) (of_Z 2) = of_Z c.
Proof.
  intros C0 C1.
  destruct c as [| c | c]; try lia.
  change (2 * Zpos c)%Z with (Zpos c~0) in *.
  destruct (of_Z_small c~0 C1) as (m & k & E & Dm & K & M).
  destruct (of_Z_small c) as (m' & k' & E' & Dm' & K' & M'); [lia |].
  rewrite E, E', halve_canonical by (try assumption; lia).
  pose proof (digits2_pos_bounds m) as [ML MU].
  pose proof (digits2_pos_bounds m') as [ML' MU'].
  rewrite Dm in ML, MU. rewrite Dm' in ML', MU'.
  change (53 - 1)%Z with 52%Z in *.
  rewrite Pos2Z.inj_xO in M.
  assert (k' = k + 1)%Z as ->.
  { destruct (Z.lt_trichotomy k' (k + 1)) as [L | [Eq | G]];
      [exfalso | exact Eq | exfalso].
    - assert (2 ^ k' <= 2 ^ k)%Z by (apply Z.pow_le_mono_r; lia).
      change (2 ^ 53)%Z with (2 * 2 ^ 52)%Z in MU. nia.
    - assert (2 ^ (k + 2) <= 2 ^ k')%Z by (apply Z.pow_le_mono_r; lia).
      replace (k + 2)%Z with (Z.succ (Z.succ k)) in * by lia.
      rewrite !Z.pow_succ_r in * by lia.
      change (2 ^ 53)%Z with (2 * 2 ^ 52)%Z in MU'. nia. }
  assert (m' = m) as ->.
  { apply Pos2Z.inj. rewrite M, M'.
    replace (k + 1)%Z with (Z.succ k) by lia.
    rewrite Z.pow_succ_r by lia. ring. }
  f_equal. lia.
Qed.

Lemma SFsub_diag (x : spec_float) :
  is_finite x = true -> SFsub prec emax x x = S754_zero false.
Proof.
  destruct x as [s | s | | s m e]; try discriminate; intros _.
  - now destruct s.
  - cbn [SFsub]. rewrite Z.sub_diag. reflexivity.
Qed.

(** *** Landmark pixels *)

(** X17: [normalized] hits its landmarks exactly: the left edge is [-1.0] and
    the right edge [1.0] on every image of positive width, and on an image
    of even width below [2^53] the centre is [+0.0]. *)
Theorem normalized_landmarks (size : ImageSize) :
  (0 < width size)%Z -> is_u64 (width size) ->
  normalized {| value := 0 |} size = of_Z (-1)
  /\ normalized {| value := width size |} size = of_Z 1
  /\ (forall c : Z,
         (2 * c = width size)%Z -> (width size < 2 ^ 53)%Z ->
         normalized {| value := c |} size = S754_zero false).
Proof.
  intros W0 [_ W1].
  destruct (of_Z_u64 (width size) (conj W0 W1)) as (m & e & E & Dm & B).
  assert (half_width size = S754_finite false m (e - 1)) as HW.
  { unfold half_width. cbn [d_div d_of_u64 d_two b64_arith].
    rewrite E. apply halve_canonical; [exact Dm | lia]. }
  unfold normalized. cbn [value d_sub d_div d_of_u64 d_one b64_arith].
  repeat split.
  - rewrite HW. reflexivity.
  - rewrite HW, E, div_same_mantissa by (try assumption; lia).
    replace (e - (e - 1) - 52)%Z with (-51)%Z by lia. reflexivity.
  - intros c C S.
    assert (of_Z c = half_width size) as ->.
    { unfold half_width. cbn [d_div d_of_u64 d_two b64_arith].
      rewrite <- C. symmetry. apply half_of_even; lia. }
    rewrite HW, div_same_mantissa by (try assumption; lia).
    replace (e - 1 - (e - 1) - 52)%Z with (-52)%Z by lia. reflexivity.
Qed.

Lemma normalized_landmarks_witness :
  normalized {| value := 0 |} {| width := 480; height := 0 |} = of_Z (-1)
  /\ normalized {| value := 480 |} {| width := 480; height := 0 |} = of_Z 1.
Proof.
  destruct (normalized_landmarks {| width := 480; height := 0 |})
    as (L & R & _).
  - simpl. lia.
  - unfold is_u64, u64_max. simpl. lia.
  - split; assumption.
Defined.

(** X18: The centre pixel of an image of even width below [2^53] has a linear
    tangent that is a zero for every finite scale, also when clipped,
    whatever the threshold. *)
Theorem centre_pixel_tangent_zero
    (size : ImageSize) (c : Z) (k threshold : spec_float) :
  (0 < c)%Z -> (2 * c = width size)%Z -> (width size < 2 ^ 53)%Z ->
  is_finite k = true ->
  (exists s : bool,
      pixel_tan_by_pixel_2_tan {| value := c |} size k = S754_zero s)
  /\ (exists s : bool,
        pixel_tan_by_pixel_2_tan_clipped {| value := c |} size k threshold
        = S754_zero s).
Proof.
  intros C0 C W K.
  assert (of_Z c = half_width size) as HC.
  { unfold half_width. cbn [d_div d_of_u64 d_two b64_arith].
    rewrite <- C. symmetry. apply half_of_even; lia. }
  assert (is_finite (half_width size) = true) as HF.
  { apply half_width_is_finite. unfold is_u64, u64_max.
    change (2 ^ 53)%Z with 9007199254740992%Z in W. lia. }
  assert (exists s : bool,
             pixel_tan_by_pixel_2_tan {| value := c |} size k = S754_zero s)
    as Plain.
  { unfold pixel_tan_by_pixel_2_tan.
    cbn [value d_sub d_mul d_of_u64 b64_arith].
    rewrite HC, SFsub_diag by exact HF.
    destruct k as [s | s | | s m e]; try discriminate K; eexists;
      reflexivity. }
  split; [exact Plain |].
  unfold pixel_tan_by_pixel_2_tan_clipped.
  destruct (_ <? _)%D; [now exists false |].
  exact Plain.
Qed.

Lemma centre_pixel_tangent_zero_witness :
  exists s : bool,
    pixel_tan_by_pixel_2_tan_clipped {| value := 320 |}
      {| width := 640; height := 480 |} (decimal 25 10000) (decimal 5 100)
    = S754_zero s.
Proof.
  apply (centre_pixel_tangent_zero {| width := 640; height := 480 |} 320
           (decimal 25 10000) (decimal 5 100)).
  - lia.
  - reflexivity.
  - simpl. lia.
  - vm_compute. reflexivity.
Defined.

(** *** Rounding against truncation *)

(** [std::round] on a non-negative value, then the conversion: the integer
    part of the value plus one half. *)
Lemma round_away_to_u64_floor (m : positive) (e v : Z) :
  (Zpos m < 2 ^ 53)%Z ->
  to_u64 (round_away (S754_finite false m e)) = Some v ->
  (IZR v <= B2R (S754_finite false m e) + / 2 < IZR v + 1)%R.
Proof.
  intros X T.
  destruct (Z.le_gt_cases 0 e) as [E | E].
  - assert (round_away (S754_finite false m e) = S754_finite false m e) as RA
        by (destruct e; try lia; reflexivity).
    rewrite RA in T.
    destruct (to_u64_integer false m e v E T) as (_ & -> & _).
    rewrite B2R_nonneg_exp by exact E. lra.
  - destruct e as [| e | d]; try lia. clear E.
    cbn [round_away cond_Zopp] in T.
    pose proof (round_quotient m d) as [L U].
    pose proof (round_quotient_small m d X) as [Q0 Q1].
    cbv zeta in L, U.
    set (q := Z.shiftr (Zpos m + Z.shiftl 1 (Zpos d - 1)) (Zpos d)) in *.
    change (binary_normalize prec emax q 0 false) with (of_Z q) in T.
    rewrite to_u64_of_Z_small in T by lia. injection T as <-.
    assert (0 < 2 ^ Zpos d)%Z as P0 by (apply Z.pow_pos_nonneg; lia).
    rewrite B2R_neg_exp. cbn [cond_Zopp].
    apply IZR_lt in P0. apply IZR_le in L. apply IZR_lt in U.
    rewrite plus_IZR, !mult_IZR in L.
    rewrite !plus_IZR, !mult_IZR in U.
    set (b := IZR (2 ^ Zpos d)) in *.
    set (y := (IZR (Zpos m) / b)%R).
    assert (IZR (Zpos m) = y * b)%R as Y by (unfold y; field; lra).
    rewrite Y in L, U. split; nra.
Qed.

(** A non-negative value below [2^64] converts. *)
Lemma to_u64_defined (m : positive) (e : Z) :
  (Zpos m < 2 ^ 53)%Z -> (e <= 11)%Z ->
  exists v : Z, to_u64 (S754_finite false m e) = Some v.
Proof.
  intros M E. unfold to_u64.
  destruct (_ =? 0)%Z; [now exists 0%Z |].
  assert (trunc_mag m e <= u64_max)%Z as T.
  { unfold trunc_mag, u64_max.
    change (2 ^ 53)%Z with 9007199254740992%Z in M.
    change (2 ^ 64 - 1)%Z with 18446744073709551615%Z.
    destruct e as [| e | d].
    - simpl. lia.
    - rewrite Z.shiftl_mul_pow2 by lia.
      assert (2 ^ Zpos e <= 2 ^ 11)%Z as P by (apply Z.pow_le_mono_r; lia).
      assert (0 < 2 ^ Zpos e)%Z as P0 by (apply Z.pow_pos_nonneg; lia).
      change (2 ^ 11)%Z with 2048%Z in P. nia.
    - rewrite Z.shiftr_div_pow2 by lia.
      assert (0 < 2 ^ Zpos d)%Z as P0 by (apply Z.pow_pos_nonneg; lia).
      apply Z.le_trans with (Zpos m); [| lia].
      apply Z.div_le_upper_bound; nia. }
  apply Z.leb_le in T. rewrite T. eauto.
Qed.

(** X20: A zero tangent, on an image of positive width below [2^53]: with
    rounding the pixel is [(width + 1) / 2] (integer division), in the
    linear and in the field-of-view model; truncation gives [width / 2].
    The two differ when the width is odd. *)
Theorem zero_tangent_pixel
    (size : ImageSize) (k : spec_float)
    (tan atan : spec_float -> spec_float) (fov : Radians spec_float) :
  (0 < width size < 2 ^ 53)%Z ->
  is_nonzero k = true ->
  is_nonzero (tan (SFdiv prec emax (Angle.value fov) (of_Z 2))) = true ->
  let zero := S754_zero false in
  angle_tan_to_pixel (Angle.make zero) size k
  = Some {| value := (width size + 1) / 2 |}
  /\ tan_2_pixel_by_pixel_2_tan (Angle.make zero) size k true
     = Some {| value := (width size + 1) / 2 |}
  /\ tan_2_pixel_by_pixel_2_tan (Angle.make zero) size k false
     = Some {| value := width size / 2 |}
  /\ tan_2_pixel_by_fov (TD := libm_trig tan atan) zero size fov
     = Some {| value := (width size + 1) / 2 |}.
Proof.
  intros [W0 W1] K H zero. subst zero.
  assert (width size <= u64_max)%Z as WU.
  { unfold u64_max. change (2 ^ 53)%Z with 9007199254740992%Z in W1.
    change (2 ^ 64 - 1)%Z with 18446744073709551615%Z. lia. }
  destruct (half_width_canonical size (conj W0 WU)) as (m & e & E & Dm & B).
  pose proof (half_width_exact size ltac:(lia)) as X. rewrite E in X.
  pose proof (digits2_pos_bounds m) as [_ MU]. rewrite Dm in MU.
  (* the rounded pixel *)
  destruct (round_away_to_u64 m e Dm B) as (v & T & _).
  pose proof (round_away_to_u64_floor m e v MU T) as [L U]. rewrite X in L, U.
  assert (v = (width size + 1) / 2)%Z as ->.
  { apply Z.div_unique with (width size + 1 - 2 * v)%Z; [| ring].
    left. split.
    - apply Z.le_0_sub, le_IZR. rewrite mult_IZR, plus_IZR. lra.
    - apply Z.lt_sub_lt_add_l, lt_IZR.
      rewrite !plus_IZR, mult_IZR. lra. }
  (* the truncated pixel *)
  destruct (to_u64_defined m e MU ltac:(lia)) as (v' & T').
  destruct (to_u64_truncates _ _ T') as [V0 [L' U']].
  rewrite Rabs_B2R, X in L', U'.
  assert (v' = width size / 2)%Z as ->.
  { apply Z.div_unique with (width size - 2 * v')%Z; [| ring].
    left. split.
    - apply Z.le_0_sub, le_IZR. rewrite mult_IZR. lra.
    - apply Z.lt_sub_lt_add_l, lt_IZR. rewrite plus_IZR, mult_IZR. lra. }
  assert (forall z : spec_float,
             is_nonzero z = true ->
             SFadd prec emax (SFdiv prec emax (S754_zero false) z)
               (S754_finite false m e)
             = S754_finite false m e) as Linear.
  { intros [s | s | | s mz ez]; try discriminate; reflexivity. }
  unfold angle_tan_to_pixel, tan_2_pixel_by_pixel_2_tan, tan_2_pixel_by_fov,
    to_pixel, Angle.tan, Angle.div.
  cbn [d_tan libm_trig d_div d_two d_add d_mul d_round d_to_u64 b64_arith
       Angle.value].
  rewrite E, (Linear k K), T, T'.
  repeat split.
  destruct (tan _) as [s | s | | s mh eh]; try discriminate H;
    cbn [SFdiv SFmul SFadd]; now rewrite T.
Qed.

Lemma zero_tangent_pixel_witness :
  angle_tan_to_pixel (Angle.make (S754_zero false))
    {| width := 641; height := 480 |} (decimal 25 10000)
  = Some {| value := 321 |}
  /\ tan_2_pixel_by_pixel_2_tan (Angle.make (S754_zero false))
       {| width := 641; height := 480 |} (decimal 25 10000) false
     = Some {| value := 320 |}.
Proof.
  destruct (zero_tangent_pixel {| width := 641; height := 480 |}
              (decimal 25 10000) (fun _ => of_Z 1) (fun x => x)
              (Angle.make (of_Z 1)))
    as (A & _ & C & _).
  - simpl. lia.
  - vm_compute. reflexivity.
  - reflexivity.
  - split; [exact A | exact C].
Defined.

End Binary64Edges.

(** ** The linear conversion and back *)

Section LinearRoundTrip.

Import Binary64.
Import Exact.
Local Open Scope R_scope.

(** The linear conversion and back, in real numbers with the rounding
    errors of binary64. *)
Lemma linear_error (u t k d x q H v : R) :
  0 < u -> u * 9007199254740992 = 1 ->
  0 <= t <= u / 8 * Rabs k -> 0 <= t <= u / 16 ->
  Rabs d <= 4294967296 -> 0 <= H <= 2147483648 ->
  Rabs (x - d * k) <= Rabs (d * k) * u + t ->
  (Rabs (x / k) <= 8589934592 -> Rabs (q - x / k) <= Rabs (x / k) * u + t) ->
  (Rabs (x / k) <= 8589934592 -> Rabs (q + H) <= 17179869184 ->
   Rabs (v - (q + H)) <= Rabs (q + H) * u + t) ->
  k <> 0 ->
  Rabs (x / k) <= 8589934592 /\ Rabs (q + H) <= 17179869184
  /\ Rabs (v - (d + H)) <= / 4.
Proof.
  intros U0 UV [T0 T1] [_ T2] D [H0 H1] X Q V K.
  assert (0 < Rabs k) as KP by now apply Rabs_pos_lt.
  set (e := x / k - d).
  assert (e * k = x - d * k) as EK by (unfold e; field; exact K).
  assert (Rabs e <= Rabs d * u + u / 8) as EB.
  { apply Rmult_le_reg_r with (Rabs k); [exact KP |].
    rewrite <- Rabs_mult, EK. rewrite Rabs_mult in X.
    pose proof (Rabs_pos d). nra. }
  assert (x / k = d + e) as XK by (unfold e; ring).
  assert (u = / 9007199254740992) as UE by (apply Rmult_eq_reg_r
    with 9007199254740992; [rewrite UV; field | lra]).
  assert (Rabs d * u <= / 2097152) as DU by (rewrite UE; lra).
  assert (Rabs e <= / 1048576) as EB' by (rewrite UE in EB; lra).
  pose proof (Rabs_le_elim _ _ D) as D'.
  pose proof (Rabs_le_elim _ _ EB') as E'.
  assert (Rabs (x / k) <= 8589934592) as R1.
  { rewrite XK. apply Rabs_le. lra. }
  specialize (Q R1).
  assert (Rabs (q - x / k) <= / 512) as Q'.
  { apply Rle_trans with (1 := Q). rewrite UE in *.
    apply Rle_trans with (8589934592 * / 9007199254740992
                          + / 9007199254740992 / 16); [| lra].
    apply Rplus_le_compat; [| lra].
    apply Rmult_le_compat_r; lra. }
  pose proof (Rabs_le_elim _ _ Q') as Q''.
  pose proof (Rabs_le_elim _ _ R1) as R1'.
  assert (Rabs (q + H) <= 17179869184) as S by (apply Rabs_le; lra).
  specialize (V R1 S).
  assert (Rabs (v - (q + H)) <= / 512) as V'.
  { apply Rle_trans with (1 := V). rewrite UE in *.
    apply Rle_trans with (17179869184 * / 9007199254740992
                          + / 9007199254740992 / 16); [| lra].
    apply Rplus_le_compat; [| lra].
    apply Rmult_le_compat_r; lra. }
  pose proof (Rabs_le_elim _ _ V') as V''.
  split; [exact R1 |]. split; [exact S |].
  rewrite XK in Q''. apply Rabs_le. lra.
Qed.

(** A finite number whose value is not 0 is not a zero. *)
Lemma nonzero_is_nonzero (y : spec_float) :
  is_finite y = true -> B2R y <> 0 -> is_nonzero y = true.
Proof.
  destruct y as [s | s | | s m e]; try discriminate; try reflexivity.
  cbn [B2R]. lra.
Qed.

(** The pixel-space value of the linear inverse on the linear tangent of
    a pixel: within a quarter of that pixel. *)
Lemma linear_round_trip_value
    (p : PixelIndex) (size : ImageSize) (k : spec_float) :
  let v := SFadd prec emax
             (SFdiv prec emax (pixel_tan_by_pixel_2_tan p size k) k)
             (half_width size) in
  (0 < width size <= 2 ^ 32)%Z -> (0 <= value p <= 2 ^ 32)%Z ->
  is_finite k = true -> valid_binary prec emax k = true ->
  powerRZ 2 (-500) <= Rabs (B2R k) <= powerRZ 2 500 ->
  is_finite v = true /\ valid_binary prec emax v = true
  /\ Rabs (B2R v - IZR (value p)) <= / 4.
Proof.
  intros v [W0 W1] [P0 P1] KF KV [KL KU].
  change (2 ^ 32)%Z with 4294967296%Z in *.
  assert (width size <= u64_max)%Z as WU
      by (unfold u64_max;
          change (2 ^ 64 - 1)%Z with 18446744073709551615%Z; lia).
  destruct (half_width_halves size (conj W0 WU)) as (HF & HV & HN & HB).
  rewrite B2R_of_Z_small in HB
    by (change (2 ^ 53)%Z with 9007199254740992%Z; lia).
  set (H := half_width size) in *.
  set (Hh := IZR (width size) / 2) in *.
  assert (rounds_to (IZR (value p)) (of_Z (value p))) as RP.
  { apply of_Z_rounds, u64_below_top. unfold is_u64, u64_max.
    change (2 ^ 64 - 1)%Z with 18446744073709551615%Z. lia. }
  pose proof (B2R_of_Z_small (value p)
                ltac:(change (2 ^ 53)%Z with 9007199254740992%Z; lia)) as PB.
  assert (1 <= IZR (width size) <= 4294967296) as [Wr0 Wr1]
      by (split; apply IZR_le; lia).
  assert (0 <= IZR (value p) <= 4294967296) as [Pr0 Pr1]
      by (split; apply IZR_le; lia).
  assert (/ 2 <= Hh <= 2147483648) as [Hb0 Hb1] by (unfold Hh; lra).
  (* the offset from the centre is exact *)
  set (D := SFsub prec emax (of_Z (value p)) H).
  assert (rounds_to (IZR (value p) - Hh) D) as RD.
  { rewrite <- PB, <- HB. apply SFsub_rounds; try assumption.
    - exact (rounds_to_finite _ _ RP).
    - exact (rounds_to_valid _ _ RP).
    - rewrite PB, HB. apply (below_top _ 33); [lia |].
      rewrite <- IZR_pow2 by lia. change (2 ^ 33)%Z with 8589934592%Z.
      apply Rabs_le. lra. }
  assert (B2R D = IZR (value p) - Hh) as DB.
  { apply (rounds_to_exact _ _ (2 * value p - width size) (-1) RD).
    - change (2 ^ 53)%Z with 9007199254740992%Z. lia.
    - lia.
    - rewrite minus_IZR, mult_IZR. unfold Hh. simpl (powerRZ 2 (-1)).
      field. }
  set (u := powerRZ 2 (-53)).
  set (t := powerRZ 2 (-1075)).
  pose proof unit_roundoff as UV. fold u in UV.
  pose proof (powerRZ_2_pos (-53)) as U0. fold u in U0.
  pose proof (powerRZ_2_pos (-1075)) as T0. fold t in T0.
  destruct (tiny_underflow (Rabs (B2R k)) KL) as [Tt Tu]. fold u t in Tt, Tu.
  pose proof (powerRZ_2_pos (-500)) as P500.
  assert (B2R k <> 0) as KN.
  { intros Z. rewrite Z, Rabs_R0 in KL. lra. }
  assert (Rabs (B2R D) <= 4294967296) as DA
      by (rewrite DB; apply Rabs_le; lra).
  (* the tangent *)
  assert (rounds_to (B2R D * B2R k) (SFmul prec emax D k)) as RX.
  { apply SFmul_rounds; try assumption.
    - exact (rounds_to_finite _ _ RD).
    - exact (rounds_to_valid _ _ RD).
    - apply (below_top _ 532); [lia |].
      replace 532%Z with (32 + 500)%Z by lia.
      rewrite powerRZ_2_add, <- (IZR_pow2 32), Rabs_mult by lia.
      change (2 ^ 32)%Z with 4294967296%Z.
      pose proof (Rabs_pos (B2R D)). pose proof (Rabs_pos (B2R k)). nra. }
  change (pixel_tan_by_pixel_2_tan p size k) with (SFmul prec emax D k) in v.
  set (X := SFmul prec emax D k) in *.
  pose proof (rounds_to_error _ _ RX) as XE. fold u t in XE.
  (* and back *)
  assert (Rabs (B2R X / B2R k) <= 8589934592 ->
          rounds_to (B2R X / B2R k) (SFdiv prec emax X k)) as RQ.
  { intros B. apply SFdiv_rounds; try assumption.
    - exact (rounds_to_finite _ _ RX).
    - exact (rounds_to_valid _ _ RX).
    - now apply nonzero_is_nonzero.
    - apply (below_top _ 33); [lia |].
      rewrite <- IZR_pow2 by lia. exact B. }
  set (Q := SFdiv prec emax X k) in *.
  assert (Rabs (B2R X / B2R k) <= 8589934592 ->
          Rabs (B2R Q + B2R H) <= 17179869184 ->
          rounds_to (B2R Q + B2R H) v) as RV.
  { intros B S. specialize (RQ B). apply SFadd_rounds; try assumption.
    - exact (rounds_to_finite _ _ RQ).
    - exact (rounds_to_valid _ _ RQ).
    - apply (below_top _ 34); [lia |].
      rewrite <- IZR_pow2 by lia. exact S. }
  rewrite HB in RV.
  assert (0 <= t <= u / 8 * Rabs (B2R k)) as A1 by (split; lra).
  assert (0 <= t <= u / 16) as A2 by (split; lra).
  assert (0 <= Hh <= 2147483648) as A3 by (split; lra).
  destruct (linear_error u t (B2R k) (B2R D) (B2R X) (B2R Q) Hh (B2R v)
              U0 UV A1 A2 DA A3 XE
              (fun B => rounds_to_error _ _ (RQ B))
              (fun B S => rounds_to_error _ _ (RV B S)) KN)
    as (B & S & VErr).
  specialize (RV B S).
  split; [exact (rounds_to_finite _ _ RV) |].
  split; [exact (rounds_to_valid _ _ RV) |].
  rewrite DB in VErr.
  replace (IZR (value p) - Hh + Hh) with (IZR (value p)) in VErr by ring.
  exact VErr.
Qed.

(** X4: the linear conversion and back on binary64, for an image at most
    [2^32] pixels wide, a pixel index up to [2^32] and a scale between
    [2^-500] and [2^500] in size: with rounding the pixel comes back as it
    was; without rounding it comes back as it was or one lower. *)
Theorem linear_round_trip
    (p : PixelIndex) (size : ImageSize) (k : spec_float) :
  let t := Angle.make (pixel_tan_by_pixel_2_tan p size k) in
  (0 < width size <= 2 ^ 32)%Z -> (0 <= value p <= 2 ^ 32)%Z ->
  is_finite k = true -> valid_binary prec emax k = true ->
  powerRZ 2 (-500) <= Rabs (B2R k) <= powerRZ 2 500 ->
  angle_tan_to_pixel t size k = Some p
  /\ tan_2_pixel_by_pixel_2_tan t size k true = Some p
  /\ (tan_2_pixel_by_pixel_2_tan t size k false = Some p
      \/ ((0 < value p)%Z
          /\ tan_2_pixel_by_pixel_2_tan t size k false
             = Some {| value := value p - 1 |})).
Proof.
  intros t W P KF KV KB.
  destruct (linear_round_trip_value p size k W P KF KV KB)
    as (VF & VV & VE).
  unfold angle_tan_to_pixel, tan_2_pixel_by_pixel_2_tan.
  cbn [Angle.value t d_add d_div b64_arith].
  set (v := SFadd prec emax
              (SFdiv prec emax (pixel_tan_by_pixel_2_tan p size k) k)
              (half_width size)) in *.
  assert (is_u64 (value p)) as PU.
  { destruct P as [P0 P1]. unfold is_u64, u64_max.
    change (2 ^ 32)%Z with 4294967296%Z in P1.
    change (2 ^ 64 - 1)%Z with 18446744073709551615%Z. lia. }
  assert (round_away (B2R v) = value p) as RA
      by (apply round_away_near; lra).
  assert (to_pixel (d_round v) = Some p) as Rounded.
  { rewrite to_pixel_round_value; rewrite ?RA; try assumption.
    - now destruct p.
    - now apply valid_bounded. }
  split; [exact Rounded |]. split; [exact Rounded |].
  destruct (trunc_near (value p) (B2R v) (proj1 P) ltac:(lra))
    as [T | [P0 T]].
  - left. rewrite to_pixel_value; rewrite ?T; try assumption.
    now destruct p.
  - right. split; [exact P0 |].
    rewrite to_pixel_value; rewrite ?T; try assumption; [reflexivity |].
    destruct PU as [U0 U1]. unfold is_u64. lia.
Qed.

(** The scale [0.0035] of the tests. *)
Lemma sample_scale : decimal 35 10000 = S754_finite false 8070450532247929 (-61).
Proof. vm_compute. reflexivity. Qed.

Lemma linear_round_trip_witness :
  angle_tan_to_pixel
    (Angle.make
       (pixel_tan_by_pixel_2_tan {| value := 11 |}
          {| width := 640; height := 480 |} (decimal 35 10000)))
    {| width := 640; height := 480 |} (decimal 35 10000)
  = Some {| value := 11 |}.
Proof.
  apply (linear_round_trip {| value := 11 |}
           {| width := 640; height := 480 |} (decimal 35 10000)).
  - simpl. lia.
  - simpl. lia.
  - now rewrite sample_scale.
  - now rewrite sample_scale.
  - rewrite sample_scale, Rabs_B2R.
    apply normal_range; [reflexivity | lia | lia].
Defined.

(** Without rounding, pixel 11 of the 640 pixel wide image comes back as
    pixel 10 at the scale [0.0035]. *)
Example linear_round_trip_truncated :
  tan_2_pixel_by_pixel_2_tan
    (Angle.make
       (pixel_tan_by_pixel_2_tan {| value := 11 |}
          {| width := 640; height := 480 |} (decimal 35 10000)))
    {| width := 640; height := 480 |} (decimal 35 10000) false
  = Some {| value := 10 |}.
Proof. vm_compute. reflexivity. Qed.

(** X19: on binary64, when [pixel_v] rounds to a [uint64_t], both conversions
    return a pixel, and the one with [round_back] is the one without it or
    the next one to the right. *)
Theorem round_back_at_most_one_pixel
    (t : Radians spec_float) (size : ImageSize) (k : spec_float) :
  let pixel_v := d_add (d_div (Angle.value t) k) (half_width size) in
  is_finite pixel_v = true -> is_u64 (round_away (B2R pixel_v)) ->
  exists p1 p2 : PixelIndex,
    tan_2_pixel_by_pixel_2_tan t size k true = Some p1
    /\ tan_2_pixel_by_pixel_2_tan t size k false = Some p2
    /\ (value p2 <= value p1 <= value p2 + 1)%Z.
Proof.
  intros pixel_v F [U0 U1].
  pose proof (round_away_within_half (B2R pixel_v)) as [R0 R1].
  pose proof (trunc_toward_zero (B2R pixel_v)) as [T0 T1].
  assert (- / 2 <= B2R pixel_v) as Low by (apply IZR_le in U0; lra).
  assert (trunc (B2R pixel_v) <= round_away (B2R pixel_v)
          <= trunc (B2R pixel_v) + 1)%Z as [A B].
  { unfold trunc, round_away in *.
    destruct (Rle_dec 0 (B2R pixel_v)) as [P | N].
    - pose proof (Zfloor_bound (B2R pixel_v)) as [F0 F1].
      pose proof (Zfloor_bound (B2R pixel_v + / 2)) as [G0 G1].
      split.
      + apply Z.lt_succ_r, lt_IZR. rewrite succ_IZR. lra.
      + apply Z.lt_succ_r, lt_IZR. rewrite succ_IZR, plus_IZR. lra.
    - pose proof (Zceil_bound (B2R pixel_v)) as [F0 F1].
      pose proof (Zceil_bound (B2R pixel_v - / 2)) as [G0 G1].
      apply IZR_le in U0.
      split.
      + apply Z.lt_succ_r, lt_IZR. rewrite succ_IZR. lra.
      + apply Z.lt_succ_r, lt_IZR. rewrite succ_IZR, plus_IZR. lra. }
  assert (0 <= trunc (B2R pixel_v))%Z as TN.
  { unfold trunc. destruct (Rle_dec 0 (B2R pixel_v)) as [P | N].
    - apply Zfloor_lub. exact P.
    - pose proof (Zceil_bound (B2R pixel_v)) as [F0 F1].
      apply Z.lt_succ_r, lt_IZR. rewrite succ_IZR.
      assert (Zceil (B2R pixel_v) = 0%Z) as ->; [| simpl; lra].
      apply Zceil_eq. simpl. lra. }
  exists {| value := round_away (B2R pixel_v) |},
         {| value := trunc (B2R pixel_v) |}.
  unfold tan_2_pixel_by_pixel_2_tan. fold pixel_v. cbn [value].
  split; [| split; [| split; assumption]].
  - apply to_pixel_round_value; try assumption; [| split; assumption].
    apply pixel_v_bounded.
  - apply to_pixel_value; [exact F |]. split; [exact TN | lia].
Qed.

Lemma round_back_at_most_one_pixel_witness :
  exists p1 p2 : PixelIndex,
    tan_2_pixel_by_pixel_2_tan (Angle.make (of_Z 1001))
      {| width := 641; height := 480 |} (of_Z 4) true = Some p1
    /\ tan_2_pixel_by_pixel_2_tan (Angle.make (of_Z 1001))
         {| width := 641; height := 480 |} (of_Z 4) false = Some p2
    /\ (value p2 <= value p1 <= value p2 + 1)%Z.
Proof.
  apply (round_back_at_most_one_pixel (Angle.make (of_Z 1001))
           {| width := 641; height := 480 |} (of_Z 4)).
  - cbn [Angle.value]. now rewrite sample_pixel_v.
  - cbn [Angle.value]. rewrite sample_pixel_v, sample_pixel_v_value.
    destruct sample_pixel_v_rounded as [-> _].
    unfold is_u64, u64_max. lia.
Defined.

End LinearRoundTrip.

(** ** The canonical form of a binary64 number *)

Section CanonicalForm.

Import Binary64.
Local Open Scope R_scope.

(** Two mantissas of the same value, the first at the lower exponent. *)
Lemma mantissa_unique_le (m1 m2 : positive) (e1 e2 : Z) :
  (e1 <= e2)%Z ->
  Z.max (Zpos (digits2_pos m1) + e1 - 53) (-1074) = e1 ->
  Z.max (Zpos (digits2_pos m2) + e2 - 53) (-1074) = e2 ->
  IZR (Zpos m1) * powerRZ 2 e1 = IZR (Zpos m2) * powerRZ 2 e2 ->
  m1 = m2 /\ e1 = e2.
Proof.
  intros L C1 C2 E.
  assert (Zpos m1 = Zpos m2 * 2 ^ (e2 - e1))%Z as M.
  { apply eq_IZR. rewrite mult_IZR, IZR_pow2 by lia.
    pose proof (powerRZ_2_pos e1) as P1.
    apply Rmult_eq_reg_r with (powerRZ 2 e1); [| lra].
    rewrite E, Rmult_assoc, <- powerRZ_2_add.
    replace (e2 - e1 + e1)%Z with e2 by lia. reflexivity. }
  destruct (Z.eq_dec e1 e2) as [-> | NE].
  - rewrite Z.sub_diag in M. simpl in M. split; [lia | reflexivity].
  - exfalso.
    pose proof (digits2_pos_bounds m2) as [L2 U2].
    assert (Zpos (digits2_pos m1) = Zpos (digits2_pos m2) + (e2 - e1))%Z as D.
    { apply digits2_pos_unique. rewrite M.
      replace (Zpos (digits2_pos m2) + (e2 - e1) - 1)%Z
        with ((Zpos (digits2_pos m2) - 1) + (e2 - e1))%Z by lia.
      rewrite !Z.pow_add_r by lia.
      assert (0 < 2 ^ (e2 - e1))%Z by (apply Z.pow_pos_nonneg; lia).
      split; nia. }
    lia.
Qed.

(** The same, whichever exponent is the lower. *)
Lemma mantissa_unique (m1 m2 : positive) (e1 e2 : Z) :
  Z.max (Zpos (digits2_pos m1) + e1 - 53) (-1074) = e1 ->
  Z.max (Zpos (digits2_pos m2) + e2 - 53) (-1074) = e2 ->
  IZR (Zpos m1) * powerRZ 2 e1 = IZR (Zpos m2) * powerRZ 2 e2 ->
  m1 = m2 /\ e1 = e2.
Proof.
  intros C1 C2 E. destruct (Z.le_ge_cases e1 e2) as [L | L].
  - now apply mantissa_unique_le.
  - destruct (mantissa_unique_le m2 m1 e2 e1 L C2 C1 (eq_sym E)) as [-> ->].
    now split.
Qed.

(** A binary64 number other than zero has one canonical form. *)
Lemma valid_unique (x y : spec_float) :
  is_finite x = true -> valid_binary prec emax x = true ->
  is_finite y = true -> valid_binary prec emax y = true ->
  B2R x = B2R y -> B2R x <> 0 -> x = y.
Proof.
  intros FX VX FY VY E NZ.
  destruct x as [sx | sx | | sx mx ex]; try discriminate FX;
    [exfalso; apply NZ; reflexivity |].
  destruct y as [sy | sy | | sy my ey]; try discriminate FY;
    [exfalso; apply NZ; rewrite E; reflexivity |].
  destruct (B2R_sign_cases sx mx ex) as [_ SX].
  destruct (B2R_sign_cases sy my ey) as [_ SY].
  assert (sx = sy) as <- by (destruct sx, sy; try reflexivity; lra).
  destruct (valid_finite _ _ _ VX) as [CX _].
  destruct (valid_finite _ _ _ VY) as [CY _].
  destruct (mantissa_unique mx my ex ey CX CY) as [-> ->]; [| reflexivity].
  rewrite !B2R_sign in E.
  apply Rmult_eq_reg_l in E; [exact E |].
  destruct sx; cbn [cond_Zopp]; rewrite ?opp_IZR; lra.
Qed.

(** A finite number of value 0 is a zero. *)
Lemma value_zero (x : spec_float) :
  is_finite x = true -> B2R x = 0 -> exists s : bool, x = S754_zero s.
Proof.
  intros F Z. destruct x as [s | s | | s m e]; try discriminate F.
  - now exists s.
  - destruct (B2R_sign_cases s m e) as [A _]. rewrite Z, Rabs_R0 in A. lra.
Qed.

(** Changing the sign keeps a number finite and canonical. *)
Lemma valid_SFopp (x : spec_float) :
  valid_binary prec emax (SFopp x) = valid_binary prec emax x.
Proof. now destruct x. Qed.

Lemma is_finite_SFopp (x : spec_float) : is_finite (SFopp x) = is_finite x.
Proof. now destruct x. Qed.

(** The sign of a rounded value is the sign it was given. *)
Lemma binary_round_aux_opp (s : bool) (m e : Z) (l : location) :
  binary_round_aux prec emax (negb s) m e l
  = SFopp (binary_round_aux prec emax s m e l).
Proof.
  unfold binary_round_aux.
  destruct (shr_fexp prec emax m e l) as [mrs e'].
  destruct (shr_fexp prec emax _ e' loc_Exact) as [mrs' e''].
  destruct (shr_m mrs'); try reflexivity.
  now destruct (e'' <=? emax - prec)%Z.
Qed.

(** Changing the sign of a factor changes the sign of the product. *)
Lemma SFmul_opp (x y : spec_float) :
  SFmul prec emax (SFopp x) y = SFopp (SFmul prec emax x y).
Proof.
  destruct x as [sx | sx | | sx mx ex], y as [sy | sy | | sy my ey];
    cbn [SFopp SFmul]; try reflexivity;
    try (now destruct sx, sy).
  replace (xorb (negb sx) sy) with (negb (xorb sx sy)) by now destruct sx, sy.
  apply binary_round_aux_opp.
Qed.

End CanonicalForm.

(** ** Symmetry of the linear conversion *)

Section LinearSymmetry.

Import Binary64.
Local Open Scope R_scope.

(** The offset of a pixel from the centre of the image is computed without
    rounding, on images below [2^53] pixels wide. *)
Lemma centre_offset_exact (p : PixelIndex) (size : ImageSize) :
  (0 < width size < 2 ^ 53)%Z -> (0 <= value p <= width size)%Z ->
  let d := SFsub prec emax (of_Z (value p)) (half_width size) in
  is_finite d = true /\ valid_binary prec emax d = true
  /\ B2R d = IZR (2 * value p - width size) / 2.
Proof.
  intros [W0 W1] [P0 P1] d.
  assert (width size <= u64_max)%Z as WU
      by (unfold u64_max; change (2 ^ 53)%Z with 9007199254740992%Z in W1;
          change (2 ^ 64 - 1)%Z with 18446744073709551615%Z; lia).
  destruct (half_width_halves size (conj W0 WU)) as (HF & HV & _ & HB).
  rewrite B2R_of_Z_small in HB by lia.
  assert (rounds_to (IZR (value p)) (of_Z (value p))) as RV.
  { apply of_Z_rounds, u64_below_top. unfold is_u64. lia. }
  pose proof (B2R_of_Z_small (value p) ltac:(lia)) as VB.
  assert (B2R (of_Z (value p)) - B2R (half_width size)
          = IZR (2 * value p - width size) * powerRZ 2 (-1)) as E.
  { rewrite VB, HB, minus_IZR, mult_IZR. simpl. lra. }
  assert (Z.abs (2 * value p - width size) < 2 ^ 53)%Z as M by lia.
  assert (rounds_to (B2R (of_Z (value p)) - B2R (half_width size)) d) as RD.
  { apply SFsub_rounds; try assumption.
    - exact (rounds_to_finite _ _ RV).
    - exact (rounds_to_valid _ _ RV).
    - rewrite E. apply (below_top _ 53); [lia |].
      rewrite Rabs_mult, <- abs_IZR. simpl (powerRZ 2 (-1)).
      rewrite (Rabs_pos_eq (/ (2 * 1))) by lra.
      apply IZR_lt in M. rewrite IZR_pow2 in M by lia.
      pose proof (Rabs_pos (IZR (2 * value p - width size))) as A.
      rewrite <- abs_IZR in A. lra. }
  split; [exact (rounds_to_finite _ _ RD) |].
  split; [exact (rounds_to_valid _ _ RD) |].
  rewrite (rounds_to_exact _ _ _ (-1) RD M ltac:(lia) E), E.
  simpl. lra.
Qed.

(** The offsets of two different pixels at the same distance from the
    centre, on opposite sides, are opposite. *)
Lemma centre_offsets_opposite (size : ImageSize) (p1 p2 : PixelIndex) :
  (0 < width size < 2 ^ 53)%Z ->
  (0 <= value p1)%Z -> (0 <= value p2)%Z ->
  (value p1 + value p2 = width size)%Z -> value p1 <> value p2 ->
  SFsub prec emax (of_Z (value p1)) (half_width size)
  = SFopp (SFsub prec emax (of_Z (value p2)) (half_width size)).
Proof.
  intros W P1 P2 S NE.
  destruct (centre_offset_exact p1 size W ltac:(lia)) as (F1 & V1 & B1).
  destruct (centre_offset_exact p2 size W ltac:(lia)) as (F2 & V2 & B2).
  apply valid_unique; try assumption.
  - now rewrite is_finite_SFopp.
  - now rewrite valid_SFopp.
  - rewrite B2R_SFopp, B1, B2, !minus_IZR, !mult_IZR, <- S, plus_IZR. lra.
  - rewrite B1. intros Z.
    assert (IZR (2 * value p1 - width size) = 0) as Z' by lra.
    apply eq_IZR in Z'. lia.
Qed.

(** X9: on binary64, on an image below [2^53] pixels wide, two different
    pixels at the same distance from the centre on opposite sides have
    opposite linear tangents, bit for bit, whatever the scale; the clipped
    tangents are opposite as well, or both [+0.0] in the dead zone. *)
Theorem linear_tangent_symmetric
    (size : ImageSize) (k threshold : spec_float) (p1 p2 : PixelIndex) :
  (0 < width size < 2 ^ 53)%Z ->
  (0 <= value p1)%Z -> (0 <= value p2)%Z ->
  (value p1 + value p2 = width size)%Z -> value p1 <> value p2 ->
  pixel_tan_by_pixel_2_tan p1 size k
  = SFopp (pixel_tan_by_pixel_2_tan p2 size k)
  /\ (pixel_tan_by_pixel_2_tan_clipped p1 size k threshold
      = SFopp (pixel_tan_by_pixel_2_tan_clipped p2 size k threshold)
      \/ (pixel_tan_by_pixel_2_tan_clipped p1 size k threshold
          = S754_zero false
          /\ pixel_tan_by_pixel_2_tan_clipped p2 size k threshold
             = S754_zero false)).
Proof.
  intros W P1 P2 S NE.
  pose proof (centre_offsets_opposite size p1 p2 W P1 P2 S NE) as O.
  unfold pixel_tan_by_pixel_2_tan_clipped, pixel_tan_by_pixel_2_tan.
  cbn [d_mul d_sub d_abs d_ltb d_zero d_of_u64 b64_arith].
  change (binary_normalize prec emax (value p1) 0 false)
    with (of_Z (value p1)).
  change (binary_normalize prec emax (value p2) 0 false)
    with (of_Z (value p2)).
  rewrite O, SFmul_opp.
  split; [reflexivity |].
  assert (forall x : spec_float, SFabs (SFopp x) = SFabs x) as A
      by (intros x; now destruct x).
  rewrite A.
  destruct (SFltb _ _); [right; split; reflexivity | left; reflexivity].
Qed.

Lemma linear_tangent_symmetric_witness :
  pixel_tan_by_pixel_2_tan {| value := 100 |}
    {| width := 641; height := 480 |} (decimal 35 10000)
  = SFopp (pixel_tan_by_pixel_2_tan {| value := 541 |}
             {| width := 641; height := 480 |} (decimal 35 10000))
  /\ (pixel_tan_by_pixel_2_tan_clipped {| value := 100 |}
        {| width := 641; height := 480 |} (decimal 35 10000) (decimal 5 100)
      = SFopp (pixel_tan_by_pixel_2_tan_clipped {| value := 541 |}
                 {| width := 641; height := 480 |} (decimal 35 10000)
                 (decimal 5 100))
      \/ (pixel_tan_by_pixel_2_tan_clipped {| value := 100 |}
            {| width := 641; height := 480 |} (decimal 35 10000)
            (decimal 5 100)
          = S754_zero false
          /\ pixel_tan_by_pixel_2_tan_clipped {| value := 541 |}
               {| width := 641; height := 480 |} (decimal 35 10000)
               (decimal 5 100)
             = S754_zero false)).
Proof.
  apply (linear_tangent_symmetric {| width := 641; height := 480 |}
           (decimal 35 10000) (decimal 5 100)
           {| value := 100 |} {| value := 541 |}).
  - simpl. lia.
  - simpl. lia.
  - simpl. lia.
  - reflexivity.
  - simpl. lia.
Defined.

End LinearSymmetry.

(** ** Tangents in view *)

Section TangentInView.

Import Binary64.
Import Exact.
Local Open Scope R_scope.

(** Two binary64 numbers of the same value are the same, or two zeros. *)
Lemma same_value (a b : spec_float) :
  is_finite a = true -> valid_binary prec emax a = true ->
  is_finite b = true -> valid_binary prec emax b = true ->
  B2R a = B2R b ->
  a = b \/ exists sa sb : bool, a = S754_zero sa /\ b = S754_zero sb.
Proof.
  intros FA VA FB VB E.
  destruct (Req_dec (B2R a) 0) as [Z | NZ].
  - right. destruct (value_zero a FA Z) as [sa ->].
    destruct (value_zero b FB ltac:(lra)) as [sb ->]. now exists sa, sb.
  - left. now apply valid_unique.
Qed.

(** An operation that rounds an increasing function of its argument to
    nearest is nondecreasing. *)
Lemma monotone_step
    (f : spec_float -> spec_float) (g : R -> R) (a b : spec_float) :
  is_finite a = true -> valid_binary prec emax a = true ->
  is_finite b = true -> valid_binary prec emax b = true ->
  rounds_to (g (B2R a)) (f a) -> rounds_to (g (B2R b)) (f b) ->
  (forall s s' : bool, B2R (f (S754_zero s)) = B2R (f (S754_zero s'))) ->
  (B2R a < B2R b -> g (B2R a) < g (B2R b)) ->
  B2R a <= B2R b ->
  B2R (f a) <= B2R (f b).
Proof.
  intros FA VA FB VB RA RB Z G [L | E].
  - exact (rounds_to_monotone _ _ _ _ RA RB (G L)).
  - destruct (same_value a b FA VA FB VB E) as [-> | (sa & sb & -> & ->)].
    + lra.
    + rewrite (Z sa sb). lra.
Qed.

(** A zero divided, multiplied or added: the sign of the zero does not
    change the value. *)
Lemma SFdiv_zero_value (s : bool) (y : spec_float) :
  B2R (SFdiv prec emax (S754_zero s) y) = 0.
Proof. now destruct y. Qed.

Lemma SFmul_zero_value (s : bool) (y : spec_float) :
  B2R (SFmul prec emax (S754_zero s) y) = 0.
Proof. now destruct y. Qed.

Lemma SFadd_zero_value (s : bool) (y : spec_float) :
  B2R (SFadd prec emax (S754_zero s) y) = B2R y.
Proof.
  destruct y as [sy | sy | | sy m e]; try reflexivity.
  now destruct s, sy.
Qed.

(** The steps of [tan_2_pixel_by_fov] on a tangent in view, each rounded to
    nearest, and the range of the value handed to [std::round]. *)
Lemma in_view_steps (T t : spec_float) (size : ImageSize) :
  let q := SFdiv prec emax t T in
  let m := SFmul prec emax q (half_width size) in
  let v := SFadd prec emax m (half_width size) in
  (0 < width size < 2 ^ 53)%Z ->
  is_finite T = true -> valid_binary prec emax T = true -> 0 < B2R T ->
  is_finite t = true -> valid_binary prec emax t = true ->
  Rabs (B2R t) <= B2R T ->
  rounds_to (B2R t / B2R T) q
  /\ rounds_to (B2R q * (IZR (width size) / 2)) m
  /\ rounds_to (B2R m + IZR (width size) / 2) v
  /\ 0 <= B2R v <= IZR (width size).
Proof.
  intros q m v [W0 W1] TF TV TP tF tV tB.
  assert (width size <= u64_max)%Z as WU
      by (unfold u64_max; change (2 ^ 53)%Z with 9007199254740992%Z in W1;
          change (2 ^ 64 - 1)%Z with 18446744073709551615%Z; lia).
  destruct (half_width_halves size (conj W0 WU)) as (HF & HV & _ & HB).
  rewrite B2R_of_Z_small in HB by lia.
  set (Hh := IZR (width size) / 2) in *.
  assert (1 <= IZR (width size) < 9007199254740992) as [Wr0 Wr1].
  { split; [apply IZR_le; lia |].
    apply IZR_lt. change (2 ^ 53)%Z with 9007199254740992%Z in W1. lia. }
  assert (0 < Hh) as HP by (unfold Hh; lra).
  apply Rabs_le_elim in tB.
  assert (-1 <= B2R t / B2R T <= 1) as [Q0 Q1].
  { split.
    - apply Rmult_le_reg_r with (B2R T); [exact TP |].
      unfold Rdiv. rewrite Rmult_assoc, Rinv_l by lra. lra.
    - apply Rmult_le_reg_r with (B2R T); [exact TP |].
      unfold Rdiv. rewrite Rmult_assoc, Rinv_l by lra. lra. }
  assert (rounds_to (B2R t / B2R T) q) as RQ.
  { apply SFdiv_rounds; try assumption.
    - now apply positive_is_nonzero.
    - apply (below_top _ 0); [lia |]. simpl. apply Rabs_le. lra. }
  assert (-1 <= B2R q <= 1) as [q0 q1].
  { split.
    - apply (rounds_to_ge_Z _ _ (-1) RQ); [simpl; lia | exact Q0].
    - apply (rounds_to_le_Z _ _ 1 RQ); [simpl; lia | exact Q1]. }
  assert (- Hh <= B2R q * Hh <= Hh) as [M0 M1] by (split; nra).
  assert (rounds_to (B2R q * Hh) m) as RM.
  { unfold m. rewrite <- HB. apply SFmul_rounds; try assumption.
    - exact (rounds_to_finite _ _ RQ).
    - exact (rounds_to_valid _ _ RQ).
    - rewrite HB. apply (below_top _ 53); [lia |].
      rewrite <- IZR_pow2 by lia. change (2 ^ 53)%Z with 9007199254740992%Z.
      apply Rabs_le. unfold Hh in *. lra. }
  assert (Hh = IZR (width size) * powerRZ 2 (-1)) as HE
      by (unfold Hh; simpl; lra).
  assert (- Hh = IZR (- width size) * powerRZ 2 (-1)) as HN
      by (rewrite opp_IZR; unfold Hh; simpl; lra).
  assert (- Hh <= B2R m <= Hh) as [m0 m1].
  { split.
    - rewrite HN.
      apply (rounds_to_ge _ _ (- width size) (-1) RM); [lia | lia |].
      rewrite <- HN. exact M0.
    - rewrite HE.
      apply (rounds_to_le _ _ (width size) (-1) RM); [lia | lia |].
      rewrite <- HE. exact M1. }
  assert (rounds_to (B2R m + Hh) v) as RV.
  { unfold v. rewrite <- HB. apply SFadd_rounds; try assumption.
    - exact (rounds_to_finite _ _ RM).
    - exact (rounds_to_valid _ _ RM).
    - rewrite HB. apply (below_top _ 53); [lia |].
      rewrite <- IZR_pow2 by lia. change (2 ^ 53)%Z with 9007199254740992%Z.
      apply Rabs_le. unfold Hh in *. lra. }
  split; [exact RQ |]. split; [exact RM |]. split; [exact RV |].
  split.
  - apply (rounds_to_ge_Z _ _ 0 RV); [simpl; lia | lra].
  - apply (rounds_to_le_Z _ _ (width size) RV); [lia | unfold Hh in *; lra].
Qed.

(** So a tangent in view gives a pixel of the image. *)
Lemma in_view_pixel
    (tan atan : spec_float -> spec_float)
    (size : ImageSize) (fov : Radians spec_float) (t : spec_float) :
  let T := tan (SFdiv prec emax (Angle.value fov) (of_Z 2)) in
  let v := SFadd prec emax
             (SFmul prec emax (SFdiv prec emax t T) (half_width size))
             (half_width size) in
  (0 < width size < 2 ^ 53)%Z ->
  is_finite T = true -> valid_binary prec emax T = true -> 0 < B2R T ->
  is_finite t = true -> valid_binary prec emax t = true ->
  Rabs (B2R t) <= B2R T ->
  tan_2_pixel_by_fov (TD := libm_trig tan atan) t size fov
  = Some {| value := round_away (B2R v) |}
  /\ (0 <= round_away (B2R v) <= width size)%Z.
Proof.
  intros T v W TF TV TP tF tV tB.
  destruct (in_view_steps T t size W TF TV TP tF tV tB)
    as (_ & _ & RV & V0 & V1).
  fold v in RV, V0, V1.
  assert (0 <= round_away (B2R v) <= width size)%Z as B.
  { split.
    - rewrite <- (round_away_IZR 0). now apply round_away_le.
    - rewrite <- (round_away_IZR (width size)). now apply round_away_le. }
  split; [| exact B].
  unfold tan_2_pixel_by_fov, Angle.tan, Angle.div.
  cbn [d_tan libm_trig d_div d_mul d_add d_two b64_arith Angle.value].
  fold T. fold v.
  apply to_pixel_round_value.
  - exact (rounds_to_finite _ _ RV).
  - apply valid_bounded. exact (rounds_to_valid _ _ RV).
  - destruct W as [_ W1]. unfold is_u64, u64_max.
    change (2 ^ 53)%Z with 9007199254740992%Z in W1.
    change (2 ^ 64 - 1)%Z with 18446744073709551615%Z. lia.
Qed.

(** X12: on binary64, on an image below [2^53] pixels wide and with a
    positive [tan (fov / 2)], [tan_2_pixel_by_fov] maps a tangent in view,
    [|t| <= tan (fov / 2)], to a pixel of the image. *)
Theorem tangent_in_view_maps_into_image
    (tan atan : spec_float -> spec_float)
    (size : ImageSize) (fov : Radians spec_float) (t : spec_float) :
  let T := tan (SFdiv prec emax (Angle.value fov) (of_Z 2)) in
  (0 < width size < 2 ^ 53)%Z ->
  is_finite T = true -> valid_binary prec emax T = true -> 0 < B2R T ->
  is_finite t = true -> valid_binary prec emax t = true ->
  Rabs (B2R t) <= B2R T ->
  exists p : PixelIndex,
    tan_2_pixel_by_fov (TD := libm_trig tan atan) t size fov = Some p
    /\ (0 <= value p <= width size)%Z.
Proof.
  intros T W TF TV TP tF tV tB.
  destruct (in_view_pixel tan atan size fov t W TF TV TP tF tV tB) as [E B].
  eexists. split; [exact E | exact B].
Qed.

(** X10: on binary64, under the same conditions, [tan_2_pixel_by_fov] is
    nondecreasing on the tangents in view. *)
Theorem tan_2_pixel_by_fov_monotone
    (tan atan : spec_float -> spec_float)
    (size : ImageSize) (fov : Radians spec_float) (t1 t2 : spec_float) :
  let T := tan (SFdiv prec emax (Angle.value fov) (of_Z 2)) in
  (0 < width size < 2 ^ 53)%Z ->
  is_finite T = true -> valid_binary prec emax T = true -> 0 < B2R T ->
  is_finite t1 = true -> valid_binary prec emax t1 = true ->
  is_finite t2 = true -> valid_binary prec emax t2 = true ->
  Rabs (B2R t1) <= B2R T -> Rabs (B2R t2) <= B2R T ->
  B2R t1 <= B2R t2 ->
  exists p1 p2 : PixelIndex,
    tan_2_pixel_by_fov (TD := libm_trig tan atan) t1 size fov = Some p1
    /\ tan_2_pixel_by_fov (TD := libm_trig tan atan) t2 size fov = Some p2
    /\ (value p1 <= value p2)%Z.
Proof.
  intros T W TF TV TP F1 V1 F2 V2 B1 B2 L.
  destruct (in_view_pixel tan atan size fov t1 W TF TV TP F1 V1 B1)
    as [E1 _].
  destruct (in_view_pixel tan atan size fov t2 W TF TV TP F2 V2 B2)
    as [E2 _].
  destruct (in_view_steps T t1 size W TF TV TP F1 V1 B1)
    as (RQ1 & RM1 & RV1 & _).
  destruct (in_view_steps T t2 size W TF TV TP F2 V2 B2)
    as (RQ2 & RM2 & RV2 & _).
  fold T in E1, E2.
  assert (0 < IZR (width size) / 2) as HP.
  { destruct W as [W0 _]. apply IZR_lt in W0. lra. }
  assert (width size <= u64_max)%Z as WU.
  { destruct W as [_ W1]. unfold u64_max.
    change (2 ^ 53)%Z with 9007199254740992%Z in W1.
    change (2 ^ 64 - 1)%Z with 18446744073709551615%Z. lia. }
  destruct (half_width_halves size (conj (proj1 W) WU)) as (HF & HV & HN & _).
  pose proof (monotone_step (fun a => SFdiv prec emax a T)
                (fun x => x / B2R T) t1 t2 F1 V1 F2 V2 RQ1 RQ2
                (fun s s' => eq_trans (SFdiv_zero_value s T)
                               (eq_sym (SFdiv_zero_value s' T)))) as LQ.
  cbv beta in LQ.
  assert (B2R (SFdiv prec emax t1 T) <= B2R (SFdiv prec emax t2 T)) as Q12.
  { apply LQ; [| exact L]. intros S.
    apply Rmult_lt_compat_r; [apply Rinv_0_lt_compat; exact TP | exact S]. }
  pose proof (monotone_step (fun a => SFmul prec emax a (half_width size))
                (fun x => x * (IZR (width size) / 2)) _ _
                (rounds_to_finite _ _ RQ1) (rounds_to_valid _ _ RQ1)
                (rounds_to_finite _ _ RQ2) (rounds_to_valid _ _ RQ2)
                RM1 RM2
                (fun s s' => eq_trans (SFmul_zero_value s _)
                               (eq_sym (SFmul_zero_value s' _)))) as LM.
  cbv beta in LM.
  assert (B2R (SFmul prec emax (SFdiv prec emax t1 T) (half_width size))
          <= B2R (SFmul prec emax (SFdiv prec emax t2 T) (half_width size)))
    as M12.
  { apply LM; [| exact Q12]. intros S.
    apply Rmult_lt_compat_r; [exact HP | exact S]. }
  pose proof (monotone_step (fun a => SFadd prec emax a (half_width size))
                (fun x => x + IZR (width size) / 2) _ _
                (rounds_to_finite _ _ RM1) (rounds_to_valid _ _ RM1)
                (rounds_to_finite _ _ RM2) (rounds_to_valid _ _ RM2)
                RV1 RV2
                (fun s s' => eq_trans (SFadd_zero_value s _)
                               (eq_sym (SFadd_zero_value s' _)))) as LV.
  cbv beta in LV.
  eexists. eexists. split; [exact E1 |]. split; [exact E2 |].
  cbn [value]. apply round_away_le, LV; [| exact M12]. intros S. lra.
Qed.

End TangentInView.

(** ** The angle as a function of the pixel *)

Section AngleOfPixel.

Import Binary64.
Import Exact.
Local Open Scope R_scope.

(** The sign of a zero does not change the value of a difference. *)
Lemma SFsub_zero_value (s s' : bool) (y : spec_float) :
  B2R (SFsub prec emax (S754_zero s) y)
  = B2R (SFsub prec emax (S754_zero s') y).
Proof. destruct y as [sy | sy | | sy m e]; now destruct s, s'; try destruct sy. Qed.

(** The steps of [pixel_tan_from_fov] up to the argument of [std::atan] are
    nondecreasing in the pixel, on the pixels of the image. *)
Lemma pixel_tangent_monotone
    (T : spec_float) (size : ImageSize) (p1 p2 : PixelIndex) :
  (0 < width size)%Z -> is_u64 (width size) ->
  (0 <= value p1 <= value p2)%Z -> (value p2 <= width size)%Z ->
  is_finite T = true -> valid_binary prec emax T = true ->
  0 < B2R T <= powerRZ 2 500 ->
  let x1 := SFmul prec emax (normalized p1 size) T in
  let x2 := SFmul prec emax (normalized p2 size) T in
  B2R (normalized p1 size) <= B2R (normalized p2 size)
  /\ is_finite x1 = true /\ valid_binary prec emax x1 = true
  /\ is_finite x2 = true /\ valid_binary prec emax x2 = true
  /\ B2R x1 <= B2R x2.
Proof.
  intros W0 [_ WU] [P0 P12] P2 TF TV [TP TU] x1 x2.
  assert (is_u64 (value p1)) as U1 by (unfold is_u64; lia).
  assert (is_u64 (value p2)) as U2 by (unfold is_u64; lia).
  destruct (normalized_rounds p1 size (conj W0 WU) U1)
    as (_ & RV1 & WB & _ & RQ1 & RN1).
  destruct (normalized_rounds p2 size (conj W0 WU) U2)
    as (_ & RV2 & _ & _ & RQ2 & RN2).
  cbv zeta in *.
  destruct (normalized_bounds p1 size W0 (conj (Z.lt_le_incl _ _ W0) WU)
              ltac:(lia)) as (_ & NB1).
  destruct (normalized_bounds p2 size W0 (conj (Z.lt_le_incl _ _ W0) WU)
              ltac:(lia)) as (_ & NB2).
  set (Wv := B2R (of_Z (width size))) in *.
  assert (B2R (of_Z (value p1)) <= B2R (of_Z (value p2))) as V12.
  { destruct (Z.eq_dec (value p1) (value p2)) as [-> | NE]; [lra |].
    apply (rounds_to_monotone _ _ _ _ RV1 RV2). apply IZR_lt. lia. }
  assert (B2R (SFdiv prec emax (of_Z (value p1)) (half_width size))
          <= B2R (SFdiv prec emax (of_Z (value p2)) (half_width size)))
    as Q12.
  { apply (monotone_step (fun a => SFdiv prec emax a (half_width size))
             (fun x => x / (Wv / 2)) _ _
             (rounds_to_finite _ _ RV1) (rounds_to_valid _ _ RV1)
             (rounds_to_finite _ _ RV2) (rounds_to_valid _ _ RV2)
             RQ1 RQ2).
    - intros s s'. now rewrite !SFdiv_zero_value.
    - intros S. apply Rmult_lt_compat_r; [| exact S].
      apply Rinv_0_lt_compat. lra.
    - exact V12. }
  assert (B2R (normalized p1 size) <= B2R (normalized p2 size)) as N12.
  { apply (monotone_step (fun a => SFsub prec emax a (of_Z 1))
             (fun x => x - 1) _ _
             (rounds_to_finite _ _ RQ1) (rounds_to_valid _ _ RQ1)
             (rounds_to_finite _ _ RQ2) (rounds_to_valid _ _ RQ2)
             RN1 RN2).
    - intros s s'. apply SFsub_zero_value.
    - intros S. lra.
    - exact Q12. }
  assert (forall p : PixelIndex,
             -1 <= B2R (normalized p size) <= 1 ->
             rounds_to (B2R (normalized p size) - 1 + 1)
               (normalized p size) ->
             rounds_to (B2R (normalized p size) * B2R T)
               (SFmul prec emax (normalized p size) T)) as RX.
  { intros p NB RN. apply SFmul_rounds; try assumption.
    - exact (rounds_to_finite _ _ RN).
    - exact (rounds_to_valid _ _ RN).
    - apply (below_top _ 500); [lia |].
      rewrite Rabs_mult, (Rabs_pos_eq (B2R T)) by lra.
      assert (Rabs (B2R (normalized p size)) <= 1) by (apply Rabs_le; lra).
      pose proof (Rabs_pos (B2R (normalized p size))). nra. }
  assert (forall p : PixelIndex,
             rounds_to (B2R (SFdiv prec emax (of_Z (value p))
                               (half_width size)) - 1)
               (normalized p size) ->
             rounds_to (B2R (normalized p size) - 1 + 1)
               (normalized p size)) as Self.
  { intros p RN. apply (rounds_to_eq (B2R (normalized p size))); [ring |].
    apply rounds_to_self.
    - exact (rounds_to_finite _ _ RN).
    - exact (rounds_to_valid _ _ RN). }
  pose proof (RX p1 NB1 (Self p1 RN1)) as RX1.
  pose proof (RX p2 NB2 (Self p2 RN2)) as RX2.
  split; [exact N12 |].
  split; [exact (rounds_to_finite _ _ RX1) |].
  split; [exact (rounds_to_valid _ _ RX1) |].
  split; [exact (rounds_to_finite _ _ RX2) |].
  split; [exact (rounds_to_valid _ _ RX2) |].
  apply (monotone_step (fun a => SFmul prec emax a T)
           (fun x => x * B2R T) _ _
           (rounds_to_finite _ _ RN1) (rounds_to_valid _ _ RN1)
           (rounds_to_finite _ _ RN2) (rounds_to_valid _ _ RN2)
           RX1 RX2).
  - intros s s'. now rewrite !SFmul_zero_value.
  - intros S. now apply Rmult_lt_compat_r.
  - exact N12.
Qed.

(** X3: on binary64, the normalized coordinate is nondecreasing in the pixel
    on the pixels of an image, and so is the angle of [pixel_tan_from_fov]
    for a positive [tan (fov / 2)], when libm's [atan] is nondecreasing. *)
Theorem pixel_angle_monotone
    (tan atan : spec_float -> spec_float)
    (size : ImageSize) (fov : Radians spec_float) (p1 p2 : PixelIndex) :
  let T := tan (SFdiv prec emax (Angle.value fov) (of_Z 2)) in
  (0 < width size)%Z -> is_u64 (width size) ->
  (0 <= value p1 <= value p2)%Z -> (value p2 <= width size)%Z ->
  is_finite T = true -> valid_binary prec emax T = true ->
  0 < B2R T <= powerRZ 2 500 ->
  (forall a b : spec_float,
      is_finite a = true -> valid_binary prec emax a = true ->
      is_finite b = true -> valid_binary prec emax b = true ->
      B2R a <= B2R b -> B2R (atan a) <= B2R (atan b)) ->
  B2R (normalized p1 size) <= B2R (normalized p2 size)
  /\ B2R (Angle.value (pixel_tan_from_fov (TD := libm_trig tan atan)
                         p1 size fov))
     <= B2R (Angle.value (pixel_tan_from_fov (TD := libm_trig tan atan)
                            p2 size fov)).
Proof.
  intros T W0 WU P1 P2 TF TV TB Mono.
  destruct (pixel_tangent_monotone T size p1 p2 W0 WU P1 P2 TF TV TB)
    as (N12 & F1 & V1 & F2 & V2 & X12).
  split; [exact N12 |].
  unfold pixel_tan_from_fov, Angle.tan, Angle.div.
  cbn [d_tan d_atan libm_trig d_div d_mul d_two b64_arith Angle.value].
  fold T. now apply Mono.
Qed.

Lemma pixel_angle_monotone_witness :
  B2R (normalized {| value := 6 |} {| width := 640; height := 480 |})
  <= B2R (normalized {| value := 500 |} {| width := 640; height := 480 |})
  /\ B2R (Angle.value
            (pixel_tan_from_fov
               (TD := libm_trig LibmSample.tan (fun x => x))
               {| value := 6 |} {| width := 640; height := 480 |}
               (Angle.make LibmSample.fov_32)))
     <= B2R (Angle.value
               (pixel_tan_from_fov
                  (TD := libm_trig LibmSample.tan (fun x => x))
                  {| value := 500 |} {| width := 640; height := 480 |}
                  (Angle.make LibmSample.fov_32))).
Proof.
  pose proof (pixel_angle_monotone LibmSample.tan (fun x => x)
                {| width := 640; height := 480 |}
                (Angle.make LibmSample.fov_32)
                {| value := 6 |} {| value := 500 |}) as H.
  cbv zeta in H. cbn [Angle.value] in H.
  rewrite sample_tan_half_fov_32 in H.
  apply H.
  - simpl. lia.
  - unfold is_u64, u64_max. simpl. lia.
  - simpl. lia.
  - simpl. lia.
  - reflexivity.
  - reflexivity.
  - destruct (normal_range 5165545649814306 (-54) (-2) 500) as [L U];
      [reflexivity | lia | lia |].
    pose proof (powerRZ_2_pos (-2)). lra.
  - intros a b _ _ _ _ L. exact L.
Defined.

(** The tangents [-0.1] and [0.2], in view at 32 degrees. *)
Lemma sample_tangents :
  decimal (-1) 10 = S754_finite true 7205759403792794 (-56)
  /\ decimal 1 5 = S754_finite false 7205759403792794 (-55).
Proof. split; vm_compute; reflexivity. Qed.

(** Small tangents are in view at 32 degrees. *)
Lemma sample_in_view (s : bool) (m : positive) (e : Z) :
  (e <= -55)%Z -> (Zpos m < 2 ^ 53)%Z ->
  Rabs (B2R (S754_finite s m e))
  <= B2R (S754_finite false 5165545649814306 (-54)).
Proof.
  intros E M.
  apply Rle_trans with (powerRZ 2 (-2)).
  - apply Rabs_B2R_below; [exact M | lia].
  - apply (normal_range 5165545649814306 (-54) (-2) 0);
      [reflexivity | lia | lia].
Qed.

Lemma tangent_in_view_maps_into_image_witness :
  exists p : PixelIndex,
    tan_2_pixel_by_fov (TD := LibmSample.libm) (decimal 1 5)
      {| width := 640; height := 480 |} (Angle.make LibmSample.fov_32)
    = Some p
    /\ (0 <= value p <= 640)%Z.
Proof.
  pose proof (tangent_in_view_maps_into_image LibmSample.tan LibmSample.atan
                {| width := 640; height := 480 |}
                (Angle.make LibmSample.fov_32) (decimal 1 5)) as H.
  cbv zeta in H. cbn [Angle.value width] in H.
  rewrite sample_tan_half_fov_32 in H.
  destruct sample_tangents as [_ E]. rewrite E in H.
  rewrite E. apply H.
  - simpl. lia.
  - reflexivity.
  - reflexivity.
  - destruct (normal_range 5165545649814306 (-54) (-2) 0) as [L U];
      [reflexivity | lia | lia |].
    pose proof (powerRZ_2_pos (-2)). lra.
  - reflexivity.
  - reflexivity.
  - apply sample_in_view; simpl; lia.
Defined.

Lemma tan_2_pixel_by_fov_monotone_witness :
  exists p1 p2 : PixelIndex,
    tan_2_pixel_by_fov (TD := LibmSample.libm) (decimal (-1) 10)
      {| width := 640; height := 480 |} (Angle.make LibmSample.fov_32)
    = Some p1
    /\ tan_2_pixel_by_fov (TD := LibmSample.libm) (decimal 1 5)
         {| width := 640; height := 480 |} (Angle.make LibmSample.fov_32)
       = Some p2
    /\ (value p1 <= value p2)%Z.
Proof.
  pose proof (tan_2_pixel_by_fov_monotone LibmSample.tan LibmSample.atan
                {| width := 640; height := 480 |}
                (Angle.make LibmSample.fov_32)
                (decimal (-1) 10) (decimal 1 5)) as H.
  cbv zeta in H. cbn [Angle.value width] in H.
  rewrite sample_tan_half_fov_32 in H.
  destruct sample_tangents as [E1 E2]. rewrite E1, E2 in H.
  rewrite E1, E2. apply H.
  - simpl. lia.
  - reflexivity.
  - reflexivity.
  - destruct (normal_range 5165545649814306 (-54) (-2) 0) as [L U];
      [reflexivity | lia | lia |].
    pose proof (powerRZ_2_pos (-2)). lra.
  - reflexivity.
  - reflexivity.
  - reflexivity.
  - reflexivity.
  - apply sample_in_view; simpl; lia.
  - apply sample_in_view; simpl; lia.
  - destruct (B2R_sign_cases true 7205759403792794 (-56)) as [_ N].
    destruct (B2R_sign_cases false 7205759403792794 (-55)) as [_ P].
    lra.
Defined.

(** The pixels of these two tangents. *)
Example tan_2_pixel_by_fov_samples :
  tan_2_pixel_by_fov (TD := LibmSample.libm) (decimal (-1) 10)
    {| width := 640; height := 480 |} (Angle.make LibmSample.fov_32)
  = Some {| value := 208 |}
  /\ tan_2_pixel_by_fov (TD := LibmSample.libm) (decimal 1 5)
       {| width := 640; height := 480 |} (Angle.make LibmSample.fov_32)
     = Some {| value := 543 |}.
Proof. split; vm_compute; reflexivity. Qed.

(** The product handed to [std::atan] rounds to nearest, on the pixels of
    the image. *)
Lemma pixel_tangent_rounds
    (T : spec_float) (size : ImageSize) (p : PixelIndex) :
  (0 < width size)%Z -> is_u64 (width size) ->
  (0 <= value p <= width size)%Z ->
  is_finite T = true -> valid_binary prec emax T = true ->
  Rabs (B2R T) <= powerRZ 2 500 ->
  -1 <= B2R (normalized p size) <= 1
  /\ rounds_to (B2R (normalized p size) * B2R T)
       (SFmul prec emax (normalized p size) T).
Proof.
  intros W0 [_ WU] P TF TV TB.
  assert (is_u64 (value p)) as U by (unfold is_u64; lia).
  destruct (normalized_rounds p size (conj W0 WU) U)
    as (_ & _ & _ & _ & _ & RN).
  cbv zeta in RN.
  destruct (normalized_bounds p size W0 (conj (Z.lt_le_incl _ _ W0) WU) P)
    as (_ & NB).
  split; [exact NB |].
  apply SFmul_rounds; try assumption.
  - exact (rounds_to_finite _ _ RN).
  - exact (rounds_to_valid _ _ RN).
  - apply (below_top _ 500); [lia |]. rewrite Rabs_mult.
    assert (Rabs (B2R (normalized p size)) <= 1) by (apply Rabs_le; lra).
    pose proof (Rabs_pos (B2R (normalized p size))).
    pose proof (Rabs_pos (B2R T)). nra.
Qed.

(** The tangent handed to [std::atan] is in view. *)
Lemma pixel_tangent_in_view
    (T : spec_float) (size : ImageSize) (p : PixelIndex) :
  (0 < width size)%Z -> is_u64 (width size) ->
  (0 <= value p <= width size)%Z ->
  is_finite T = true -> valid_binary prec emax T = true ->
  0 <= B2R T <= powerRZ 2 500 ->
  let x := SFmul prec emax (normalized p size) T in
  is_finite x = true /\ valid_binary prec emax x = true
  /\ - B2R T <= B2R x <= B2R T.
Proof.
  intros W0 WU P TF TV [T0 TU] x.
  destruct (pixel_tangent_rounds T size p W0 WU P TF TV) as [NB RX].
  { rewrite Rabs_pos_eq by exact T0. exact TU. }
  fold x in RX.
  destruct (valid_competitor T TF TV) as (m & e & M & E & V).
  split; [exact (rounds_to_finite _ _ RX) |].
  split; [exact (rounds_to_valid _ _ RX) |].
  split.
  - replace (- B2R T) with (IZR (- m) * powerRZ 2 e)
      by (rewrite V, opp_IZR; ring).
    apply (rounds_to_ge _ _ (- m) e RX); [lia | exact E |].
    rewrite opp_IZR.
    replace (- IZR m * powerRZ 2 e) with (- B2R T) by (rewrite V; ring).
    nra.
  - rewrite V.
    apply (rounds_to_le _ _ m e RX); [exact M | exact E |].
    rewrite <- V. nra.
Qed.

(** X1: on binary64, for a pixel of the image and a [tan (fov / 2)] that is
    not negative, the tangent handed to [std::atan] is in view,
    [|x| <= tan (fov / 2)]; so the angle lies between [atan (- tan (fov / 2))]
    and [atan (tan (fov / 2))] when libm's [atan] is nondecreasing. *)
Theorem pixel_angle_within_half_fov
    (tan atan : spec_float -> spec_float)
    (size : ImageSize) (fov : Radians spec_float) (p : PixelIndex) :
  let T := tan (SFdiv prec emax (Angle.value fov) (of_Z 2)) in
  (0 < width size)%Z -> is_u64 (width size) ->
  (0 <= value p <= width size)%Z ->
  is_finite T = true -> valid_binary prec emax T = true ->
  0 <= B2R T <= powerRZ 2 500 ->
  Rabs (B2R (SFmul prec emax (normalized p size) T)) <= B2R T
  /\ ((forall a b : spec_float,
          is_finite a = true -> valid_binary prec emax a = true ->
          is_finite b = true -> valid_binary prec emax b = true ->
          B2R a <= B2R b -> B2R (atan a) <= B2R (atan b)) ->
      B2R (atan (SFopp T))
      <= B2R (Angle.value (pixel_tan_from_fov (TD := libm_trig tan atan)
                             p size fov))
      <= B2R (atan T)).
Proof.
  intros T W0 WU P TF TV TB.
  destruct (pixel_tangent_in_view T size p W0 WU P TF TV TB)
    as (XF & XV & X0 & X1).
  split; [apply Rabs_le; split; assumption |].
  intros Mono.
  unfold pixel_tan_from_fov, Angle.tan, Angle.div.
  cbn [d_tan d_atan libm_trig d_div d_mul d_two b64_arith Angle.value].
  fold T. split.
  - apply Mono; try assumption.
    + now rewrite is_finite_SFopp.
    + now rewrite valid_SFopp.
    + now rewrite B2R_SFopp.
  - now apply Mono.
Qed.

(** The normalized coordinates of the two edges, as real numbers. *)
Lemma normalized_edges (size : ImageSize) :
  (0 < width size)%Z -> is_u64 (width size) ->
  let l := normalized {| value := 0 |} size in
  let r := normalized {| value := width size |} size in
  (is_finite l = true /\ valid_binary prec emax l = true /\ B2R l = -1)
  /\ (is_finite r = true /\ valid_binary prec emax r = true /\ B2R r = 1).
Proof.
  intros W0 [_ WU] l r.
  destruct (normalized_rounds {| value := 0 |} size (conj W0 WU))
    as (_ & RV0 & WB & _ & RQ0 & RN0); [unfold is_u64, u64_max; simpl; lia |].
  destruct (normalized_rounds {| value := width size |} size (conj W0 WU))
    as (_ & _ & _ & _ & RQ1 & RN1); [unfold is_u64; simpl; lia |].
  cbv zeta in *. cbn [value] in *.
  set (Wv := B2R (of_Z (width size))) in *.
  assert (B2R (of_Z 0) = 0) as V0 by reflexivity.
  rewrite V0 in RQ0.
  assert (B2R (SFdiv prec emax (of_Z 0) (half_width size)) = 0) as Q0.
  { rewrite (rounds_to_exact _ _ 0 0 RQ0); [| simpl; lia | lia |];
      unfold Rdiv; simpl; ring. }
  assert (B2R (SFdiv prec emax (of_Z (width size)) (half_width size)) = 2)
    as Q1.
  { assert (Wv / (Wv / 2) = IZR 2 * powerRZ 2 0) as E
        by (simpl; field; lra).
    rewrite (rounds_to_exact _ _ 2 0 RQ1); [| simpl; lia | lia | exact E].
    rewrite E. simpl. ring. }
  rewrite Q0 in RN0. rewrite Q1 in RN1. unfold l, r.
  split; (split; [eapply rounds_to_finite; eassumption |]);
    (split; [eapply rounds_to_valid; eassumption |]).
  - rewrite (rounds_to_exact _ _ (-1) 0 RN0); [| simpl; lia | lia |];
      simpl; ring.
  - rewrite (rounds_to_exact _ _ 1 0 RN1); [| simpl; lia | lia |];
      simpl; ring.
Qed.

(** X2: on binary64, for a [tan (fov / 2)] that is a number other than zero,
    of a size up to [2^500], the angle of the left edge is [atan (- tan (fov / 2))] and the angle of
    the right edge is [atan (tan (fov / 2))], as libm returns them. *)
Theorem pixel_angle_landmarks
    (tan atan : spec_float -> spec_float)
    (size : ImageSize) (fov : Radians spec_float) :
  let T := tan (SFdiv prec emax (Angle.value fov) (of_Z 2)) in
  (0 < width size)%Z -> is_u64 (width size) ->
  is_finite T = true -> valid_binary prec emax T = true ->
  is_nonzero T = true -> Rabs (B2R T) <= powerRZ 2 500 ->
  Angle.value (pixel_tan_from_fov (TD := libm_trig tan atan)
                 {| value := 0 |} size fov)
  = atan (SFopp T)
  /\ Angle.value (pixel_tan_from_fov (TD := libm_trig tan atan)
                    {| value := width size |} size fov)
     = atan T.
Proof.
  intros T W0 WU TF TV NZ TB.
  destruct (normalized_edges size W0 WU)
    as ((LF & LV & LB) & (RF & RV & RB)).
  destruct (valid_competitor T TF TV) as (m & e & M & E & V).
  assert (B2R T <> 0) as TN.
  { destruct T as [s | s | | s mt et]; try discriminate.
    destruct (B2R_sign_cases s mt et) as [A _].
    intros Z. rewrite Z, Rabs_R0 in A. lra. }
  assert (Rabs (B2R T) < powerRZ 2 1023) as Small
      by (apply (below_top _ 500); [lia | exact TB]).
  unfold pixel_tan_from_fov, Angle.tan, Angle.div.
  cbn [d_tan d_atan libm_trig d_div d_mul d_two b64_arith Angle.value].
  fold T. split; f_equal.
  - assert (rounds_to (B2R (normalized {| value := 0 |} size) * B2R T)
              (SFmul prec emax (normalized {| value := 0 |} size) T)) as RX.
    { apply SFmul_rounds; try assumption.
      rewrite LB. replace (-1 * B2R T) with (- B2R T) by ring.
      now rewrite Rabs_Ropp. }
    apply valid_unique.
    + exact (rounds_to_finite _ _ RX).
    + exact (rounds_to_valid _ _ RX).
    + now rewrite is_finite_SFopp.
    + now rewrite valid_SFopp.
    + rewrite B2R_SFopp.
      rewrite (rounds_to_exact _ _ (- m) e RX); [| lia | exact E |];
        rewrite LB, ?opp_IZR, V; ring.
    + rewrite (rounds_to_exact _ _ (- m) e RX); [| lia | exact E |];
        rewrite LB, ?opp_IZR; [| rewrite V; ring]. lra.
  - assert (rounds_to (B2R (normalized {| value := width size |} size)
                       * B2R T)
              (SFmul prec emax (normalized {| value := width size |} size)
                 T)) as RX.
    { apply SFmul_rounds; try assumption.
      rewrite RB, Rmult_1_l. exact Small. }
    apply valid_unique; try assumption.
    + exact (rounds_to_finite _ _ RX).
    + exact (rounds_to_valid _ _ RX).
    + rewrite (rounds_to_exact _ _ m e RX); [| exact M | exact E |];
        rewrite RB, ?V; ring.
    + rewrite (rounds_to_exact _ _ m e RX); [| exact M | exact E |];
        rewrite RB; [| rewrite V; ring]. lra.
Qed.

Lemma pixel_angle_within_half_fov_witness :
  Rabs (B2R (SFmul prec emax
               (normalized {| value := 6 |} {| width := 640; height := 480 |})
               (S754_finite false 5165545649814306 (-54))))
  <= B2R (S754_finite false 5165545649814306 (-54))
  /\ B2R (S754_finite true 5165545649814306 (-54))
     <= B2R (Angle.value
               (pixel_tan_from_fov
                  (TD := libm_trig LibmSample.tan (fun x => x))
                  {| value := 6 |} {| width := 640; height := 480 |}
                  (Angle.make LibmSample.fov_32)))
     <= B2R (S754_finite false 5165545649814306 (-54)).
Proof.
  pose proof (pixel_angle_within_half_fov LibmSample.tan (fun x => x)
                {| width := 640; height := 480 |}
                (Angle.make LibmSample.fov_32) {| value := 6 |}) as H.
  cbv zeta in H. cbn [Angle.value] in H.
  rewrite sample_tan_half_fov_32 in H. cbn [SFopp negb] in H.
  destruct H as [A B].
  - simpl. lia.
  - unfold is_u64, u64_max. simpl. lia.
  - simpl. lia.
  - reflexivity.
  - reflexivity.
  - destruct (normal_range 5165545649814306 (-54) (-2) 500) as [L U];
      [reflexivity | lia | lia |].
    pose proof (powerRZ_2_pos (-2)). lra.
  - split; [exact A |]. apply B. intros a b _ _ _ _ L. exact L.
Defined.

Lemma pixel_angle_landmarks_witness :
  Angle.value (pixel_tan_from_fov (TD := LibmSample.libm)
                 {| value := 0 |} {| width := 640; height := 480 |}
                 (Angle.make LibmSample.fov_32))
  = LibmSample.atan (S754_finite true 5165545649814306 (-54))
  /\ Angle.value (pixel_tan_from_fov (TD := LibmSample.libm)
                    {| value := 640 |} {| width := 640; height := 480 |}
                    (Angle.make LibmSample.fov_32))
     = LibmSample.atan (S754_finite false 5165545649814306 (-54)).
Proof.
  pose proof (pixel_angle_landmarks LibmSample.tan LibmSample.atan
                {| width := 640; height := 480 |}
                (Angle.make LibmSample.fov_32)) as H.
  cbv zeta in H. cbn [Angle.value width SFopp] in H.
  rewrite sample_tan_half_fov_32 in H. cbn [SFopp negb] in H.
  apply H.
  - simpl. lia.
  - unfold is_u64, u64_max. simpl. lia.
  - reflexivity.
  - reflexivity.
  - reflexivity.
  - rewrite Rabs_pos_eq.
    + apply (normal_range 5165545649814306 (-54) (-2) 500);
        [reflexivity | lia | lia].
    + destruct (B2R_sign_cases false 5165545649814306 (-54)) as [_ P]. lra.
Defined.

End AngleOfPixel.

(** ** The test drivers *)

Section Binary64Harnessed.

Import Binary64 Binary64Harness.

Lemma SFcompare_swap (x y : spec_float) :
  SFcompare y x = option_map CompOpp (SFcompare x y).
Proof.
  destruct x as [a | a | | a mx ex], y as [b | b | | b my ey];
    try reflexivity;
    try (destruct a; reflexivity); try (destruct b; reflexivity);
    try (destruct a, b; reflexivity).
  cbn [SFcompare option_map].
  destruct a, b; try reflexivity.
  - rewrite (Z.compare_antisym ey ex).
    destruct (ey ?= ex)%Z; try reflexivity. cbn [CompOpp].
    now rewrite (Pos.compare_cont_antisym mx my Eq).
  - rewrite (Z.compare_antisym ey ex).
    destruct (ey ?= ex)%Z; try reflexivity. cbn [CompOpp].
    now rewrite (Pos.compare_cont_antisym mx my Eq).
Qed.

Lemma SFcompare_none (x y : spec_float) :
  SFcompare x y = None -> (is_nan x || is_nan y)%bool = true.
Proof.
  destruct x as [a | a | | a mx ex], y as [b | b | | b my ey];
    try reflexivity; try discriminate.
Qed.

Lemma SFcompare_some (x y : spec_float) (c : comparison) :
  SFcompare x y = Some c -> (is_nan x || is_nan y)%bool = false.
Proof.
  destruct x as [a | a | | a mx ex], y as [b | b | | b my ey];
    try reflexivity; try discriminate.
Qed.

(** X21: The two [assert_near] of the tests differ on NaN only: the one of the
    [math.hpp] tests lets a check pass when the difference or the tolerance
    is a NaN, the one of the [types.hpp] tests does not. *)
Theorem assert_near_passes_nan (actual expected tolerance : spec_float) :
  assert_near actual expected tolerance
  = (assert_near_strict actual expected tolerance
     || is_nan (SFsub prec emax actual expected)
     || is_nan tolerance)%bool.
Proof.
  unfold assert_near, assert_near_strict.
  cbn [d_leb d_ltb d_abs d_sub b64_harness b64_arith].
  set (d := SFsub prec emax actual expected).
  assert (is_nan (SFabs d) = is_nan d) as <- by now destruct d.
  unfold SFleb, SFltb.
  rewrite (SFcompare_swap (SFabs d) tolerance).
  destruct (SFcompare (SFabs d) tolerance) as [c |] eqn:C.
  - rewrite <- orb_assoc, (SFcompare_some _ _ _ C), orb_false_r.
    now destruct c.
  - rewrite <- orb_assoc, (SFcompare_none _ _ C). reflexivity.
Qed.

Lemma to_int_of_Z_small (q : Z) :
  (0 <= q <= int_max)%Z -> to_int (of_Z q) = Some q.
Proof.
  intros [Q0 Q1]. destruct q as [| q | q]; try lia.
  - reflexivity.
  - destruct (of_Z_small q) as (m & k & E & _ & K & M).
    { unfold int_max in Q1. change (2 ^ 53)%Z with 9007199254740992%Z.
      change (2 ^ 31 - 1)%Z with 2147483647%Z in Q1. lia. }
    rewrite E. unfold to_int.
    rewrite (trunc_mag_shifted m q k) by (try assumption; lia).
    cbn [cond_Zopp].
    replace (int_min <=? Zpos q)%Z with true
      by (symmetry; apply Z.leb_le; unfold int_min; lia).
    apply Z.leb_le in Q1. now rewrite Q1.
Qed.

(** X22: The legacy linear helpers, given the half width the way the tests give
    it (converted to [int]), compute what the new functions compute when
    the width is even. *)
Theorem legacy_linear_agree (size : ImageSize) (c : Z) :
  (0 < c <= int_max)%Z -> (2 * c = width size)%Z ->
  d_to_int (half_width size) = Some c
  /\ (forall (v : Z) (k threshold : spec_float),
         pixel_tan_by_pixel_2_tan_old (of_Z v) c k
         = pixel_tan_by_pixel_2_tan {| value := v |} size k
         /\ pixel_tan_by_pixel_2_tan_clipped_old (of_Z v) c k threshold
            = pixel_tan_by_pixel_2_tan_clipped {| value := v |} size k
                threshold)
  /\ (forall (t k : spec_float) (round_back : bool),
         to_pixel (tan_2_pixel_by_pixel_2_tan_old t c k round_back)
         = tan_2_pixel_by_pixel_2_tan (Angle.make t) size k round_back
         /\ to_pixel (d_round (angle_tan_to_pixel_old t c k))
            = angle_tan_to_pixel (Angle.make t) size k).
Proof.
  intros [C0 C1] C.
  assert (of_Z c = half_width size) as HC.
  { unfold half_width. cbn [d_div d_of_u64 d_two b64_arith].
    rewrite <- C. symmetry. apply half_of_even; [lia |].
    unfold int_max in C1. change (2 ^ 53)%Z with 9007199254740992%Z.
    change (2 ^ 31 - 1)%Z with 2147483647%Z in C1. lia. }
  split; [| split].
  - rewrite <- HC. apply to_int_of_Z_small. lia.
  - intros v k threshold.
    unfold pixel_tan_by_pixel_2_tan_old, pixel_tan_by_pixel_2_tan,
      pixel_tan_by_pixel_2_tan_clipped_old, pixel_tan_by_pixel_2_tan_clipped.
    cbn [d_of_int b64_harness d_of_u64 b64_arith value].
    rewrite HC. split; reflexivity.
  - intros t k round_back.
    unfold tan_2_pixel_by_pixel_2_tan_old, tan_2_pixel_by_pixel_2_tan,
      angle_tan_to_pixel_old, angle_tan_to_pixel.
    cbn [d_of_int b64_harness Angle.value].
    rewrite HC. split; [now destruct round_back | reflexivity].
Qed.

Lemma legacy_linear_agree_witness :
  d_to_int (half_width {| width := 640; height := 480 |}) = Some 320%Z
  /\ pixel_tan_by_pixel_2_tan_old (of_Z 480) 320 (decimal 35 10000)
     = pixel_tan_by_pixel_2_tan {| value := 480 |}
         {| width := 640; height := 480 |} (decimal 35 10000).
Proof.
  destruct (legacy_linear_agree {| width := 640; height := 480 |} 320)
    as (A & B & _).
  - unfold int_max. lia.
  - reflexivity.
  - split; [exact A | apply B; exact S754_nan].
Defined.

End Binary64Harnessed.
